(** * LogLineFeatures: governed, reversible execution of spans

    A shallow embedding of the span lifecycle engine ([span-engine]), the
    security governance engine with its PII detector ([security-governance])
    and the timeline store ([timeline-observability]), with the properties
    of the specification stated over it.

    Conventions of the embedding.
    - JavaScript numbers that hold timestamps, counts and indices are [Z].
    - A JavaScript string that is only compared or used as a key is a
      [string]; the text scanned by the PII detector is a list of UTF-16
      code units.
    - A [Map] whose iteration order is not observed is a [gmap]; one whose
      order is observed is an association list in insertion order.
    - A method that throws returns [Throw e] together with the state it
      leaves behind: a JavaScript exception does not undo mutations. *)

From Stdlib Require Import ZArith QArith Qminmax Lia Bool List Sorted Permutation.
From stdpp Require Import base option list strings pretty gmap.

Local Open Scope Z_scope.

(** ** Outcomes of a call: a returned value or a thrown one *)

Inductive Outcome (E A : Type) : Type :=
| Ok (a : A)
| Throw (e : E).
Arguments Ok {E A} a.
Arguments Throw {E A} e.

Definition is_ok {E A} (o : Outcome E A) : bool :=
  match o with Ok _ => true | Throw _ => false end.

(** ** The span lifecycle engine (span-engine) *)

Module Span.

Inductive SpanType : Type :=
| NAVIGATION | READ | WRITE | GUI_AUTOMATION | IO_OPERATION | COMPUTATION.

Inductive SpanStatus : Type :=
| PENDING | SIMULATING | AWAITING_APPROVAL | EXECUTING | COMPLETED | FAILED
| ROLLED_BACK.

#[export] Instance SpanType_eq_dec : EqDecision SpanType.
Proof. solve_decision. Defined.

#[export] Instance SpanStatus_eq_dec : EqDecision SpanStatus.
Proof. solve_decision. Defined.

(** The string value of each enum member, as the [enum] declarations give it. *)
Definition SpanType_value (t : SpanType) : string :=
  match t with
  | NAVIGATION => "navigation"
  | READ => "read"
  | WRITE => "write"
  | GUI_AUTOMATION => "gui_automation"
  | IO_OPERATION => "io_operation"
  | COMPUTATION => "computation"
  end.

Definition SpanStatus_value (s : SpanStatus) : string :=
  match s with
  | PENDING => "pending"
  | SIMULATING => "simulating"
  | AWAITING_APPROVAL => "awaiting_approval"
  | EXECUTING => "executing"
  | COMPLETED => "completed"
  | FAILED => "failed"
  | ROLLED_BACK => "rolled_back"
  end.

Inductive ChangeKind : Type := ChCreate | ChUpdate | ChDelete.
Inductive Impact : Type := ImpactLow | ImpactMedium | ImpactHigh.

Section Engine.

(** [World] is everything outside the engine that a bound procedure can
    read or change (the browser, the network, the clock, the random
    generator). [Val] is the type of arbitrary JavaScript values ([any]):
    results of operations, thrown errors, metadata. [Args] is the type of
    an argument payload (a JSON-serialisable object). *)
Variables World Val Args : Type.

(** [Date.now()] reads the clock of the world. *)
Variable Date_now : World -> Z.

(** The identifier built in [createSpan] from [Date.now()] and
    [Math.random()]; drawing it advances the random generator. *)
Variable fresh_span_id : World -> string * World.

Record Change : Type := {
  change_type : ChangeKind;
  change_target : string;
  change_before : option Val;
  change_after : option Val
}.

Record SpanDiff : Type := {
  changes : list Change;
  impact : Impact;
  diff_reversible : bool
}.

(** [args] is not a declared member of the interface [SpanContext]; the
    governance engine reads it as [span.args], so it is modelled as an
    optional property. [createSpan] never sets it. *)
Record SpanContext : Type := {
  id : string;
  parentId : option string;
  type : SpanType;
  status : SpanStatus;
  startTime : Z;
  endTime : option Z;
  metadata : gmap string Val;
  reversible : bool;
  args : option Args
}.

(** A bound procedure: an asynchronous function without parameters. It
    acts on the world and either resolves to a value or rejects. Bound
    procedures do not call back into the engine. *)
Definition Proc (A : Type) : Type := World -> Outcome Val A * World.

Record SpanOperation : Type := {
  op_id : string;
  description : string;
  operation : Proc Val;
  rollback : option (Proc unit);
  simulate : Proc SpanDiff
}.

Record TimelineEntry : Type := {
  entry_spanId : string;
  entry_timestamp : Z;
  entry_event : string
}.

Record SpanEngine : Type := {
  spans : gmap string SpanContext;
  operations : gmap string SpanOperation;
  timeline : list TimelineEntry
}.

Definition empty_engine : SpanEngine :=
  {| spans := ∅; operations := ∅; timeline := [] |}.

(** The errors the engine raises, one constructor per message, and the
    re-raised rejection of a bound procedure. *)
Inductive EngineError : Type :=
| SpanNotFound (spanId : string)
| NotReadyForExecution (spanId : string)
| NotReversible (spanId : string)
| CannotRollBackInCurrentState (spanId : string)
| Raised (e : Val).

(** *** The monad of engine methods: world and engine state, with throw *)

Definition St : Type := (World * SpanEngine)%type.
Definition M (A : Type) : Type := St -> Outcome EngineError A * St.

Definition ret {A} (a : A) : M A := fun s => (Ok a, s).
Definition throw {A} (e : EngineError) : M A := fun s => (Throw e, s).
Definition bind {A B} (m : M A) (f : A -> M B) : M B :=
  fun s => match m s with
           | (Ok a, s') => f a s'
           | (Throw e, s') => (Throw e, s')
           end.
Definition try_catch {A} (m : M A) (h : EngineError -> M A) : M A :=
  fun s => match m s with
           | (Ok a, s') => (Ok a, s')
           | (Throw e, s') => h e s'
           end.
Definition get_engine : M SpanEngine := fun s => (Ok (snd s), s).
Definition now : M Z := fun s => (Ok (Date_now (fst s)), s).
Definition modify_engine (f : SpanEngine -> SpanEngine) : M unit :=
  fun s => (Ok tt, (fst s, f (snd s))).

(** [await p()]: run a bound procedure on the world; a rejection is
    thrown at the [await]. *)
Definition await {A} (p : Proc A) : M A :=
  fun s => match p (fst s) with
           | (Ok a, w') => (Ok a, (w', snd s))
           | (Throw e, w') => (Throw (Raised e), (w', snd s))
           end.

Notation "'let!' x ':=' m 'in' k" := (bind m (fun x => k))
  (at level 10, x name, m at level 100, k at level 200).
Notation "'do!' m 'in' k" := (bind m (fun _ => k))
  (at level 10, m at level 100, k at level 200).

(** *** Field updates on the span object held in the map *)

Definition with_status (st : SpanStatus) (s : SpanContext) : SpanContext :=
  {| id := id s; parentId := parentId s; type := type s; status := st;
     startTime := startTime s; endTime := endTime s; metadata := metadata s;
     reversible := reversible s; args := args s |}.

Definition with_endTime (t : Z) (s : SpanContext) : SpanContext :=
  {| id := id s; parentId := parentId s; type := type s; status := status s;
     startTime := startTime s; endTime := Some t; metadata := metadata s;
     reversible := reversible s; args := args s |}.

(** [span.status = st] on the object stored under [spanId]. *)
Definition set_status (spanId : string) (st : SpanStatus) : M unit :=
  modify_engine (fun e =>
    {| spans := alter (with_status st) spanId (spans e);
       operations := operations e; timeline := timeline e |}).

(** [span.endTime = Date.now()]. *)
Definition set_endTime (spanId : string) : M unit :=
  let! t := now in
  modify_engine (fun e =>
    {| spans := alter (with_endTime t) spanId (spans e);
       operations := operations e; timeline := timeline e |}).

Definition addTimelineEvent (spanId : string) (event : string) : M unit :=
  let! t := now in
  modify_engine (fun e =>
    {| spans := spans e; operations := operations e;
       timeline := timeline e ++
         [ {| entry_spanId := spanId; entry_timestamp := t; entry_event := event |} ] |}).

(** [this.spans.get(spanId)] and [this.operations.get(spanId)], with the
    guard [if (!span || !operation) throw ...]. *)
Definition lookup_span (spanId : string) : M (SpanContext * SpanOperation) :=
  let! e := get_engine in
  match spans e !! spanId, operations e !! spanId with
  | Some span, Some op => ret (span, op)
  | _, _ => throw (SpanNotFound spanId)
  end.

(** *** The methods *)

Definition createSpan (ty : SpanType) (op : SpanOperation) (parent : option string)
  : M string :=
  fun s =>
    let '(spanId, w1) := fresh_span_id (fst s) in
    (let! t := now in
     let span := {| id := spanId; parentId := parent; type := ty;
                    status := PENDING; startTime := t; endTime := None;
                    metadata := ∅;
                    reversible := bool_decide (is_Some (rollback op));
                    args := None |} in
     do! modify_engine (fun e =>
           {| spans := <[spanId := span]> (spans e);
              operations := <[spanId := op]> (operations e);
              timeline := timeline e |}) in
     do! addTimelineEvent spanId "span_created" in
     ret spanId) (w1, snd s).

Definition simulateSpan (spanId : string) : M SpanDiff :=
  let! so := lookup_span spanId in
  do! set_status spanId SIMULATING in
  do! addTimelineEvent spanId "simulation_started" in
  try_catch
    (let! diff := await (simulate (snd so)) in
     do! set_status spanId AWAITING_APPROVAL in
     do! addTimelineEvent spanId "simulation_completed" in
     ret diff)
    (fun error =>
     do! set_status spanId FAILED in
     do! addTimelineEvent spanId "simulation_failed" in
     throw error).

Definition executeSpan (spanId : string) : M Val :=
  let! so := lookup_span spanId in
  if negb (bool_decide (status (fst so) = AWAITING_APPROVAL))
  then throw (NotReadyForExecution spanId)
  else
    do! set_status spanId EXECUTING in
    do! addTimelineEvent spanId "execution_started" in
    try_catch
      (let! result := await (operation (snd so)) in
       do! set_status spanId COMPLETED in
       do! set_endTime spanId in
       do! addTimelineEvent spanId "execution_completed" in
       ret result)
      (fun error =>
       do! set_status spanId FAILED in
       do! set_endTime spanId in
       do! addTimelineEvent spanId "execution_failed" in
       throw error).

Definition rollbackSpan (spanId : string) : M unit :=
  let! so := lookup_span spanId in
  match reversible (fst so), rollback (snd so) with
  | true, Some rb =>
      if negb (bool_decide (status (fst so) = COMPLETED))
      then throw (CannotRollBackInCurrentState spanId)
      else
        do! addTimelineEvent spanId "rollback_started" in
        try_catch
          (do! await rb in
           do! set_status spanId ROLLED_BACK in
           addTimelineEvent spanId "rollback_completed")
          (fun error =>
           do! addTimelineEvent spanId "rollback_failed" in
           throw error)
  | _, _ => throw (NotReversible spanId)
  end.

Definition getSpan (e : SpanEngine) (spanId : string) : option SpanContext :=
  spans e !! spanId.

(** The status of a span in a state, when the span exists. *)
Definition status_of (s : St) (spanId : string) : option SpanStatus :=
  status <$> getSpan (snd s) spanId.

(** *** Properties of the lifecycle *)

Ltac run_method :=
  unfold rollbackSpan, executeSpan, simulateSpan, createSpan, lookup_span,
    addTimelineEvent, set_status, set_endTime, try_catch, await, bind, ret,
    throw, get_engine, now, modify_engine, status_of, getSpan; simpl.

(** [createSpan] always succeeds; the span it stores is [pending], and its
    reversibility flag records whether a rollback procedure was supplied. *)
Lemma createSpan_pending (ty : SpanType) (op : SpanOperation)
    (parent : option string) (s : St) :
  exists spanId s' span,
    createSpan ty op parent s = (Ok spanId, s') /\
    getSpan (snd s') spanId = Some span /\
    operations (snd s') !! spanId = Some op /\
    status span = PENDING /\
    type span = ty /\
    reversible span = bool_decide (is_Some (rollback op)).
Proof.
  destruct s as [w e]. run_method.
  destruct (fresh_span_id w) as [spanId w1] eqn:Hid. simpl.
  eexists _, _, _. split; [reflexivity|]. simpl.
  rewrite !lookup_insert_eq. repeat split; reflexivity.
Qed.

(** The guard of [executeSpan]: a span that is not [awaiting_approval] is
    refused, and the refusal changes nothing. *)
Lemma executeSpan_not_ready (w : World) (e : SpanEngine) (spanId : string)
    (span : SpanContext) (op : SpanOperation) :
  spans e !! spanId = Some span ->
  operations e !! spanId = Some op ->
  status span <> AWAITING_APPROVAL ->
  executeSpan spanId (w, e) = (Throw (NotReadyForExecution spanId), (w, e)).
Proof.
  intros Hs Ho Hst. run_method. rewrite Hs, Ho. simpl.
  rewrite bool_decide_eq_false_2 by assumption. reflexivity.
Qed.

(** [executeSpan] returns a result only from [awaiting_approval]. *)
Lemma executeSpan_ok_inv (s s' : St) (spanId : string) (v : Val) :
  executeSpan spanId s = (Ok v, s') ->
  status_of s spanId = Some AWAITING_APPROVAL /\
  status_of s' spanId = Some COMPLETED.
Proof.
  destruct s as [w e]. run_method.
  destruct (spans e !! spanId) as [span|] eqn:Hs; [|discriminate].
  destruct (operations e !! spanId) as [op|] eqn:Ho; [|discriminate].
  simpl. destruct (bool_decide (status span = AWAITING_APPROVAL)) eqn:Hst;
    simpl; [|discriminate].
  apply bool_decide_eq_true_1 in Hst.
  destruct (operation op w) as [[r|x] w']; simpl; [|discriminate].
  intros H; inversion H; subst; clear H. simpl. split.
  - now rewrite Hst.
  - rewrite !lookup_alter_eq, Hs. reflexivity.
Qed.

(** [simulateSpan] has no guard on the status: on every stored span it runs
    the bound simulate procedure, and ends in [awaiting_approval] when the
    procedure resolves and in [failed], re-raising, when it rejects. *)
Lemma simulateSpan_any_status (w : World) (e : SpanEngine) (spanId : string)
    (span : SpanContext) (op : SpanOperation) :
  spans e !! spanId = Some span ->
  operations e !! spanId = Some op ->
  match simulate op w with
  | (Ok d, _) =>
      fst (simulateSpan spanId (w, e)) = Ok d /\
      status_of (snd (simulateSpan spanId (w, e))) spanId = Some AWAITING_APPROVAL
  | (Throw x, _) =>
      fst (simulateSpan spanId (w, e)) = Throw (Raised x) /\
      status_of (snd (simulateSpan spanId (w, e))) spanId = Some FAILED
  end.
Proof.
  intros Hs Ho. run_method. rewrite Hs, Ho. simpl.
  destruct (simulate op w) as [[d|x] w']; simpl;
    rewrite !lookup_alter_eq, Hs; split; reflexivity.
Qed.

(** C4. [rollbackSpan] on a stored span: it returns only when the span is
    reversible, a rollback procedure is bound and the status is
    [completed], and then the status is [rolled_back]; a span that is not
    reversible is refused with [NotReversible], a reversible span in
    another status with [CannotRollBackInCurrentState], both without any
    change; when the rollback procedure rejects, the rejection is re-raised
    and the span is left as it was, still [completed]. The reversibility
    flag of a span is fixed by [createSpan] as the presence of a rollback
    procedure. *)
Theorem rollbackSpan_spec (w : World) (e : SpanEngine) (spanId : string)
    (span : SpanContext) (op : SpanOperation) :
  spans e !! spanId = Some span ->
  operations e !! spanId = Some op ->
  (* success only from a reversible, completed span *)
  (is_ok (fst (rollbackSpan spanId (w, e))) = true ->
     reversible span = true /\ is_Some (rollback op) /\
     status span = COMPLETED /\
     status_of (snd (rollbackSpan spanId (w, e))) spanId = Some ROLLED_BACK) /\
  (* not reversible *)
  (reversible span = false \/ rollback op = None ->
     rollbackSpan spanId (w, e) = (Throw (NotReversible spanId), (w, e))) /\
  (* reversible, wrong status *)
  (reversible span = true -> is_Some (rollback op) ->
     status span <> COMPLETED ->
     rollbackSpan spanId (w, e)
       = (Throw (CannotRollBackInCurrentState spanId), (w, e))) /\
  (* reversible and completed: the outcome of the rollback procedure decides *)
  (forall rb, reversible span = true -> rollback op = Some rb ->
     status span = COMPLETED ->
     match rb w with
     | (Ok _, _) =>
         fst (rollbackSpan spanId (w, e)) = Ok tt /\
         status_of (snd (rollbackSpan spanId (w, e))) spanId = Some ROLLED_BACK
     | (Throw x, _) =>
         fst (rollbackSpan spanId (w, e)) = Throw (Raised x) /\
         spans (snd (snd (rollbackSpan spanId (w, e)))) = spans e /\
         status_of (snd (rollbackSpan spanId (w, e))) spanId = Some COMPLETED
     end) /\
  (* the flag comes from creation *)
  (forall ty op' parent s, exists spanId' s' span',
     createSpan ty op' parent s = (Ok spanId', s') /\
     getSpan (snd s') spanId' = Some span' /\
     reversible span' = bool_decide (is_Some (rollback op'))).
Proof.
  intros Hs Ho.
  assert (Hnr : reversible span = false \/ rollback op = None ->
     rollbackSpan spanId (w, e) = (Throw (NotReversible spanId), (w, e))).
  { intros H. run_method. rewrite Hs, Ho. simpl.
    destruct (reversible span), (rollback op); try reflexivity;
      destruct H; discriminate. }
  assert (Hws : reversible span = true -> is_Some (rollback op) ->
     status span <> COMPLETED ->
     rollbackSpan spanId (w, e)
       = (Throw (CannotRollBackInCurrentState spanId), (w, e))).
  { intros Hr [rb Hrb] Hst. run_method. rewrite Hs, Ho. simpl.
    rewrite Hr, Hrb. rewrite bool_decide_eq_false_2 by assumption.
    reflexivity. }
  assert (Hrun : forall rb, reversible span = true -> rollback op = Some rb ->
     status span = COMPLETED ->
     match rb w with
     | (Ok _, _) =>
         fst (rollbackSpan spanId (w, e)) = Ok tt /\
         status_of (snd (rollbackSpan spanId (w, e))) spanId = Some ROLLED_BACK
     | (Throw x, _) =>
         fst (rollbackSpan spanId (w, e)) = Throw (Raised x) /\
         spans (snd (snd (rollbackSpan spanId (w, e)))) = spans e /\
         status_of (snd (rollbackSpan spanId (w, e))) spanId = Some COMPLETED
     end).
  { intros rb Hr Hrb Hst. run_method. rewrite Hs, Ho. simpl.
    rewrite Hr, Hrb. rewrite bool_decide_eq_true_2 by assumption. simpl.
    destruct (rb w) as [[[]|x] w']; simpl.
    - split; [reflexivity|]. rewrite lookup_alter_eq, Hs. reflexivity.
    - repeat split. rewrite Hs. simpl. now rewrite Hst. }
  repeat split; try assumption.
  - destruct (reversible span) eqn:Hr; [reflexivity|].
    rewrite Hnr in H by (left; reflexivity). discriminate.
  - destruct (rollback op) as [rb|] eqn:Hrb; [eexists; reflexivity|].
    rewrite Hnr in H by (right; reflexivity). discriminate.
  - destruct (decide (status span = COMPLETED)) as [Hc|Hc]; [assumption|].
    destruct (reversible span) eqn:Hr;
      [|rewrite Hnr in H by (left; reflexivity); discriminate].
    destruct (rollback op) as [rb|] eqn:Hrb;
      [|rewrite Hnr in H by (right; reflexivity); discriminate].
    rewrite Hws in H; eauto. discriminate.
  - destruct (reversible span) eqn:Hr;
      [|rewrite Hnr in H by (left; reflexivity); discriminate].
    destruct (rollback op) as [rb|] eqn:Hrb;
      [|rewrite Hnr in H by (right; reflexivity); discriminate].
    destruct (decide (status span = COMPLETED)) as [Hc|Hc];
      [|rewrite Hws in H; eauto; discriminate].
    specialize (Hrun rb eq_refl eq_refl Hc).
    destruct (rb w) as [[[]|x] w'].
    + apply Hrun.
    + destruct Hrun as [Hf _]. rewrite Hf in H. discriminate.
  - intros ty op' parent s.
    destruct (createSpan_pending ty op' parent s)
      as (i & s' & sp & H1 & H2 & _ & _ & _ & H3).
    eauto 10.
Qed.

End Engine.

Arguments Build_SpanDiff {Val}.
Arguments Build_SpanOperation {World Val}.
Arguments empty_engine {World Val Args}.
Arguments status_of {World Val Args}.

(** *** A concrete world: an integer clock, string values, one identifier *)

Definition clock_now (w : Z) : Z := w.
Definition one_id (w : Z) : string * Z := ("span_1", w).

Definition no_changes : SpanDiff string :=
  Build_SpanDiff [] ImpactLow false.

(** An operation without a rollback procedure; every procedure resolves
    and takes one tick of the clock. *)
Definition plain_op : SpanOperation Z string :=
  Build_SpanOperation "op_1" "write a record"
    (fun w => (Ok "written", w + 1))
    None
    (fun w => (Ok no_changes, w + 1)).

(** An operation with a rollback procedure that resolves. *)
Definition undoable_op : SpanOperation Z string :=
  Build_SpanOperation "op_2" "write a record, with undo"
    (fun w => (Ok "written", w + 1))
    (Some (fun w => (Ok tt, w + 1)))
    (fun w => (Ok no_changes, w + 1)).

Definition create1 (op : SpanOperation Z string) : St Z string unit :=
  snd (createSpan Z string unit clock_now one_id WRITE op None (0, empty_engine)).
Definition simulate1 := simulateSpan Z string unit clock_now "span_1".
Definition execute1 := executeSpan Z string unit clock_now "span_1".
Definition rollback1 := rollbackSpan Z string unit clock_now "span_1".

(** C1 at a concrete history. After [createSpan], [simulateSpan],
    [executeSpan] the span is [completed]; a second [simulateSpan] is
    accepted and puts it back to [awaiting_approval], and the [executeSpan]
    that follows returns a result: it is not refused, although the calls
    before it were not just create and simulate. *)
Theorem executeSpan_after_resimulation :
  let s1 := create1 plain_op in
  let s2 := snd (simulate1 s1) in
  let s3 := snd (execute1 s2) in
  let s4 := snd (simulate1 s3) in
  status_of s1 "span_1" = Some PENDING /\
  is_ok (fst (simulate1 s1)) = true /\
  status_of s2 "span_1" = Some AWAITING_APPROVAL /\
  fst (execute1 s2) = Ok "written" /\
  status_of s3 "span_1" = Some COMPLETED /\
  is_ok (fst (simulate1 s3)) = true /\
  status_of s4 "span_1" = Some AWAITING_APPROVAL /\
  fst (execute1 s4) = Ok "written".
Proof. vm_compute. repeat split. Qed.

(** C3 at a concrete span. On a [completed] span [simulateSpan] does not
    fail: it returns the diff and the status becomes [awaiting_approval];
    on a span already [awaiting_approval] it does the same. *)
Theorem simulateSpan_on_completed_span :
  let s3 := snd (execute1 (snd (simulate1 (create1 plain_op)))) in
  status_of s3 "span_1" = Some COMPLETED /\
  fst (simulate1 s3) = Ok no_changes /\
  status_of (snd (simulate1 s3)) "span_1" = Some AWAITING_APPROVAL /\
  fst (simulate1 (snd (simulate1 (create1 plain_op)))) = Ok no_changes.
Proof. vm_compute. repeat split. Qed.

Lemma rollbackSpan_spec_witness :
  let s3 := snd (execute1 (snd (simulate1 (create1 undoable_op)))) in
  fst (rollback1 s3) = Ok tt /\
  status_of (snd (rollback1 s3)) "span_1" = Some ROLLED_BACK /\
  rollback1 (create1 undoable_op)
    = (Throw (CannotRollBackInCurrentState string "span_1"), create1 undoable_op) /\
  rollback1 (snd (execute1 (snd (simulate1 (create1 plain_op)))))
    = (Throw (NotReversible string "span_1"),
       snd (execute1 (snd (simulate1 (create1 plain_op))))).
Proof.
  set (s3 := snd (execute1 (snd (simulate1 (create1 undoable_op))))).
  set (p1 := create1 undoable_op).
  set (p3 := snd (execute1 (snd (simulate1 (create1 plain_op))))).
  assert (H3 : exists span, spans _ _ _ (snd s3) !! "span_1" = Some span /\
                 operations _ _ _ (snd s3) !! "span_1" = Some undoable_op /\
                 reversible _ _ span = true /\ status _ _ span = COMPLETED).
  { vm_compute. eexists. repeat split. }
  destruct H3 as (span & Hs & Ho & Hr & Hc).
  pose proof (rollbackSpan_spec Z string unit clock_now one_id (fst s3) (snd s3)
                "span_1" span undoable_op Hs Ho) as (_ & _ & _ & Hrun & _).
  specialize (Hrun _ Hr eq_refl Hc). simpl in Hrun.
  replace (fst s3, snd s3) with s3 in Hrun by (destruct s3; reflexivity).
  destruct Hrun as [Ha Hb].
  split; [exact Ha|]. split; [exact Hb|].
  split; vm_compute; reflexivity.
Defined.

End Span.

(** ** The security governance engine (security-governance) *)

Module Gov.

Import Span.

Inductive RiskLevel : Type := LOW | MEDIUM | HIGH | CRITICAL.

#[export] Instance RiskLevel_eq_dec : EqDecision RiskLevel.
Proof. solve_decision. Defined.

Record RiskFactor : Type := {
  factor_type : string;
  factor_description : string;
  factor_impact : Z;
  factor_likelihood : Z
}.

Record RiskAssessment : Type := {
  level : RiskLevel;
  factors : list RiskFactor;
  score : Z;
  mitigations : list string
}.

(** The status of one approver, and of a whole approval. *)
Inductive ApproverState : Type := AP_PENDING | AP_APPROVED | AP_REJECTED.
Inductive ApprovalState : Type := PENDING_APPROVAL | APPROVED | REJECTED | EXPIRED.

#[export] Instance ApproverState_eq_dec : EqDecision ApproverState.
Proof. solve_decision. Defined.

#[export] Instance ApprovalState_eq_dec : EqDecision ApprovalState.
Proof. solve_decision. Defined.

Record ApprovalStatus : Type := {
  userId : string;
  approver_status : ApproverState;
  approver_timestamp : option Z;
  approver_comment : option string
}.

Record GovernanceApproval : Type := {
  approval_id : string;
  approval_spanId : string;
  requestedBy : string;
  requestedAt : Z;
  approvers : list ApprovalStatus;
  approval_status : ApprovalState;
  riskAssessment : RiskAssessment;
  expiresAt : Z
}.

Inductive RuleType : Type := ALLOW | DENY | REQUIRE_APPROVAL.

Record TimeRestrictions : Type := {
  allowedHours : option (Z * Z);
  allowedDays : option (list Z)
}.

Record PolicyCondition : Type := {
  cond_spanType : option (list string);
  cond_targetDomains : option (list string);
  cond_riskLevel : option (list RiskLevel);
  cond_userRoles : option (list string);
  cond_timeRestrictions : option TimeRestrictions
}.

Record PolicyRule : Type := {
  rule_id : string;
  rule_type : RuleType;
  rule_condition : PolicyCondition;
  rule_action : string;
  rule_priority : Z
}.

Record SecurityPolicy : Type := {
  policy_id : string;
  policy_name : string;
  policy_description : string;
  rules : list PolicyRule;
  enabled : bool;
  policy_created : Z;
  policy_lastModified : Z
}.

Record LogLineIdentity : Type := {
  identity_id : string;
  username : string;
  email : string;
  roles : list string;
  permissions : list string
}.

(** The engine. [policies] is kept in insertion order, the order in which
    [this.policies.values()] visits it. *)
Record SecurityGovernanceEngine : Type := {
  policies : list (string * SecurityPolicy);
  approvals : gmap string GovernanceApproval;
  currentUser : option LogLineIdentity
}.

Inductive GovError : Type :=
| GovSpanNotFound (spanId : string)
| ApprovalNotFound (approvalId : string)
| ApprovalNotPending (approvalId : string)
| NotAnApprover (user : string)
| NoAuthenticatedUser
| TypeError (message : string).

(** *** Risk assessment *)

Section Risk.

Variables World Val Args : Type.

Definition navigation_risk : RiskFactor :=
  {| factor_type := "navigation_risk";
     factor_description := "Navigation to external domains";
     factor_impact := 3; factor_likelihood := 2 |}.

Definition data_modification : RiskFactor :=
  {| factor_type := "data_modification";
     factor_description := "Potential data modification";
     factor_impact := 4; factor_likelihood := 3 |}.

Definition user_interaction : RiskFactor :=
  {| factor_type := "user_interaction";
     factor_description := "Automated user interactions";
     factor_impact := 3; factor_likelihood := 4 |}.

Definition irreversible_action : RiskFactor :=
  {| factor_type := "irreversible_action";
     factor_description := "Action cannot be undone";
     factor_impact := 5; factor_likelihood := 5 |}.

(** [assessSpanRisk]: the [switch] on the type, the test on
    reversibility, the thresholds, the mitigations. *)
Definition assessSpanRisk (se : SpanEngine World Val Args) (spanId : string)
  : Outcome GovError RiskAssessment :=
  match getSpan _ _ _ se spanId with
  | None => Throw (GovSpanNotFound spanId)
  | Some span =>
      let '(factors1, totalScore1) :=
        match type _ _ span with
        | NAVIGATION => ([navigation_risk], 6)
        | WRITE => ([data_modification], 12)
        | GUI_AUTOMATION => ([user_interaction], 12)
        | _ => ([], 0)
        end in
      let '(factors2, totalScore) :=
        if negb (reversible _ _ span)
        then (factors1 ++ [irreversible_action], totalScore1 + 25)
        else (factors1, totalScore1) in
      let level :=
        if totalScore <=? 10 then LOW
        else if totalScore <=? 20 then MEDIUM
        else if totalScore <=? 35 then HIGH
        else CRITICAL in
      let mitigations1 :=
        match level with
        | HIGH | CRITICAL =>
            ["Require manual approval before execution";
             "Enable comprehensive audit logging"]
        | _ => []
        end in
      let mitigations2 :=
        if negb (reversible _ _ span)
        then mitigations1 ++ ["Create backup before execution"]
        else mitigations1 in
      Ok {| level := level; factors := factors2; score := totalScore;
            mitigations := mitigations2 |}
  end.

(** On a stored span the assessment is returned. *)
Lemma assessSpanRisk_stored (se : SpanEngine World Val Args) (spanId : string)
    (span : SpanContext Val Args) :
  getSpan _ _ _ se spanId = Some span ->
  exists r, assessSpanRisk se spanId = Ok r.
Proof.
  intros Hs. unfold assessSpanRisk. rewrite Hs.
  destruct (type _ _ span), (reversible _ _ span); simpl; eauto.
Qed.

(** The weights and thresholds as the specification words them. *)
Definition type_weight (t : SpanType) : Z :=
  match t with
  | WRITE => 12
  | GUI_AUTOMATION => 12
  | NAVIGATION => 6
  | READ | IO_OPERATION | COMPUTATION => 0
  end.

Definition irreversibility_weight (reversible : bool) : Z :=
  if reversible then 0 else 25.

Inductive level_for_score : Z -> RiskLevel -> Prop :=
| score_low s : s <= 10 -> level_for_score s LOW
| score_medium s : 10 < s -> s <= 20 -> level_for_score s MEDIUM
| score_high s : 20 < s -> s <= 35 -> level_for_score s HIGH
| score_critical s : 35 < s -> level_for_score s CRITICAL.

(** C5. On a stored span [assessSpanRisk] returns an assessment; the
    assessment is the same for any two stored spans with the same type and
    the same reversibility flag, whatever the engines they live in; its
    score is the weight of the type plus 25 for an irreversible span, its
    level follows the thresholds 10, 20 and 35; a [write] span that is not
    reversible scores 37 and is [critical]. *)
Theorem assessSpanRisk_spec (se : SpanEngine World Val Args) (spanId : string)
    (span : SpanContext Val Args) :
  getSpan _ _ _ se spanId = Some span ->
  exists r,
    assessSpanRisk se spanId = Ok r /\
    score r = type_weight (type _ _ span)
              + irreversibility_weight (reversible _ _ span) /\
    level_for_score (score r) (level r) /\
    (forall se' spanId' span',
       getSpan _ _ _ se' spanId' = Some span' ->
       type _ _ span' = type _ _ span ->
       reversible _ _ span' = reversible _ _ span ->
       assessSpanRisk se' spanId' = Ok r) /\
    (type _ _ span = WRITE -> reversible _ _ span = false ->
       score r = 37 /\ level r = CRITICAL).
Proof.
  intros Hs. unfold assessSpanRisk. rewrite Hs.
  destruct (type _ _ span) eqn:Ht, (reversible _ _ span) eqn:Hr; simpl;
    (eexists; split; [reflexivity|]; simpl; split; [reflexivity|];
     split; [constructor; lia|]; split;
     [ intros se' spanId' span' Hs' Ht' Hr'; rewrite Hs', Ht', Hr'; reflexivity
     | intros; try discriminate; split; reflexivity ]).
Qed.

End Risk.

(** *** The approval workflow *)

Definition getRequiredApprovers (riskLevel : RiskLevel) : list string :=
  match riskLevel with
  | LOW => []
  | MEDIUM => ["approver_1"]
  | HIGH => ["approver_1"; "approver_2"]
  | CRITICAL => ["approver_1"; "approver_2"; "security_admin"]
  end.

Definition pending_approver (user : string) : ApprovalStatus :=
  {| userId := user; approver_status := AP_PENDING;
     approver_timestamp := None; approver_comment := None |}.

(** The three assignments [approver.status = st], [approver.timestamp =
    Date.now()], [approver.comment = comment]. *)
Definition decide_approver (st : ApproverState) (now : Z) (comment : option string)
    (a : ApprovalStatus) : ApprovalStatus :=
  {| userId := userId a; approver_status := st;
     approver_timestamp := Some now; approver_comment := comment |}.

Definition is_user (user : string) (a : ApprovalStatus) : bool :=
  bool_decide (userId a = user).

(** Mutation of the element that [Array.prototype.find] returns: the first
    one that satisfies the predicate. *)
Fixpoint update_first {A} (p : A -> bool) (f : A -> A) (l : list A) : list A :=
  match l with
  | [] => []
  | x :: l' => if p x then f x :: l' else x :: update_first p f l'
  end.

Definition with_approvers (l : list ApprovalStatus) (st : ApprovalState)
    (a : GovernanceApproval) : GovernanceApproval :=
  {| approval_id := approval_id a; approval_spanId := approval_spanId a;
     requestedBy := requestedBy a; requestedAt := requestedAt a;
     approvers := l; approval_status := st;
     riskAssessment := riskAssessment a; expiresAt := expiresAt a |}.

Definition store_approval (g : SecurityGovernanceEngine) (approvalId : string)
    (a : GovernanceApproval) : SecurityGovernanceEngine :=
  {| policies := policies g; approvals := <[approvalId := a]> (approvals g);
     currentUser := currentUser g |}.

(** [approveSpan]. The branch taken when all have approved also looks the
    span up and writes to the console; neither changes any state. *)
Definition approveSpan (now : Z) (g : SecurityGovernanceEngine)
    (approvalId user : string) (comment : option string)
  : Outcome GovError unit * SecurityGovernanceEngine :=
  match approvals g !! approvalId with
  | None => (Throw (ApprovalNotFound approvalId), g)
  | Some approval =>
      if negb (bool_decide (approval_status approval = PENDING_APPROVAL))
      then (Throw (ApprovalNotPending approvalId), g)
      else
        match find (is_user user) (approvers approval) with
        | None => (Throw (NotAnApprover user), g)
        | Some _ =>
            let approvers' :=
              update_first (is_user user) (decide_approver AP_APPROVED now comment)
                (approvers approval) in
            let allApproved :=
              forallb (fun a => bool_decide (approver_status a = AP_APPROVED))
                approvers' in
            let status' :=
              if allApproved then APPROVED else approval_status approval in
            (Ok tt, store_approval g approvalId
                      (with_approvers approvers' status' approval))
        end
  end.

(** [rejectSpan]. *)
Definition rejectSpan (now : Z) (g : SecurityGovernanceEngine)
    (approvalId user : string) (comment : option string)
  : Outcome GovError unit * SecurityGovernanceEngine :=
  match approvals g !! approvalId with
  | None => (Throw (ApprovalNotFound approvalId), g)
  | Some approval =>
      match find (is_user user) (approvers approval) with
      | None => (Throw (NotAnApprover user), g)
      | Some _ =>
          let approvers' :=
            update_first (is_user user) (decide_approver AP_REJECTED now comment)
              (approvers approval) in
          (Ok tt, store_approval g approvalId
                    (with_approvers approvers' REJECTED approval))
      end
  end.

(** [requestApproval]. The call reads the clock three times: [idNow] is
    the reading that names the approval, [requestedNow] the one stored in
    [requestedAt], [expiresNow] the one from which [expiresAt] is counted. *)
Definition requestApproval {World Val Args : Type}
    (idNow requestedNow expiresNow : Z)
    (se : SpanEngine World Val Args) (g : SecurityGovernanceEngine)
    (spanId : string) : Outcome GovError string * SecurityGovernanceEngine :=
  match currentUser g with
  | None => (Throw NoAuthenticatedUser, g)
  | Some user =>
      match assessSpanRisk World Val Args se spanId with
      | Throw e => (Throw e, g)
      | Ok risk =>
          let approvalId := "approval_" +:+ pretty idNow in
          let requiredApprovers := getRequiredApprovers (level risk) in
          let approval :=
            {| approval_id := approvalId; approval_spanId := spanId;
               requestedBy := identity_id user; requestedAt := requestedNow;
               approvers := map pending_approver requiredApprovers;
               approval_status := PENDING_APPROVAL;
               riskAssessment := risk;
               expiresAt := expiresNow + 24 * 60 * 60 * 1000 |} in
          (Ok approvalId, store_approval g approvalId approval)
      end
  end.

(** A caller's decisions on one approval, in the order they are made. *)
Inductive Verdict : Type :=
| Approve (user : string) (comment : option string)
| Reject (user : string) (comment : option string).

Definition decide_once (now : Z) (approvalId : string)
    (g : SecurityGovernanceEngine) (d : Verdict) : SecurityGovernanceEngine :=
  match d with
  | Approve user comment => snd (approveSpan now g approvalId user comment)
  | Reject user comment => snd (rejectSpan now g approvalId user comment)
  end.

Definition decide_all (now : Z) (approvalId : string)
    (g : SecurityGovernanceEngine) (ds : list Verdict) : SecurityGovernanceEngine :=
  fold_left (decide_once now approvalId) ds g.

Definition listed (user : string) (a : GovernanceApproval) : Prop :=
  In user (map userId (approvers a)).

Definition status_at (g : SecurityGovernanceEngine) (approvalId : string)
  : option ApprovalState :=
  approval_status <$> (approvals g !! approvalId).

Definition approvers_at (g : SecurityGovernanceEngine) (approvalId : string)
  : option (list string) :=
  (fun a => map userId (approvers a)) <$> (approvals g !! approvalId).

Lemma find_is_user (user : string) (l : list ApprovalStatus) :
  In user (map userId l) -> exists a, find (is_user user) l = Some a.
Proof.
  induction l as [|x l IH]; simpl; [tauto|].
  intros [H|H].
  - unfold is_user at 1. rewrite bool_decide_eq_true_2 by assumption. eauto.
  - destruct (is_user user x); eauto.
Qed.

Lemma update_first_users (user : string) (st : ApproverState) (now : Z)
    (comment : option string) (l : list ApprovalStatus) :
  map userId (update_first (is_user user) (decide_approver st now comment) l)
  = map userId l.
Proof.
  induction l as [|x l IH]; simpl; [reflexivity|].
  destruct (is_user user x); simpl; [reflexivity|]. now rewrite IH.
Qed.


(** An approval that is not pending refuses [approveSpan] and is left as
    it was. *)
Lemma approveSpan_not_pending (now : Z) (g : SecurityGovernanceEngine)
    (approvalId user : string) (comment : option string)
    (a : GovernanceApproval) :
  approvals g !! approvalId = Some a ->
  approval_status a <> PENDING_APPROVAL ->
  approveSpan now g approvalId user comment
  = (Throw (ApprovalNotPending approvalId), g).
Proof.
  intros Ha Hst. unfold approveSpan. rewrite Ha.
  rewrite bool_decide_eq_false_2 by assumption. reflexivity.
Qed.








(** *** The engine as its constructor leaves it, and a critical span *)

Definition defaultPolicies (now : Z) : list SecurityPolicy :=
  [ {| policy_id := "high-risk-approval";
       policy_name := "High Risk Operations Require Approval";
       policy_description :=
         "Operations with high risk level must be approved before execution";
       rules :=
         [ {| rule_id := "rule-1"; rule_type := REQUIRE_APPROVAL;
              rule_condition :=
                {| cond_spanType := None; cond_targetDomains := None;
                   cond_riskLevel := Some [HIGH; CRITICAL];
                   cond_userRoles := None; cond_timeRestrictions := None |};
              rule_action := "require_governance_approval";
              rule_priority := 1 |} ];
       enabled := true; policy_created := now; policy_lastModified := now |};
    {| policy_id := "domain-restrictions";
       policy_name := "Domain Access Restrictions";
       policy_description := "Restrict access to sensitive domains";
       rules :=
         [ {| rule_id := "rule-2"; rule_type := DENY;
              rule_condition :=
                {| cond_spanType := None;
                   cond_targetDomains :=
                     Some ["admin.internal"; "secure.company.com"; "*.gov"];
                   cond_riskLevel := None;
                   cond_userRoles := None; cond_timeRestrictions := None |};
              rule_action := "block_access";
              rule_priority := 2 |} ];
       enabled := true; policy_created := now; policy_lastModified := now |};
    {| policy_id := "business-hours";
       policy_name := "Business Hours Only";
       policy_description := "Restrict automation to business hours";
       rules :=
         [ {| rule_id := "rule-3"; rule_type := DENY;
              rule_condition :=
                {| cond_spanType := None; cond_targetDomains := None;
                   cond_riskLevel := None; cond_userRoles := None;
                   cond_timeRestrictions :=
                     Some {| allowedHours := Some (9, 17);
                             allowedDays := Some [1; 2; 3; 4; 5] |} |};
              rule_action := "time_restriction";
              rule_priority := 3 |} ];
       enabled := false; policy_created := now; policy_lastModified := now |} ].

Definition defaultUser : LogLineIdentity :=
  {| identity_id := "user_default"; username := "demo-user";
     email := "demo@loglinebrowser.com";
     roles := ["operator"; "viewer"];
     permissions := ["span:create"; "span:read"; "span:simulate";
                     "browser:navigate"; "browser:read"] |}.

(** The state after [new SecurityGovernanceEngine()]. *)
Definition new_engine (now : Z) : SecurityGovernanceEngine :=
  {| policies := map (fun p => (policy_id p, p)) (defaultPolicies now);
     approvals := ∅;
     currentUser := Some defaultUser |}.

(** A [write] span without rollback, and the approval requested for it
    when the clock reads 1000, 1001 and 1002: three approvers, all
    pending. *)
Definition critical_request : SecurityGovernanceEngine :=
  snd (requestApproval 1000 1001 1002 (snd (create1 plain_op)) (new_engine 0)
         "span_1").

(** A [read] span with a rollback procedure, and the approval requested for
    it at the same readings: low risk, nobody is asked. *)
Definition read_span_engine : SpanEngine Z string unit :=
  snd (snd (createSpan Z string unit clock_now one_id READ undoable_op None
              (0, empty_engine))).

Definition low_risk_request : SecurityGovernanceEngine :=
  snd (requestApproval 1000 1001 1002 read_span_engine (new_engine 0) "span_1").

Definition stored_write_span : SpanContext string unit :=
  {| id := "span_1"; parentId := None; type := WRITE; status := PENDING;
     startTime := 0; endTime := None; metadata := ∅; reversible := false;
     args := None |}.

Lemma assessSpanRisk_spec_witness :
  getSpan Z string unit (snd (create1 plain_op)) "span_1" = Some stored_write_span /\
  exists r,
    assessSpanRisk Z string unit (snd (create1 plain_op)) "span_1" = Ok r /\
    score r = 37 /\ level r = CRITICAL.
Proof.
  assert (Hs : getSpan Z string unit (snd (create1 plain_op)) "span_1"
               = Some stored_write_span) by (vm_compute; reflexivity).
  split; [exact Hs|].
  destruct (assessSpanRisk_spec Z string unit _ _ _ Hs)
    as (r & Hr & _ & _ & _ & Hw).
  exists r. split; [exact Hr|]. apply Hw; reflexivity.
Defined.

Lemma critical_request_approvers :
  approvers_at critical_request "approval_1000"
    = Some ["approver_1"; "approver_2"; "security_admin"] /\
  status_at critical_request "approval_1000" = Some PENDING_APPROVAL.
Proof. vm_compute. split; reflexivity. Qed.



(** C7 at a concrete approval. After all three approvers have approved,
    the approval is [approved]; [rejectSpan] by one of them is not refused:
    it returns, and the approval and that approver become [rejected].
    [approveSpan] on the same approval is refused and changes nothing. *)
Theorem rejectSpan_on_approved_approval :
  let g := decide_all 2000 "approval_1000" critical_request
             [Approve "approver_1" None; Approve "approver_2" None;
              Approve "security_admin" None] in
  status_at g "approval_1000" = Some APPROVED /\
  approveSpan 3000 g "approval_1000" "approver_1" None
    = (Throw (ApprovalNotPending "approval_1000"), g) /\
  fst (rejectSpan 3000 g "approval_1000" "approver_1" None) = Ok tt /\
  status_at (snd (rejectSpan 3000 g "approval_1000" "approver_1" None))
    "approval_1000" = Some REJECTED /\
  (map approver_status <$>
     (approvers <$>
        approvals (snd (rejectSpan 3000 g "approval_1000" "approver_1" None))
          !! "approval_1000"))
    = Some [AP_REJECTED; AP_APPROVED; AP_APPROVED].
Proof. vm_compute. repeat split. Qed.

End Gov.

(** ** The timeline store (timeline-observability) *)

Module Obs.

Inductive Severity : Type := INFO | WARNING | ERROR | CRITICAL_SEVERITY.

#[export] Instance Severity_eq_dec : EqDecision Severity.
Proof. solve_decision. Defined.

(** [EventType] is an enum of strings declared outside the sources; an
    event type is its string. The free-form [metadata] of an event and the
    [tags] of a metric, which no query reads, are left out of the records. *)
Definition EventType : Type := string.

Record TimelineEvent : Type := {
  id : string;
  timestamp : Z;
  type : EventType;
  source : string;
  spanId : option string;
  userId : option string;
  severity : Severity;
  message : string;
  tags : list string
}.

Record PerformanceMetric : Type := {
  metric_id : string;
  metric_timestamp : Z;
  metric : string;
  value : Q;
  unit_ : string;
  metric_source : string
}.

(** The fields of [TimelineQuery] that [queryEvents] reads; every one is
    optional. *)
Record TimelineQuery : Type := {
  startTime : option Z;
  endTime : option Z;
  eventTypes : option (list EventType);
  sources : option (list string);
  severities : option (list Severity);
  spanIds : option (list string);
  userIds : option (list string);
  query_tags : option (list string);
  offset : option Z;
  limit : option Z
}.

(** Modelled from the spec: the declaration of [MetricsQuery] is not in the
    sources. It has the four fields [queryMetrics] reads and, since the
    specification gives [queryMetrics] offset/limit pagination, the two
    pagination fields of [TimelineQuery]. *)
Record MetricsQuery : Type := {
  mq_startTime : option Z;
  mq_endTime : option Z;
  mq_metrics : option (list string);
  mq_sources : option (list string);
  mq_offset : option Z;
  mq_limit : option Z
}.

Definition empty_query : TimelineQuery :=
  {| startTime := None; endTime := None; eventTypes := None; sources := None;
     severities := None; spanIds := None; userIds := None; query_tags := None;
     offset := None; limit := None |}.

(** *** JavaScript idioms *)

(** [if (x)] on an optional number: defined and not zero. *)
Definition truthy_num (x : option Z) : option Z :=
  match x with
  | Some v => if v =? 0 then None else Some v
  | None => None
  end.

(** [x || d] on an optional number. *)
Definition num_or (x : option Z) (d : Z) : Z :=
  match truthy_num x with Some v => v | None => d end.

(** [l && l.length > 0] on an optional array. *)
Definition nonempty {A} (l : option (list A)) : option (list A) :=
  match l with
  | Some (x :: l') => Some (x :: l')
  | _ => None
  end.

(** [if (c) xs = xs.filter(p)]: the filter applies only when the
    condition yields its argument. *)
Definition filter_when {A B} (c : option B) (p : B -> A -> bool) (xs : list A)
  : list A :=
  match c with
  | Some b => List.filter (p b) xs
  | None => xs
  end.

Definition includes `{EqDecision A} (l : list A) (x : A) : bool :=
  existsb (fun y => bool_decide (y = x)) l.

(** [s && l.includes(s)] on an optional string: defined, not empty, and
    in the list. *)
Definition truthy_includes (l : list string) (s : option string) : bool :=
  match s with
  | Some x => negb (bool_decide (x = "")) && includes l x
  | None => false
  end.

(** [Array.prototype.slice(start, end)] on integral arguments. *)
Definition relative_index (n i : Z) : Z :=
  if i <? 0 then Z.max (n + i) 0 else Z.min i n.

Definition slice {A} (l : list A) (start end_ : Z) : list A :=
  let n := Z.of_nat (length l) in
  let k := relative_index n start in
  let final := relative_index n end_ in
  take (Z.to_nat (final - k)) (drop (Z.to_nat k) l).

(** [Array.prototype.sort(cmp)] is stable; with a comparator that is a
    difference of keys it is the stable insertion sort. *)
Fixpoint insert_sorted {A} (cmp : A -> A -> Z) (x : A) (l : list A) : list A :=
  match l with
  | [] => [x]
  | y :: l' => if cmp x y <=? 0 then x :: l else y :: insert_sorted cmp x l'
  end.

Fixpoint sort {A} (cmp : A -> A -> Z) (l : list A) : list A :=
  match l with
  | [] => []
  | x :: l' => insert_sorted cmp x (sort cmp l')
  end.

(** *** The store *)

Section Store.

(** The registered listeners, run for an event of a given type. A
    listener may record metrics and raise alerts, so it acts on the whole
    store; what it throws is caught and logged. *)
Record Store : Type := {
  events : list TimelineEvent;
  metrics : list PerformanceMetric
}.

Variable run_listeners : EventType -> TimelineEvent -> Store -> Store.

Record LogOptions : Type := {
  opt_spanId : option string;
  opt_userId : option string;
  opt_severity : option Severity;
  opt_tags : option (list string)
}.

Definition with_events (l : list TimelineEvent) (st : Store) : Store :=
  {| events := l; metrics := metrics st |}.

(** [logEvent]; [eventId] is the identifier drawn from the clock and the
    random generator, [now] the reading of the clock. *)
Definition logEvent (eventId : string) (now : Z) (ty : EventType)
    (src msg : string) (options : LogOptions) (st : Store) : string * Store :=
  let event :=
    {| id := eventId; timestamp := now; type := ty; source := src;
       spanId := opt_spanId options; userId := opt_userId options;
       severity := default INFO (opt_severity options);
       message := msg;
       tags := default [] (opt_tags options) |} in
  let st1 := with_events (events st ++ [event]) st in
  let st2 := run_listeners ty event st1 in
  let st3 :=
    if Z.of_nat (length (events st2)) >? 1000
    then with_events (slice (events st2) (-1000) (Z.of_nat (length (events st2)))) st2
    else st2 in
  (eventId, st3).

Definition newest_first (a b : TimelineEvent) : Z := timestamp b - timestamp a.

(** The filters of [queryEvents], in the order of the source. *)
Definition filterEvents (st : Store) (query : TimelineQuery) : list TimelineEvent :=
  let fe := events st in
  let fe := filter_when (truthy_num (startTime query))
              (fun t e => timestamp e >=? t) fe in
  let fe := filter_when (truthy_num (endTime query))
              (fun t e => timestamp e <=? t) fe in
  let fe := filter_when (nonempty (eventTypes query))
              (fun l e => includes l (type e)) fe in
  let fe := filter_when (nonempty (sources query))
              (fun l e => includes l (source e)) fe in
  let fe := filter_when (nonempty (severities query))
              (fun l e => includes l (severity e)) fe in
  let fe := filter_when (nonempty (spanIds query))
              (fun l e => truthy_includes l (spanId e)) fe in
  let fe := filter_when (nonempty (userIds query))
              (fun l e => truthy_includes l (userId e)) fe in
  let fe := filter_when (nonempty (query_tags query))
              (fun l e => existsb (fun tag => includes (tags e) tag) l) fe in
  fe.

Definition queryEvents (st : Store) (query : TimelineQuery) : list TimelineEvent :=
  let filteredEvents := sort newest_first (filterEvents st query) in
  let offset := num_or (offset query) 0 in
  let limit := num_or (limit query) 100 in
  slice filteredEvents offset (offset + limit).

Definition newest_metric_first (a b : PerformanceMetric) : Z :=
  metric_timestamp b - metric_timestamp a.

Definition filterMetrics (st : Store) (query : MetricsQuery)
  : list PerformanceMetric :=
  let fm := metrics st in
  let fm := filter_when (truthy_num (mq_startTime query))
              (fun t m => metric_timestamp m >=? t) fm in
  let fm := filter_when (truthy_num (mq_endTime query))
              (fun t m => metric_timestamp m <=? t) fm in
  let fm := filter_when (nonempty (mq_metrics query))
              (fun l m => includes l (metric m)) fm in
  let fm := filter_when (nonempty (mq_sources query))
              (fun l m => includes l (metric_source m)) fm in
  fm.

Definition queryMetrics (st : Store) (query : MetricsQuery)
  : list PerformanceMetric :=
  sort newest_metric_first (filterMetrics st query).

(** Offset/limit pagination as [queryEvents] applies it. *)
Definition paginate {A} (l : list A) (offset limit : option Z) : list A :=
  slice l (num_or offset 0) (num_or offset 0 + num_or limit 100).

End Store.

(** *** Sorting *)

Section Sorting.

Context {A : Type} (key : A -> Z).

Let by_key_desc (a b : A) : Z := key b - key a.

Definition newest_before (a b : A) : Prop := key a >= key b.

Lemma insert_sorted_perm (x : A) (l : list A) :
  Permutation (insert_sorted by_key_desc x l) (x :: l).
Proof.
  induction l as [|y l IH]; simpl; [reflexivity|].
  destruct (by_key_desc x y <=? 0); [reflexivity|].
  rewrite IH. apply perm_swap.
Qed.

Lemma sort_perm (l : list A) : Permutation (sort by_key_desc l) l.
Proof.
  induction l as [|x l IH]; simpl; [reflexivity|].
  rewrite insert_sorted_perm. now rewrite IH.
Qed.

Lemma insert_sorted_sorted (x : A) (l : list A) :
  StronglySorted newest_before l ->
  StronglySorted newest_before (insert_sorted by_key_desc x l).
Proof.
  induction 1 as [|y l Hl IH Hy]; simpl.
  - repeat constructor.
  - destruct (by_key_desc x y <=? 0) eqn:Hc.
    + apply Z.leb_le in Hc. unfold by_key_desc in Hc.
      constructor; [constructor; assumption|].
      constructor; [unfold newest_before; lia|].
      eapply List.Forall_impl; [|exact Hy].
      unfold newest_before. intros; lia.
    + apply Z.leb_gt in Hc. unfold by_key_desc in Hc.
      constructor; [assumption|].
      assert (Hall : List.Forall (newest_before y) (x :: l)).
      { constructor; [unfold newest_before; lia|assumption]. }
      eapply Permutation_Forall; [|exact Hall].
      symmetry. apply insert_sorted_perm.
Qed.

Lemma sort_sorted (l : list A) : StronglySorted newest_before (sort by_key_desc l).
Proof.
  induction l as [|x l IH]; simpl; [constructor|].
  now apply insert_sorted_sorted.
Qed.

End Sorting.

Lemma slice_length_le {A} (l : list A) (start n : Z) :
  0 <= n -> Z.of_nat (length (slice l start (start + n))) <= n.
Proof.
  intros Hn. unfold slice, relative_index.
  rewrite length_take.
  destruct (start <? 0) eqn:Hs, (start + n <? 0) eqn:He; lia.
Qed.

Lemma slice_sublist {A} (l : list A) (start end_ : Z) :
  sublist (slice l start end_) l.
Proof.
  unfold slice. etransitivity; [apply sublist_take|apply sublist_drop].
Qed.

Lemma StronglySorted_sublist {A} (R : A -> A -> Prop) (l1 l2 : list A) :
  sublist l1 l2 -> StronglySorted R l2 -> StronglySorted R l1.
Proof.
  induction 1 as [|x l1 l2 Hs IH|x l1 l2 Hs IH]; intros H.
  - constructor.
  - inversion H as [|? ? Hl Hx]; subst. constructor; [auto|].
    rewrite List.Forall_forall in *. intros y Hy. apply Hx.
    apply list_elem_of_In. eapply elem_of_sublist; [|exact Hs].
    now apply list_elem_of_In.
  - inversion H; subst. auto.
Qed.

Lemma filter_when_incl {A B} (c : option B) (p : B -> A -> bool) (xs : list A) :
  incl (filter_when c p xs) xs.
Proof.
  destruct c; simpl; [apply List.incl_filter|apply incl_refl].
Qed.

Lemma filterEvents_incl (st : Store) (q : TimelineQuery) :
  incl (filterEvents st q) (events st).
Proof.
  unfold filterEvents.
  repeat (eapply incl_tran; [apply filter_when_incl|]). apply incl_refl.
Qed.

Lemma filterMetrics_incl (st : Store) (q : MetricsQuery) :
  incl (filterMetrics st q) (metrics st).
Proof.
  unfold filterMetrics.
  repeat (eapply incl_tran; [apply filter_when_incl|]). apply incl_refl.
Qed.

(** *** Concrete stores *)

Definition event_at (t : Z) : TimelineEvent :=
  {| id := "event_" +:+ pretty t; timestamp := t; type := "span_created";
     source := "span_engine"; spanId := None; userId := None;
     severity := INFO; message := "Span created"; tags := [] |}.

Definition metric_at (t : Z) : PerformanceMetric :=
  {| metric_id := "metric_" +:+ pretty t; metric_timestamp := t;
     metric := "cpu_usage"; value := 50 # 1; unit_ := "percent";
     metric_source := "system" |}.

(** A store that holds 101 events, logged at times 0 to 100. *)
Definition store_101 : Store :=
  {| events := map (fun n => event_at (Z.of_nat n)) (seq 0 101); metrics := [] |}.

(** A store that holds two metrics, and a query that asks for one. *)
Definition store_2_metrics : Store :=
  {| events := []; metrics := [metric_at 1; metric_at 2] |}.

Definition first_metric_only : MetricsQuery :=
  {| mq_startTime := None; mq_endTime := None; mq_metrics := None;
     mq_sources := None; mq_offset := None; mq_limit := Some 1 |}.

(** C9, as stated, at a concrete store: asked for one metric out of two,
    [queryMetrics] returns both, where pagination of the same filtered and
    sorted result keeps only the newest. *)
Lemma queryMetrics_not_paginated :
  queryMetrics store_2_metrics first_metric_only = [metric_at 2; metric_at 1] /\
  paginate (sort newest_metric_first (filterMetrics store_2_metrics first_metric_only))
    (mq_offset first_metric_only) (mq_limit first_metric_only)
  = [metric_at 2].
Proof. vm_compute. split; reflexivity. Qed.

(** C9, amended. Both queries return their result newest first. The result
    of [queryEvents] is the page [offset, offset + limit) of the filtered
    events in that order, with defaults 0 and 100. The result of
    [queryMetrics] is the whole of the filtered metrics in that order: it
    is not paginated. Every returned record is a record of the store. *)
Theorem queries_newest_first (st : Store) (q : TimelineQuery) (qm : MetricsQuery) :
  StronglySorted (newest_before timestamp) (queryEvents st q) /\
  StronglySorted (newest_before metric_timestamp) (queryMetrics st qm) /\
  queryEvents st q
    = paginate (sort newest_first (filterEvents st q)) (offset q) (limit q) /\
  Permutation (sort newest_first (filterEvents st q)) (filterEvents st q) /\
  Permutation (queryMetrics st qm) (filterMetrics st qm) /\
  incl (queryEvents st q) (events st) /\
  incl (queryMetrics st qm) (metrics st).
Proof.
  assert (Hpe := sort_perm timestamp (filterEvents st q)).
  assert (Hpm := sort_perm metric_timestamp (filterMetrics st qm)).
  repeat split.
  - unfold queryEvents. eapply StronglySorted_sublist; [apply slice_sublist|].
    apply (sort_sorted timestamp).
  - apply (sort_sorted metric_timestamp).
  - exact Hpe.
  - exact Hpm.
  - intros e He. apply filterEvents_incl with (q := q).
    eapply Permutation_in; [exact Hpe|].
    apply list_elem_of_In. eapply elem_of_sublist; [|apply slice_sublist].
    apply list_elem_of_In. exact He.
  - intros m Hm. apply filterMetrics_incl with (q := qm).
    eapply Permutation_in; [exact Hpm|exact Hm].
Qed.

(** C10. A query without a limit returns the page of 100 events that
    starts at the offset (at 0 without an offset), so never more than 100
    events, while [logEvent] lets the store grow to 1000 events before it
    drops the oldest. *)
Theorem queryEvents_default_limit (st : Store) (q : TimelineQuery) :
  limit q = None ->
  queryEvents st q
    = slice (sort newest_first (filterEvents st q))
        (num_or (offset q) 0) (num_or (offset q) 0 + 100) /\
  (offset q = None ->
   queryEvents st q = take 100 (sort newest_first (filterEvents st q))) /\
  (length (queryEvents st q) <= 100)%nat /\
  (forall run_listeners eventId now ty src msg options,
     (length (events (snd (logEvent run_listeners eventId now ty src msg options st)))
      <= 1000)%nat /\
     (run_listeners ty = (fun _ s => s) -> (length (events st) < 1000)%nat ->
      length (events (snd (logEvent run_listeners eventId now ty src msg options st)))
      = S (length (events st)))).
Proof.
  intros Hl.
  assert (Heq : queryEvents st q
    = slice (sort newest_first (filterEvents st q))
        (num_or (offset q) 0) (num_or (offset q) 0 + 100)).
  { unfold queryEvents. rewrite Hl. reflexivity. }
  split; [exact Heq|]. split; [|split].
  - intros Ho. rewrite Heq, Ho. unfold slice, relative_index, num_or; simpl.
    set (l := sort newest_first (filterEvents st q)).
    rewrite (Z.min_l 0) by lia. simpl. rewrite drop_0.
    destruct (decide (Z.of_nat (length l) <= 100)) as [Hn|Hn].
    + rewrite Z.min_r, Z.sub_0_r, Nat2Z.id by lia.
      rewrite !take_ge by lia. reflexivity.
    + rewrite Z.min_l by lia. reflexivity.
  - rewrite Heq.
    pose proof (slice_length_le (sort newest_first (filterEvents st q))
                  (num_or (offset q) 0) 100). lia.
  - intros run_listeners eventId now ty src msg options. unfold logEvent; simpl.
    split.
    + set (st2 := run_listeners ty _ _).
      destruct (Z.of_nat (length (events st2)) >? 1000) eqn:Hc; simpl.
      * unfold slice, relative_index. rewrite length_take, length_drop.
        simpl. lia.
      * lia.
    + intros -> Hlt. simpl. rewrite length_app. simpl.
      destruct (Z.gtb_spec (Z.of_nat (length (events st) + 1)) 1000); simpl.
      * lia.
      * rewrite length_app. simpl. lia.
Qed.

Lemma queryEvents_default_limit_witness :
  limit empty_query = None /\
  length (events store_101) = 101%nat /\
  length (queryEvents store_101 empty_query) = 100%nat /\
  (length (queryEvents store_101 empty_query) <= 100)%nat.
Proof.
  split; [reflexivity|]. split; [reflexivity|].
  split; [vm_compute; reflexivity|].
  destruct (queryEvents_default_limit store_101 empty_query eq_refl)
    as (_ & _ & Hle & _).
  exact Hle.
Defined.

End Obs.

(** ** The PII detector (security-governance, class [PIIDetector]) *)

Module PII.

Local Open Scope N_scope.

(** A JavaScript string is a sequence of UTF-16 code units. *)
Definition char : Type := N.
Definition text : Type := list char.

(** The code units of an ASCII literal. *)
Definition js (s : string) : text :=
  map Ascii.N_of_ascii (String.list_ascii_of_string s).

(** *** Character classes: unions of inclusive ranges of code units *)

Definition cls : Type := list (N * N).

Definition in_cls (c : cls) (x : char) : bool :=
  existsb (fun r => (fst r <=? x) && (x <=? snd r)) c.

Definition chr (s : string) : N :=
  match s with
  | String a _ => Ascii.N_of_ascii a
  | EmptyString => 0
  end.

Definition range (a b : string) : N * N := (chr a, chr b).
Definition one (a : string) : N * N := (chr a, chr a).

(** [\d], [\w] and [\s] as ECMAScript defines them without the [u] and
    [i] flags. *)
Definition digit : cls := [range "0" "9"].
Definition word_char : cls := [range "a" "z"; range "A" "Z"; range "0" "9"; one "_"].
Definition white_space : cls :=
  [(9, 13); (32, 32); (160, 160); (5760, 5760); (8192, 8202); (8232, 8233);
   (8239, 8239); (8287, 8287); (12288, 12288); (65279, 65279)].

Definition is_word (x : char) : bool := in_cls word_char x.

(** *** Regular expressions, as far as the eight patterns need them *)

Inductive regex : Type :=
| Eps
| Bnd                                           (* \b *)
| Rep (c : cls) (lo : nat) (hi : option nat)    (* c{lo,hi}, greedy *)
| Seq (r1 r2 : regex).

Definition Cls (c : cls) : regex := Rep c 1 (Some 1%nat).
Definition Chr (a : string) : regex := Cls [one a].
Definition Opt (c : cls) : regex := Rep c 0 (Some 1%nat).
Definition Plus (c : cls) : regex := Rep c 1 None.
Definition Exactly (n : nat) (c : cls) : regex := Rep c n (Some n).
Definition Between (lo hi : nat) (c : cls) : regex := Rep c lo (Some hi).
Definition AtLeast (n : nat) (c : cls) : regex := Rep c n None.

(** [(?:r){n}]: [n] copies of [r] in sequence. *)
Fixpoint Times (n : nat) (r : regex) : regex :=
  match n with
  | O => Eps
  | S n' => Seq r (Times n' r)
  end.

Fixpoint Seqs (rs : list regex) : regex :=
  match rs with
  | [] => Eps
  | [r] => r
  | r :: rs' => Seq r (Seqs rs')
  end.

(** *** The backtracking matcher

    The matcher walks the text from a position. [wl] tells whether the
    code unit before the position is a word character (false at the start
    of the text); the text from the position on is [s]. A continuation
    receives the context and the text that remain; the first alternative
    that lets the continuation succeed wins, as in ECMAScript: a greedy
    quantifier first tries one more repetition, then the continuation. *)

Definition hdw (s : text) : bool :=
  match s with
  | [] => false
  | x :: _ => is_word x
  end.

Definition more (hi : option nat) : bool :=
  match hi with
  | Some O => false
  | _ => true
  end.

Definition less (hi : option nat) : option nat :=
  match hi with
  | Some h => Some (pred h)
  | None => None
  end.

Fixpoint rep {R} (c : cls) (lo : nat) (hi : option nat) (wl : bool) (s : text)
    (k : bool -> text -> option R) : option R :=
  let stop := match lo with O => k wl s | S _ => None end in
  match s with
  | [] => stop
  | x :: s' =>
      if in_cls c x && more hi
      then match rep c (pred lo) (less hi) (is_word x) s' k with
           | Some r => Some r
           | None => stop
           end
      else stop
  end.

Fixpoint exec {R} (r : regex) (wl : bool) (s : text)
    (k : bool -> text -> option R) : option R :=
  match r with
  | Eps => k wl s
  | Bnd => if xorb wl (hdw s) then k wl s else None
  | Rep c lo hi => rep c lo hi wl s k
  | Seq r1 r2 => exec r1 wl s (fun wl' s' => exec r2 wl' s' k)
  end.

(** The length of the match of [r] that starts at the position, if any. *)
Definition regexExec (r : regex) (wl : bool) (s : text) : option nat :=
  exec r wl s (fun _ rest => Some (length s - length rest)%nat).

(** *** Global matching and replacement

    [String.prototype.match] and [String.prototype.replace] with a [g]
    pattern reset [lastIndex] and collect the matches from left to right:
    after a match the search resumes at its end, or one code unit further
    when the match was empty. [scan] cuts the text into the code units
    that are kept and the matches. [skip] counts the code units of the
    current match that are still to be passed. *)

Inductive piece : Type :=
| Kept (c : char)
| Hit (m : text).

Fixpoint scan (r : regex) (wl : bool) (s : text) (skip : nat) : list piece :=
  match s with
  | [] =>
      match skip, regexExec r wl [] with
      | O, Some _ => [Hit []]
      | _, _ => []
      end
  | c :: s' =>
      match skip with
      | S n => scan r (is_word c) s' n
      | O =>
          match regexExec r wl s with
          | Some O => Hit [] :: Kept c :: scan r (is_word c) s' 0
          | Some (S n) => Hit (take (S n) s) :: scan r (is_word c) s' n
          | None => Kept c :: scan r (is_word c) s' 0
          end
      end
  end.

Definition is_hit (p : piece) : bool :=
  match p with Hit _ => true | Kept _ => false end.

(** [content.match(pattern)]: the matches, [None] for [null]. *)
Definition matchAll (r : regex) (content : text) : option (list text) :=
  match List.filter is_hit (scan r false content 0) with
  | [] => None
  | hits => Some (flat_map (fun p => match p with Hit m => [m] | Kept _ => [] end) hits)
  end.

Definition render (mask : text) (p : piece) : text :=
  match p with
  | Kept c => [c]
  | Hit _ => mask
  end.

(** [content.replace(pattern, mask)]; no mask contains a [$]. *)
Definition replace (r : regex) (mask : text) (content : text) : text :=
  flat_map (render mask) (scan r false content 0).

(** *** The eight patterns *)

Definition upper : cls := [range "A" "Z"].
Definition email_local : cls :=
  [range "A" "Z"; range "a" "z"; range "0" "9";
   one "."; one "_"; one "%"; one "+"; one "-"].
Definition email_domain : cls :=
  [range "A" "Z"; range "a" "z"; range "0" "9"; one "."; one "-"].
Definition email_tld : cls := [range "A" "Z"; one "|"; range "a" "z"].
Definition dash_dot : cls := [one "-"; one "."].
Definition space_dash : cls := white_space ++ [one "-"].

Definition email : regex :=
  Seqs [Bnd; Plus email_local; Chr "@"; Plus email_domain; Chr ".";
        AtLeast 2 email_tld; Bnd].
Definition ssn : regex :=
  Seqs [Bnd; Exactly 3 digit; Chr "-"; Exactly 2 digit; Chr "-";
        Exactly 4 digit; Bnd].
Definition phone : regex :=
  Seqs [Bnd; Exactly 3 digit; Opt dash_dot; Exactly 3 digit; Opt dash_dot;
        Exactly 4 digit; Bnd].
Definition creditCard : regex :=
  Seqs [Bnd; Exactly 4 digit; Opt space_dash; Exactly 4 digit; Opt space_dash;
        Exactly 4 digit; Opt space_dash; Exactly 4 digit; Bnd].
Definition ipAddress : regex :=
  Seqs [Bnd; Times 3 (Seq (Between 1 3 digit) (Chr ".")); Between 1 3 digit; Bnd].
Definition passport : regex :=
  Seqs [Bnd; Between 1 2 upper; Between 6 9 digit; Bnd].
Definition driverLicense : regex :=
  Seqs [Bnd; Between 1 2 upper; Between 6 8 digit; Bnd].
Definition bankAccount : regex :=
  Seqs [Bnd; Between 8 17 digit; Bnd].

(** The patterns in the order of the object literal, which is the order
    [Object.entries] visits them in. *)
Definition PII_PATTERNS : list (string * regex) :=
  [("email", email); ("ssn", ssn); ("phone", phone);
   ("creditCard", creditCard); ("ipAddress", ipAddress);
   ("passport", passport); ("driverLicense", driverLicense);
   ("bankAccount", bankAccount)].

(** The [switch] on the type that chooses the mask. *)
Definition mask_of (type : string) : text :=
  if String.eqb type "email" then js "***@***.***"
  else if String.eqb type "ssn" then js "***-**-****"
  else if String.eqb type "phone" then js "***-***-****"
  else if String.eqb type "creditCard" then js "****-****-****-****"
  else if String.eqb type "ipAddress" then js "***.***.***.***"
  else js "***REDACTED***".

Record PIIDetectionResult : Type := {
  hasPII : bool;
  piiTypes : list string;
  confidence : Q;
  maskedContent : text;
  originalContent : text
}.

(** The state of the loop of [detectPII]. Numbers are rationals here; the
    source adds doubles. *)
Record Detection : Type := {
  detectedTypes : list string;
  masked : text;
  conf : Q
}.

Definition detect_step (content : text) (d : Detection) (entry : string * regex)
  : Detection :=
  let '(type, pattern) := entry in
  match matchAll pattern content with
  | Some (m :: ms) =>
      {| detectedTypes := detectedTypes d ++ [type];
         masked := replace pattern (mask_of type) (masked d);
         conf := (conf d + inject_Z (Z.of_nat (length (m :: ms))) * (1 # 10))%Q |}
  | _ => d
  end.

Definition detect_loop (content : text) (patterns : list (string * regex))
    (d : Detection) : Detection :=
  fold_left (detect_step content) patterns d.

Definition detectPII (content : text) : PIIDetectionResult :=
  let d := detect_loop content PII_PATTERNS
             {| detectedTypes := []; masked := content; conf := 0 |} in
  {| hasPII := (0 <? length (detectedTypes d))%nat;
     piiTypes := detectedTypes d;
     confidence := Qmin (conf d) 1;
     maskedContent := masked d;
     originalContent := content |}.

(** *** What a pattern matches

    [Sem r wl m wr]: the pattern [r] matches exactly the code units [m],
    when the code unit before them is a word character or not ([wl]) and
    the code unit after them likewise ([wr]). The matcher finds a match at
    a position exactly when one exists. *)

Fixpoint lastw (wl : bool) (m : text) : bool :=
  match m with
  | [] => wl
  | x :: m' => lastw (is_word x) m'
  end.

Definition headw (m : text) (wr : bool) : bool :=
  match m with
  | [] => wr
  | x :: _ => is_word x
  end.

Definition within (hi : option nat) (n : nat) : Prop :=
  match hi with
  | Some h => (n <= h)%nat
  | None => True
  end.

Fixpoint Sem (r : regex) (wl : bool) (m : text) (wr : bool) : Prop :=
  match r with
  | Eps => m = []
  | Bnd => m = [] /\ xorb wl wr = true
  | Rep c lo hi =>
      Forall (fun x => in_cls c x = true) m /\ (lo <= length m)%nat /\
      within hi (length m)
  | Seq r1 r2 =>
      exists m1 m2, m = m1 ++ m2 /\
        Sem r1 wl m1 (headw m2 wr) /\ Sem r2 (lastw wl m1) m2 wr
  end.

(** A match of [r] starts at the position. *)
Definition Starts (r : regex) (wl : bool) (s : text) : Prop :=
  exists m rest, s = m ++ rest /\ Sem r wl m (hdw rest).

(** A match of [r] starts at the position or further right. *)
Fixpoint Occ (r : regex) (wl : bool) (s : text) : Prop :=
  Starts r wl s \/
  match s with
  | [] => False
  | c :: s' => Occ r (is_word c) s'
  end.

(** Properties of a pattern that can be read off its syntax. *)
Fixpoint minlen (r : regex) : nat :=
  match r with
  | Eps | Bnd => 0
  | Rep _ lo _ => lo
  | Seq r1 r2 => minlen r1 + minlen r2
  end.

Fixpoint avoids (x : char) (r : regex) : bool :=
  match r with
  | Eps | Bnd => true
  | Rep c _ _ => negb (in_cls c x)
  | Seq r1 r2 => avoids x r1 && avoids x r2
  end.

Fixpoint starts_bnd (r : regex) : bool :=
  match r with
  | Bnd => true
  | Seq r1 _ => starts_bnd r1
  | _ => false
  end.

Fixpoint ends_bnd (r : regex) : bool :=
  match r with
  | Bnd => true
  | Seq _ r2 => ends_bnd r2
  | _ => false
  end.

Definition star : char := chr "*".

(** A pattern of the form [\b ... \b] that matches no empty text and no
    asterisk. *)
Definition bounded (r : regex) : bool :=
  starts_bnd r && ends_bnd r && (1 <=? minlen r)%nat && avoids star r.

Lemma lastw_app (wl : bool) (m1 m2 : text) :
  lastw wl (m1 ++ m2) = lastw (lastw wl m1) m2.
Proof.
  revert wl. induction m1 as [|x m1 IH]; intros wl; simpl; [reflexivity|].
  apply IH.
Qed.

Lemma headw_app (m1 m2 : text) (wr : bool) :
  headw (m1 ++ m2) wr = headw m1 (headw m2 wr).
Proof. destruct m1; reflexivity. Qed.

Lemma hdw_headw (s : text) : hdw s = headw s false.
Proof. destruct s; reflexivity. Qed.

Lemma hdw_app (m rest : text) : hdw (m ++ rest) = headw m (hdw rest).
Proof. rewrite !hdw_headw. apply headw_app. Qed.

Lemma lastw_nonempty (wl wl' : bool) (m : text) :
  m <> [] -> lastw wl m = lastw wl' m.
Proof. destruct m; [congruence|reflexivity]. Qed.

Lemma headw_nonempty (wr wr' : bool) (m : text) :
  m <> [] -> headw m wr = headw m wr'.
Proof. destruct m; [congruence|reflexivity]. Qed.

Lemma rep_sound {R} (c : cls) (s : text) :
  forall (lo : nat) (hi : option nat) (wl : bool)
         (k : bool -> text -> option R) (res : R),
    rep c lo hi wl s k = Some res ->
    exists m rest, s = m ++ rest /\
      Forall (fun x => in_cls c x = true) m /\ (lo <= length m)%nat /\
      within hi (length m) /\ k (lastw wl m) rest = Some res.
Proof.
  assert (Hstop : forall lo hi wl (s : text) (k : bool -> text -> option R) res,
    match lo with O => k wl s | S _ => None end = Some res ->
    exists m rest, s = m ++ rest /\
      Forall (fun x => in_cls c x = true) m /\ (lo <= length m)%nat /\
      within hi (length m) /\ k (lastw wl m) rest = Some res).
  { intros lo hi wl s0 k res H. destruct lo; [|discriminate].
    exists [], s0. repeat split; auto. destruct hi; simpl; lia. }
  induction s as [|x s IH]; intros lo hi wl k res H; simpl in H.
  - now apply Hstop.
  - destruct (in_cls c x && more hi) eqn:Hc; [|now apply Hstop].
    apply andb_true_iff in Hc as [Hx Hm].
    destruct (rep c (pred lo) (less hi) (is_word x) s k) as [r|] eqn:Hr;
      [|now apply Hstop].
    injection H as ->.
    destruct (IH _ _ _ _ _ Hr) as (m & rest & -> & Hall & Hlo & Hhi & Hk).
    exists (x :: m), rest. simpl. repeat split; auto.
    + lia.
    + destruct hi as [[|h]|]; simpl in *; try discriminate; lia.
Qed.

Lemma rep_complete {R} (c : cls) (m : text) :
  forall (lo : nat) (hi : option nat) (wl : bool) (rest : text)
         (k : bool -> text -> option R),
    Forall (fun x => in_cls c x = true) m -> (lo <= length m)%nat ->
    within hi (length m) -> is_Some (k (lastw wl m) rest) ->
    is_Some (rep c lo hi wl (m ++ rest) k).
Proof.
  induction m as [|x m IH]; intros lo hi wl rest k Hall Hlo Hhi Hk; simpl in *.
  - assert (lo = O) as -> by lia.
    destruct rest as [|y rest]; simpl; [exact Hk|].
    destruct (in_cls c y && more hi); [|exact Hk].
    destruct (rep c _ _ _ rest k); [eauto|exact Hk].
  - inversion Hall as [|? ? Hx Hall']; subst. rewrite Hx. simpl.
    assert (Hm : more hi = true).
    { destruct hi as [[|h]|]; simpl in *; auto; lia. }
    rewrite Hm.
    assert (His : is_Some (rep c (pred lo) (less hi) (is_word x) (m ++ rest) k)).
    { apply IH; auto; [lia|].
      destruct hi as [h|]; simpl in *; auto; lia. }
    destruct His as [r ->]. eauto.
Qed.

Lemma exec_sound {R} (r : regex) :
  forall (wl : bool) (s : text) (k : bool -> text -> option R) (res : R),
    exec r wl s k = Some res ->
    exists m rest, s = m ++ rest /\ Sem r wl m (hdw rest) /\
      k (lastw wl m) rest = Some res.
Proof.
  induction r as [| |c lo hi|r1 IH1 r2 IH2]; intros wl s k res H; simpl in H.
  - exists [], s. simpl. auto.
  - destruct (xorb wl (hdw s)) eqn:Hb; [|discriminate].
    exists [], s. simpl. auto.
  - destruct (rep_sound _ _ _ _ _ _ _ H) as (m & rest & -> & Ha & Hl & Hh & Hk).
    exists m, rest. simpl. auto.
  - destruct (IH1 _ _ _ _ H) as (m1 & rest1 & -> & H1 & Hk1).
    destruct (IH2 _ _ _ _ Hk1) as (m2 & rest & -> & H2 & Hk).
    exists (m1 ++ m2), rest. rewrite app_assoc, lastw_app.
    split; [reflexivity|]. split; [|exact Hk].
    simpl. exists m1, m2. split; [reflexivity|].
    rewrite hdw_app in H1. auto.
Qed.

Lemma exec_complete {R} (r : regex) :
  forall (wl : bool) (m rest : text) (k : bool -> text -> option R),
    Sem r wl m (hdw rest) -> is_Some (k (lastw wl m) rest) ->
    is_Some (exec r wl (m ++ rest) k).
Proof.
  induction r as [| |c lo hi|r1 IH1 r2 IH2]; intros wl m rest k H Hk; simpl in *.
  - subst. exact Hk.
  - destruct H as [-> Hb]. simpl in *. rewrite Hb. exact Hk.
  - destruct H as (Ha & Hl & Hh). now apply rep_complete.
  - destruct H as (m1 & m2 & -> & H1 & H2).
    rewrite <- app_assoc. apply IH1.
    + now rewrite hdw_app.
    + apply IH2; [exact H2|]. now rewrite <- lastw_app.
Qed.

Lemma regexExec_sound (r : regex) (wl : bool) (s : text) (n : nat) :
  regexExec r wl s = Some n ->
  exists m rest, s = m ++ rest /\ Sem r wl m (hdw rest) /\ n = length m.
Proof.
  unfold regexExec. intros H.
  destruct (exec_sound _ _ _ _ _ H) as (m & rest & -> & Hs & Hk).
  exists m, rest. repeat split; auto.
  injection Hk as <-. rewrite length_app. lia.
Qed.

Lemma regexExec_complete (r : regex) (wl : bool) (s : text) :
  Starts r wl s -> is_Some (regexExec r wl s).
Proof.
  intros (m & rest & -> & H). unfold regexExec.
  apply exec_complete; [exact H|]. eauto.
Qed.

Lemma regexExec_None (r : regex) (wl : bool) (s : text) :
  regexExec r wl s = None -> ~ Starts r wl s.
Proof.
  intros H Hs. apply regexExec_complete in Hs. rewrite H in Hs.
  destruct Hs; discriminate.
Qed.

Lemma Sem_minlen (r : regex) :
  forall wl m wr, Sem r wl m wr -> (minlen r <= length m)%nat.
Proof.
  induction r as [| |c lo hi|r1 IH1 r2 IH2]; intros wl m wr H; simpl in *.
  - subst; simpl; lia.
  - destruct H as [-> _]; simpl; lia.
  - tauto.
  - destruct H as (m1 & m2 & -> & H1 & H2). rewrite length_app.
    apply IH1 in H1. apply IH2 in H2. lia.
Qed.

Lemma Sem_avoids (x : char) (r : regex) :
  forall wl m wr, avoids x r = true -> Sem r wl m wr -> ~ In x m.
Proof.
  induction r as [| |c lo hi|r1 IH1 r2 IH2]; intros wl m wr Ha H; simpl in *.
  - subst. auto.
  - destruct H as [-> _]. auto.
  - destruct H as (Hall & _). rewrite List.Forall_forall in Hall.
    intros Hin. apply Hall in Hin. rewrite Hin in Ha. discriminate.
  - apply andb_true_iff in Ha as [Ha1 Ha2].
    destruct H as (m1 & m2 & -> & H1 & H2). rewrite in_app_iff.
    intros [Hin|Hin]; [eapply IH1|eapply IH2]; eauto.
Qed.

Lemma Sem_starts_bnd (r : regex) :
  forall wl m wr, starts_bnd r = true -> Sem r wl m wr ->
    xorb wl (headw m wr) = true.
Proof.
  induction r as [| |c lo hi|r1 IH1 r2 IH2]; intros wl m wr Hb H; simpl in *;
    try discriminate.
  - destruct H as [-> H]. exact H.
  - destruct H as (m1 & m2 & -> & H1 & H2). rewrite headw_app.
    eapply IH1; eauto.
Qed.

Lemma Sem_ends_bnd (r : regex) :
  forall wl m wr, ends_bnd r = true -> Sem r wl m wr ->
    xorb (lastw wl m) wr = true.
Proof.
  induction r as [| |c lo hi|r1 IH1 r2 IH2]; intros wl m wr Hb H; simpl in *;
    try discriminate.
  - destruct H as [-> H]. exact H.
  - destruct H as (m1 & m2 & -> & H1 & H2). rewrite lastw_app.
    eapply IH2; eauto.
Qed.

(** What a match of a bounded pattern looks like: it is not empty, holds
    no asterisk, and the word boundaries at its two ends fix the contexts. *)
Lemma bounded_match (r : regex) (wl : bool) (m : text) (wr : bool) :
  bounded r = true -> Sem r wl m wr ->
  m <> [] /\ ~ In star m /\
  wl = negb (headw m wr) /\ wr = negb (lastw wl m).
Proof.
  unfold bounded. rewrite !andb_true_iff. intros [[[Hs He] Hn] Ha] H.
  apply Nat.leb_le in Hn.
  pose proof (Sem_minlen _ _ _ _ H) as Hlen.
  pose proof (Sem_avoids _ _ _ _ _ Ha H) as Hav.
  pose proof (Sem_starts_bnd _ _ _ _ Hs H) as H1.
  pose proof (Sem_ends_bnd _ _ _ _ He H) as H2.
  repeat split; auto.
  - intros ->. simpl in Hlen. lia.
  - destruct wl, (headw m wr); simpl in *; congruence.
  - destruct (lastw wl m), wr; simpl in *; congruence.
Qed.

(** *** The scan as a script over the text

    A scan cuts the text into pieces. [inp] gives the text back, [out] the
    text after replacement. A script is valid when every match in it is
    not empty and has a word boundary at each end, and when the text left
    at each kept code unit satisfies [free]. The flag [ah] tells that the
    piece before was a match. *)

Definition inp (ps : list piece) : text :=
  flat_map (fun p => match p with Kept c => [c] | Hit m => m end) ps.

Definition out (mask : text) (ps : list piece) : text :=
  flat_map (render mask) ps.

Inductive Valid (free : bool -> text -> Prop) : bool -> bool -> list piece -> Prop :=
| Valid_nil wl ah :
    (ah = true -> wl = true) -> Valid free wl ah []
| Valid_kept wl ah c ps :
    (ah = true -> xorb wl (is_word c) = true) ->
    free wl (c :: inp ps) ->
    Valid free (is_word c) false ps ->
    Valid free wl ah (Kept c :: ps)
| Valid_hit wl ah m ps :
    m <> [] -> xorb wl (hdw m) = true ->
    Valid free (lastw wl m) true ps ->
    Valid free wl ah (Hit m :: ps).

(** A match starts somewhere at a position where [free] holds. *)
Fixpoint OccFree (r : regex) (free : bool -> text -> Prop) (wl : bool) (s : text)
  : Prop :=
  (Starts r wl s /\ free wl s) \/
  match s with
  | [] => False
  | c :: s' => OccFree r free (is_word c) s'
  end.

(** The check, by evaluation, that no match of [r] starts inside the text
    [d], every non-empty suffix of which holds an asterisk. *)
Fixpoint sealed (r : regex) (wl : bool) (d : text) : bool :=
  match d with
  | [] => true
  | x :: d' =>
      existsb (N.eqb star) d
      && match regexExec r wl d with None => true | Some _ => false end
      && sealed r (is_word x) d'
  end.

(** A mask is good for [r] when it starts and ends with an asterisk and
    no match of [r] starts inside it. *)
Definition good_mask (r : regex) (mask : text) : bool :=
  match mask with
  | [] => false
  | x :: _ =>
      (x =? star) && sealed r true mask && sealed r false mask
      && negb (lastw true mask) && negb (lastw false mask)
  end.

Lemma xorb_negb_self_r (b : bool) : xorb b (negb b) = true.
Proof. destruct b; reflexivity. Qed.

Lemma xorb_negb_self_l (b : bool) : xorb (negb b) b = true.
Proof. destruct b; reflexivity. Qed.

Lemma scan_skip (r : regex) (m rest : text) :
  forall wl, scan r wl (m ++ rest) (length m) = scan r (lastw wl m) rest 0.
Proof.
  induction m as [|x m IH]; intros wl; simpl; [reflexivity|]. apply IH.
Qed.

Lemma Occ_app (r : regex) (m s : text) :
  forall wl, Occ r (lastw wl m) s -> Occ r wl (m ++ s).
Proof.
  induction m as [|x m IH]; intros wl H; simpl in *; [exact H|].
  right. now apply IH.
Qed.

Lemma OccFree_app (r : regex) (free : bool -> text -> Prop) (m s : text) :
  forall wl, OccFree r free (lastw wl m) s -> OccFree r free wl (m ++ s).
Proof.
  induction m as [|x m IH]; intros wl H; simpl in *; [exact H|].
  right. now apply IH.
Qed.

Lemma OccFree_Occ (r : regex) (free : bool -> text -> Prop) (s : text) :
  forall wl, OccFree r free wl s -> Occ r wl s.
Proof.
  induction s as [|c s IH]; intros wl [[H _]|H]; simpl; auto.
Qed.

Lemma OccFree_unmatched (r : regex) (s : text) :
  forall wl, ~ OccFree r (fun wl s => regexExec r wl s = None) wl s.
Proof.
  induction s as [|c s IH]; intros wl [[H Hn]|H].
  - now apply regexExec_None in Hn.
  - contradiction.
  - now apply regexExec_None in Hn.
  - now apply IH in H.
Qed.

Lemma Starts_nonempty (r : regex) (wl : bool) :
  bounded r = true -> ~ Starts r wl [].
Proof.
  intros Hb (m & rest & Heq & H).
  destruct (bounded_match _ _ _ _ Hb H) as (Hne & _).
  symmetry in Heq. apply app_eq_nil in Heq as [-> _]. congruence.
Qed.

(** The scan of a bounded pattern is a valid script of the text, and the
    pattern matches at none of the kept code units. *)
Lemma scan_valid (r : regex) :
  bounded r = true ->
  forall (n : nat) (s : text), (length s <= n)%nat ->
  forall wl ah, (ah = true -> xorb wl (hdw s) = true) ->
    Valid (fun wl s => regexExec r wl s = None) wl ah (scan r wl s 0) /\
    inp (scan r wl s 0) = s.
Proof.
  intros Hb. induction n as [|n IH]; intros s Hn wl ah Hah.
  - destruct s; [|simpl in Hn; lia]. simpl.
    destruct (regexExec r wl []) as [k|] eqn:He.
    + exfalso. apply regexExec_sound in He as (m & rest & Heq & H & _).
      eapply Starts_nonempty; eauto. exists m, rest. eauto.
    + split; [|reflexivity]. constructor. intros Ht.
      specialize (Hah Ht). simpl in Hah. now rewrite xorb_false_r in Hah.
  - destruct s as [|c s].
    + simpl. destruct (regexExec r wl []) as [k|] eqn:He.
      * exfalso. apply regexExec_sound in He as (m & rest & Heq & H & _).
        eapply Starts_nonempty; eauto. exists m, rest. eauto.
      * split; [|reflexivity]. constructor. intros Ht.
        specialize (Hah Ht). simpl in Hah. now rewrite xorb_false_r in Hah.
    + simpl. destruct (regexExec r wl (c :: s)) as [k|] eqn:He.
      * pose proof He as He'.
        apply regexExec_sound in He' as (m & rest & Heq & H & ->).
        destruct (bounded_match _ _ _ _ Hb H) as (Hne & _ & Hwl & Hwr).
        destruct m as [|x m]; [congruence|].
        simpl in Heq. injection Heq as -> ->. simpl length. cbv iota.
        rewrite scan_skip, take_app_length.
        destruct (IH rest) with (wl := lastw (is_word x) m) (ah := true)
          as [Hv Hi].
        { simpl in Hn. rewrite length_app in Hn. lia. }
        { intros _. rewrite Hwr. simpl. apply xorb_negb_self_r. }
        split.
        -- constructor; [discriminate| |exact Hv].
           rewrite Hwl. simpl. apply xorb_negb_self_l.
        -- simpl. rewrite Hi. reflexivity.
      * destruct (IH s) with (wl := is_word c) (ah := false) as [Hv Hi].
        { simpl in Hn. lia. }
        { discriminate. }
        split.
        -- constructor; [exact Hah| |exact Hv]. rewrite Hi. exact He.
        -- simpl. rewrite Hi. reflexivity.
Qed.

(** A match that starts in front of an asterisk starts in front of it
    whatever follows. *)
Lemma Starts_cut (r : regex) (wl : bool) (d t : text) :
  bounded r = true -> In star d -> Starts r wl (d ++ t) -> Starts r wl d.
Proof.
  intros Hb Hd (m & rest & Heq & H).
  destruct (bounded_match _ _ _ _ Hb H) as (_ & Hstar & _).
  apply app_eq_app in Heq as [l [[-> ->]|[-> ->]]].
  - assert (l <> []) as Hl.
    { intros ->. rewrite app_nil_r in Hd. contradiction. }
    exists m, l. split; [reflexivity|].
    rewrite hdw_app in H. rewrite hdw_headw.
    now rewrite (headw_nonempty false (hdw t)).
  - exfalso. apply Hstar. apply in_app_iff. now left.
Qed.

Lemma sealed_skip (r : regex) (d t : text) :
  bounded r = true ->
  forall wl, sealed r wl d = true -> Occ r wl (d ++ t) -> Occ r (lastw wl d) t.
Proof.
  intros Hb. induction d as [|x d IH]; intros wl Hs H; [exact H|].
  change (sealed r wl (x :: d))
    with (existsb (N.eqb star) (x :: d)
          && match regexExec r wl (x :: d) with None => true | Some _ => false end
          && sealed r (is_word x) d) in Hs.
  apply andb_true_iff in Hs as [Hs Hd].
  apply andb_true_iff in Hs as [Hx Hn].
  simpl. destruct H as [H|H].
  - exfalso.
    assert (Hin : In star (x :: d)).
    { apply existsb_exists in Hx as (y & Hy & Heq).
      apply N.eqb_eq in Heq. now subst. }
    change (x :: d ++ t) with ((x :: d) ++ t) in H.
    apply Starts_cut in H; auto.
    apply regexExec_complete in H as [k Hk]. rewrite Hk in Hn. discriminate.
  - now apply IH.
Qed.

Lemma good_mask_spec (r : regex) (mask : text) :
  bounded r = true -> good_mask r mask = true ->
  (exists mask', mask = star :: mask') /\
  (forall wl t, Occ r wl (mask ++ t) -> Occ r false t).
Proof.
  intros Hb Hg. unfold good_mask in Hg. destruct mask as [|x mask']; [discriminate|].
  rewrite !andb_true_iff in Hg. destruct Hg as [[[[Hx Ht] Hf] Hlt] Hlf].
  apply N.eqb_eq in Hx. subst x. split; [eauto|].
  intros wl t H. destruct wl.
  - apply sealed_skip in H; auto.
    apply negb_true_iff in Hlt. now rewrite Hlt in H.
  - apply sealed_skip in H; auto.
    apply negb_true_iff in Hlf. now rewrite Hlf in H.
Qed.

(** A stretch without asterisk at the front of the replaced text is a
    stretch of kept code units. *)
Lemma out_prefix (free : bool -> text -> Prop) (mask' : text) (m0 : text) :
  forall wl ps rest,
    Valid free wl false ps ->
    out (star :: mask') ps = m0 ++ rest -> ~ In star m0 ->
    exists ps2, ps = map Kept m0 ++ ps2 /\ out (star :: mask') ps2 = rest /\
      Valid free (lastw wl m0) false ps2.
Proof.
  induction m0 as [|x m0 IH]; intros wl ps rest Hv Ho Hs.
  - exists ps. auto.
  - inversion Hv as [? ? Hnil|? ? c ps' Hah Hfree Hv'|? ? m ps' Hne Hb Hv'];
      subst; simpl in Ho.
    + discriminate.
    + injection Ho as -> Ho.
      destruct (IH (is_word x) ps' rest Hv' Ho) as (ps2 & -> & Hout & Hv2).
      { intros Hin. apply Hs. now right. }
      exists ps2. auto.
    + injection Ho as <- _. exfalso. apply Hs. now left.
Qed.

(** The word character test on the code unit after a kept stretch is the
    same before and after replacement, when a word boundary follows the
    stretch in the replaced text. *)
Lemma next_context (free : bool -> text -> Prop) (mask' : text) (wl : bool)
    (ps : list piece) :
  Valid free wl false ps ->
  xorb wl (hdw (out (star :: mask') ps)) = true ->
  hdw (inp ps) = hdw (out (star :: mask') ps).
Proof.
  intros Hv Hx.
  inversion Hv as [? ? Hnil|? ? c ps' Hah Hfree Hv'|? ? m ps' Hne Hb Hv'];
    subst; simpl in *; try reflexivity.
  change (is_word star) with false in *. rewrite xorb_false_r in Hx. subst wl.
  destruct m as [|y m]; [congruence|]. simpl in *.
  destruct (is_word y); [discriminate|reflexivity].
Qed.

(** The core of the argument: a match found in the replaced text starts
    at a kept code unit, and is a match of the original text there. *)
Lemma match_survives (q : regex) (free : bool -> text -> Prop) (mask : text) :
  bounded q = true -> good_mask q mask = true ->
  forall wl ah ps,
    Valid free wl ah ps ->
    Occ q (if ah then false else wl) (out mask ps) ->
    OccFree q free wl (inp ps).
Proof.
  intros Hb Hg.
  destruct (good_mask_spec _ _ Hb Hg) as [[mask' ->] Hskip].
  intros wl ah ps Hv.
  induction Hv as [wl ah Hnil|wl ah c ps Hah Hfree Hv IH|wl ah m ps Hne Hbd Hv IH];
    intros Ho.
  - simpl in Ho. destruct Ho as [Ho|[]].
    exfalso. eapply Starts_nonempty; eauto.
  - change (out (star :: mask') (Kept c :: ps))
      with (c :: out (star :: mask') ps) in Ho.
    simpl in Ho. destruct Ho as [Ho|Ho].
    + left. split; [|exact Hfree].
      destruct Ho as (m & rest & Heq & H).
      destruct (bounded_match _ _ _ _ Hb H) as (Hne & Hstar & Hwl & Hwr).
      destruct m as [|x m0]; [congruence|].
      simpl in Heq. injection Heq as <- Heq.
      destruct (out_prefix free mask' m0 (is_word c) ps rest Hv Heq)
        as (ps2 & -> & Hout & Hv2).
      { intros Hin. apply Hstar. now right. }
      exists (c :: m0), (inp ps2). split.
      { simpl. f_equal. unfold inp. rewrite flat_map_app. f_equal.
        clear. induction m0 as [|y m0 IH]; simpl; [reflexivity|]. now rewrite IH. }
      assert (Hnext : hdw (inp ps2) = hdw rest).
      { rewrite <- Hout. apply (next_context free mask' (lastw (is_word c) m0));
          auto.
        rewrite Hout. rewrite Hwr. simpl. apply xorb_negb_self_r. }
      rewrite Hnext.
      assert (Hleft : (if ah then false else wl) = wl).
      { destruct ah; [|reflexivity].
        specialize (Hah eq_refl). simpl in Hwl.
        destruct wl, (is_word c); simpl in *; congruence. }
      rewrite <- Hleft. exact H.
    + right. apply IH. exact Ho.
  - change (out (star :: mask') (Hit m :: ps))
      with ((star :: mask') ++ out (star :: mask') ps) in Ho.
    apply Hskip in Ho. change (inp (Hit m :: ps)) with (m ++ inp ps).
    apply OccFree_app. apply IH. exact Ho.
Qed.

(** Replacing the matches of [p] creates no match of [q]. *)
Lemma replace_creates_no_match (p q : regex) (mask : text) (t : text) :
  bounded p = true -> bounded q = true -> good_mask q mask = true ->
  Occ q false (replace p mask t) -> Occ q false t.
Proof.
  intros Hp Hq Hg H.
  destruct (scan_valid p Hp (length t) t (le_n _) false false) as [Hv Hi];
    [discriminate|].
  unfold replace in H.
  pose proof (match_survives q _ mask Hq Hg false false _ Hv H) as Ho.
  rewrite Hi in Ho. eapply OccFree_Occ; eauto.
Qed.

(** Replacing the matches of [q] leaves no match of [q]. *)
Lemma replace_leaves_no_match (q : regex) (mask : text) (t : text) :
  bounded q = true -> good_mask q mask = true ->
  ~ Occ q false (replace q mask t).
Proof.
  intros Hq Hg H.
  destruct (scan_valid q Hq (length t) t (le_n _) false false) as [Hv Hi];
    [discriminate|].
  unfold replace in H.
  pose proof (match_survives q _ mask Hq Hg false false _ Hv H) as Ho.
  now apply OccFree_unmatched in Ho.
Qed.

(** *** Detection and matches *)

Lemma scan_no_match (r : regex) (s : text) :
  forall wl, ~ Occ r wl s -> scan r wl s 0 = map Kept s.
Proof.
  induction s as [|c s IH]; intros wl Hn; simpl.
  - destruct (regexExec r wl []) as [k|] eqn:He; [|reflexivity].
    exfalso. apply Hn. left.
    apply regexExec_sound in He as (m & rest & Heq & H & _). exists m, rest. auto.
  - destruct (regexExec r wl (c :: s)) as [k|] eqn:He.
    + exfalso. apply Hn. left.
      apply regexExec_sound in He as (m & rest & Heq & H & _). exists m, rest. auto.
    + rewrite IH; [reflexivity|]. intros Ho. apply Hn. now right.
Qed.

Lemma scan_without_hit (r : regex) (s : text) :
  forall wl, List.filter is_hit (scan r wl s 0) = [] -> ~ Occ r wl s.
Proof.
  induction s as [|c s IH]; intros wl Hf; simpl in Hf.
  - destruct (regexExec r wl []) as [k|] eqn:He; [discriminate|].
    intros [Ho|[]]. now apply regexExec_None in He.
  - destruct (regexExec r wl (c :: s)) as [[|k]|] eqn:He; try discriminate.
    simpl in Hf. intros [Ho|Ho].
    + now apply regexExec_None in He.
    + now apply IH in Ho.
Qed.

Lemma matchAll_None (r : regex) (s : text) :
  matchAll r s = None <-> ~ Occ r false s.
Proof.
  unfold matchAll. split.
  - intros H. apply scan_without_hit.
    destruct (List.filter is_hit (scan r false s 0)); [reflexivity|discriminate].
  - intros H. rewrite (scan_no_match _ _ _ H).
    replace (List.filter is_hit (map Kept s)) with (@nil piece); [reflexivity|].
    clear. induction s; simpl; auto.
Qed.

Lemma matchAll_not_empty (r : regex) (s : text) : matchAll r s <> Some [].
Proof.
  unfold matchAll.
  destruct (List.filter is_hit (scan r false s 0)) as [|p l] eqn:Hf;
    [discriminate|].
  assert (Hp : is_hit p = true).
  { assert (Hin : In p (List.filter is_hit (scan r false s 0)))
      by (rewrite Hf; now left).
    apply List.filter_In in Hin. tauto. }
  destruct p; [discriminate|]. simpl. discriminate.
Qed.

Lemma replace_no_match (r : regex) (mask : text) (s : text) :
  ~ Occ r false s -> replace r mask s = s.
Proof.
  intros H. unfold replace. rewrite (scan_no_match _ _ _ H).
  clear. induction s as [|c s IH]; simpl; [reflexivity|]. now rewrite IH.
Qed.

Lemma Occ_dec (r : regex) (s : text) :
  forall wl, Occ r wl s \/ ~ Occ r wl s.
Proof.
  induction s as [|c s IH]; intros wl; simpl.
  - destruct (regexExec r wl []) as [k|] eqn:He.
    + left. left. apply regexExec_sound in He as (m & rest & Heq & H & _).
      exists m, rest. auto.
    + right. intros [Ho|[]]. now apply regexExec_None in He.
  - destruct (regexExec r wl (c :: s)) as [k|] eqn:He.
    + left. left. apply regexExec_sound in He as (m & rest & Heq & H & _).
      exists m, rest. auto.
    + destruct (IH (is_word c)) as [Ho|Ho]; [left; now right|].
      right. intros [Hs|Hs]; [now apply regexExec_None in He|auto].
Qed.

(** One round of the loop either leaves the state or records the type,
    replaces the matches in the masked text and adds a tenth per match. *)
Lemma detect_step_cases (content : text) (d : Detection) (type : string)
    (pattern : regex) :
  (~ Occ pattern false content /\ detect_step content d (type, pattern) = d) \/
  (Occ pattern false content /\ exists n : nat,
     detect_step content d (type, pattern)
     = {| detectedTypes := detectedTypes d ++ [type];
          masked := replace pattern (mask_of type) (masked d);
          conf := (conf d + inject_Z (Z.of_nat (S n)) * (1 # 10))%Q |}).
Proof.
  unfold detect_step.
  destruct (matchAll pattern content) as [[|m ms]|] eqn:Hm.
  - now apply matchAll_not_empty in Hm.
  - right. split; [|exists (length ms); reflexivity].
    destruct (Occ_dec pattern content false) as [Ho|Ho]; [exact Ho|].
    apply matchAll_None in Ho. congruence.
  - left. split; [|reflexivity]. now apply matchAll_None.
Qed.

Lemma detect_loop_cons (content : text) (e : string * regex)
    (pats : list (string * regex)) (d : Detection) :
  detect_loop content (e :: pats) d
  = detect_loop content pats (detect_step content d e).
Proof. reflexivity. Qed.

Section Loop.

(** The patterns in use, all bounded, and every mask good for every
    pattern. *)
Variable patterns : list (string * regex).
Hypothesis patterns_bounded :
  forall e, In e patterns -> bounded (snd e) = true.
Hypothesis masks_good :
  forall e e', In e patterns -> In e' patterns ->
    good_mask (snd e') (mask_of (fst e)) = true.

Variable content : text.

(** The loop creates no match: a match in the masked text at the end was
    a match in the masked text at the start. *)
Lemma loop_creates_no_match (pats : list (string * regex)) :
  incl pats patterns ->
  forall d e, In e patterns ->
    Occ (snd e) false (masked (detect_loop content pats d)) ->
    Occ (snd e) false (masked d).
Proof.
  induction pats as [|[type p] pats IH]; intros Hincl d e He Ho; [exact Ho|].
  assert (Hp : In (type, p) patterns) by (apply Hincl; now left).
  assert (Hincl' : incl pats patterns).
  { intros x Hx. apply Hincl. now right. }
  rewrite detect_loop_cons in Ho.
  apply (IH Hincl' _ e He) in Ho.
  destruct (detect_step_cases content d type p) as [[_ Heq]|[_ [n Heq]]];
    rewrite Heq in Ho; [exact Ho|].
  simpl in Ho.
  apply replace_creates_no_match in Ho; auto.
  - apply (patterns_bounded _ Hp).
  - apply (masks_good _ _ Hp He).
Qed.

(** After the loop no pattern of the loop matches the masked text,
    provided the masked text at the start has no match that the content
    has not. *)
Lemma loop_leaves_no_match (pats : list (string * regex)) :
  incl pats patterns ->
  forall d,
    (forall e, In e patterns -> Occ (snd e) false (masked d) ->
               Occ (snd e) false content) ->
    forall e, In e pats ->
      ~ Occ (snd e) false (masked (detect_loop content pats d)).
Proof.
  induction pats as [|[type p] pats IH]; intros Hincl d Hinv e He; [destruct He|].
  assert (Hp : In (type, p) patterns) by (apply Hincl; now left).
  assert (Hincl' : incl pats patterns).
  { intros x Hx. apply Hincl. now right. }
  rewrite detect_loop_cons.
  set (d' := detect_step content d (type, p)).
  assert (Hinv' : forall e, In e patterns -> Occ (snd e) false (masked d') ->
                            Occ (snd e) false content).
  { intros e0 He0 Ho. apply Hinv; [exact He0|]. subst d'.
    destruct (detect_step_cases content d type p) as [[_ Heq]|[_ [n Heq]]];
      rewrite Heq in Ho; [exact Ho|].
    simpl in Ho. apply replace_creates_no_match in Ho; auto.
    - apply (patterns_bounded _ Hp).
    - apply (masks_good _ _ Hp He0). }
  destruct He as [<-|He]; [|now apply IH].
  simpl. intros Ho.
  apply (loop_creates_no_match pats Hincl' d' (type, p) Hp) in Ho. simpl in Ho.
  subst d'.
  destruct (detect_step_cases content d type p) as [[Hn Heq]|[_ [n Heq]]];
    rewrite Heq in Ho.
  - apply Hn. now apply (Hinv (type, p)).
  - simpl in Ho. revert Ho. apply replace_leaves_no_match.
    + apply (patterns_bounded _ Hp).
    + apply (masks_good _ _ Hp Hp).
Qed.

End Loop.

(** On a text that no pattern matches the loop does nothing. *)
Lemma loop_without_match (t : text) (pats : list (string * regex)) :
  (forall e, In e pats -> ~ Occ (snd e) false t) ->
  forall d, detect_loop t pats d = d.
Proof.
  induction pats as [|[type p] pats IH]; intros Hn d; [reflexivity|].
  rewrite detect_loop_cons.
  destruct (detect_step_cases t d type p) as [[_ ->]|[Ho _]].
  - apply IH. intros e He. apply Hn. now right.
  - exfalso. apply (Hn (type, p)); [now left|exact Ho].
Qed.

Lemma loop_conf_nonneg (content : text) (pats : list (string * regex)) :
  forall d, (0 <= conf d)%Q -> (0 <= conf (detect_loop content pats d))%Q.
Proof.
  induction pats as [|[type p] pats IH]; intros d Hd; [exact Hd|].
  rewrite detect_loop_cons. apply IH.
  destruct (detect_step_cases content d type p) as [[_ ->]|[_ [n ->]]];
    [exact Hd|].
  simpl.
  assert (Hpos : (0 <= inject_Z (Z.of_nat (S n)) * (1 # 10))%Q).
  { apply Qmult_le_0_compat; [|discriminate].
    change 0%Q with (inject_Z 0). rewrite <- Zle_Qle. lia. }
  pose proof (Qplus_le_compat _ _ _ _ Hd Hpos) as H.
  now rewrite Qplus_0_l in H.
Qed.

Lemma PII_PATTERNS_bounded :
  forall e, In e PII_PATTERNS -> bounded (snd e) = true.
Proof.
  assert (H : forallb (fun e => bounded (snd e)) PII_PATTERNS = true)
    by (vm_compute; reflexivity).
  rewrite forallb_forall in H. exact H.
Qed.

Lemma PII_masks_good :
  forall e e', In e PII_PATTERNS -> In e' PII_PATTERNS ->
    good_mask (snd e') (mask_of (fst e)) = true.
Proof.
  assert (H : forallb (fun e =>
                forallb (fun e' => good_mask (snd e') (mask_of (fst e)))
                  PII_PATTERNS) PII_PATTERNS = true)
    by (vm_compute; reflexivity).
  rewrite forallb_forall in H. intros e e' He He'.
  specialize (H e He). rewrite forallb_forall in H. now apply H.
Qed.

Lemma detectPII_unfold (content : text) :
  detectPII content
  = let d := detect_loop content PII_PATTERNS
               {| detectedTypes := []; masked := content; conf := 0 |} in
    {| hasPII := (0 <? length (detectedTypes d))%nat;
       piiTypes := detectedTypes d;
       confidence := Qmin (conf d) 1;
       maskedContent := masked d;
       originalContent := content |}.
Proof. reflexivity. Qed.

(** No pattern matches the masked content that [detectPII] returns. *)
Lemma maskedContent_clean (content : text) (e : string * regex) :
  In e PII_PATTERNS -> ~ Occ (snd e) false (maskedContent (detectPII content)).
Proof.
  intros He. rewrite detectPII_unfold. cbv zeta. cbn [maskedContent].
  apply (loop_leaves_no_match PII_PATTERNS PII_PATTERNS_bounded PII_masks_good
           content PII_PATTERNS (incl_refl _)); auto.
Qed.

(** The detector on three texts: an e-mail address and a social security
    number; a run of sixteen digits, which three patterns match; a text
    that is already masked. *)
Example detectPII_email_and_ssn :
  let r := detectPII (js "contact john.doe@example.com or 123-45-6789") in
  hasPII r = true /\ piiTypes r = ["email"; "ssn"] /\
  maskedContent r = js "contact ***@***.*** or ***-**-****".
Proof. vm_compute. repeat split; reflexivity. Qed.

Example detectPII_sixteen_digits :
  let r := detectPII (js "card 1234567890123456") in
  piiTypes r = ["creditCard"; "bankAccount"] /\
  maskedContent r = js "card ****-****-****-****".
Proof. vm_compute. split; reflexivity. Qed.

Example detectPII_masked_text :
  let r := detectPII (js "contact ***@***.*** or ***REDACTED***") in
  hasPII r = false /\ maskedContent r = js "contact ***@***.*** or ***REDACTED***".
Proof. vm_compute. split; reflexivity. Qed.

(** C8. The confidence that [detectPII] returns lies between 0 and 1. Run
    on the masked content of a previous run, [detectPII] detects nothing:
    [hasPII] is false, no type is listed, the confidence is 0 and the
    masked content is the text it was given. *)
Theorem detectPII_idempotent_on_masked (content : text) :
  (0 <= confidence (detectPII content))%Q /\
  (confidence (detectPII content) <= 1)%Q /\
  hasPII (detectPII (maskedContent (detectPII content))) = false /\
  piiTypes (detectPII (maskedContent (detectPII content))) = [] /\
  (confidence (detectPII (maskedContent (detectPII content))) == 0)%Q /\
  maskedContent (detectPII (maskedContent (detectPII content)))
    = maskedContent (detectPII content).
Proof.
  split; [|split].
  - rewrite detectPII_unfold. cbv zeta. cbn [confidence].
    apply Q.min_glb; [|discriminate].
    apply loop_conf_nonneg. cbn [conf]. apply Qle_refl.
  - rewrite detectPII_unfold. cbv zeta. cbn [confidence]. apply Q.le_min_r.
  - set (t := maskedContent (detectPII content)).
    assert (Hloop : forall d, detect_loop t PII_PATTERNS d = d).
    { apply loop_without_match. intros e He. now apply maskedContent_clean. }
    rewrite (detectPII_unfold t). cbv zeta. rewrite !Hloop.
    cbn [hasPII piiTypes confidence maskedContent detectedTypes conf masked].
    repeat split; reflexivity.
Qed.

End PII.

(** ** Policy evaluation (security-governance, [evaluateSpanAgainstPolicies]) *)

Module Policy.

Import Span Gov PII.

Record Evaluation : Type := {
  allowed : bool;
  requiresApproval : bool;
  violations : list string;
  applicablePolicies : list string;
  piiDetected : bool;
  contractRequired : bool
}.

(** [s.includes(sub)] on strings. *)
Definition str_includes (s sub : string) : bool :=
  match String.index 0 sub s with
  | Some _ => true
  | None => false
  end.

(** [hasApprovedPIIContract]: some approval of this span is approved and
    carries a risk factor whose type mentions [pii]. *)
Definition hasApprovedPIIContract (g : SecurityGovernanceEngine) (spanId : string)
  : bool :=
  existsb
    (fun approval =>
       bool_decide (approval_spanId approval = spanId)
       && bool_decide (approval_status approval = APPROVED)
       && existsb (fun factor => str_includes (factor_type factor) "pii")
            (factors (riskAssessment approval)))
    (map snd (map_to_list (approvals g))).

(** [this.ruleApplies(rule, span, riskAssessment)]. The class declares no
    member [ruleApplies], it extends no class and nothing assigns such a
    property: [this.ruleApplies] is [undefined], and the call throws a
    [TypeError]. *)
Definition not_a_function : GovError :=
  TypeError "this.ruleApplies is not a function".

(** An enabled policy with a rule: the loops of the evaluation reach the
    call of [ruleApplies] exactly when the engine holds one. *)
Definition has_rule (entry : string * SecurityPolicy) : bool :=
  enabled (snd entry)
  && match rules (snd entry) with [] => false | _ :: _ => true end.

Definition rule_in_force (g : SecurityGovernanceEngine) : bool :=
  existsb has_rule (policies g).

(** A [for ... of] loop over [l] whose body updates the variables [s] and
    may throw: the first throw ends the loop. *)
Fixpoint for_each {S A} (body : S -> A -> Outcome GovError S) (l : list A)
    (s : S) : Outcome GovError S :=
  match l with
  | [] => Ok s
  | x :: l' =>
      match body s x with
      | Throw e => Throw e
      | Ok s' => for_each body l' s'
      end
  end.

Section Evaluate.

Variables World Val Args : Type.

(** [JSON.stringify] on an argument payload. *)
Variable JSON_stringify : Args -> text.

Definition ruleApplies (rule : PolicyRule) (span : SpanContext Val Args)
    (riskAssessment : RiskAssessment) : Outcome GovError bool :=
  Throw not_a_function.

(** [JSON.stringify(span.args || {})]. *)
Definition spanContent (span : SpanContext Val Args) : text :=
  match args _ _ span with
  | Some a => JSON_stringify a
  | None => js "{}"
  end.

(** The variables of the method that the two loops update. *)
Record Verdicts : Type := {
  v_allowed : bool;
  v_requiresApproval : bool;
  v_violations : list string;
  v_applicablePolicies : list string
}.

(** The body of the inner loop. *)
Definition apply_rule (span : SpanContext Val Args) (risk : RiskAssessment)
    (policy : SecurityPolicy) (v : Verdicts) (rule : PolicyRule)
  : Outcome GovError Verdicts :=
  match ruleApplies rule span risk with
  | Throw e => Throw e
  | Ok false => Ok v
  | Ok true =>
      let applicable := v_applicablePolicies v ++ [policy_id policy] in
      Ok match rule_type rule with
         | DENY =>
             {| v_allowed := false;
                v_requiresApproval := v_requiresApproval v;
                v_violations :=
                  v_violations v ++
                  ["Policy '" +:+ policy_name policy +:+ "': "
                   +:+ rule_action rule];
                v_applicablePolicies := applicable |}
         | REQUIRE_APPROVAL =>
             {| v_allowed := v_allowed v;
                v_requiresApproval := true;
                v_violations := v_violations v;
                v_applicablePolicies := applicable |}
         | ALLOW =>
             {| v_allowed := v_allowed v;
                v_requiresApproval := v_requiresApproval v;
                v_violations := v_violations v;
                v_applicablePolicies := applicable |}
         end
  end.

(** The body of the outer loop. *)
Definition apply_policy (span : SpanContext Val Args) (risk : RiskAssessment)
    (v : Verdicts) (entry : string * SecurityPolicy)
  : Outcome GovError Verdicts :=
  let policy := snd entry in
  if negb (enabled policy) then Ok v
  else for_each (apply_rule span risk policy) (rules policy) v.

Definition evaluateSpanAgainstPolicies (se : SpanEngine World Val Args)
    (g : SecurityGovernanceEngine) (spanId : string)
  : Outcome GovError Evaluation :=
  match getSpan _ _ _ se spanId with
  | None => Throw (GovSpanNotFound spanId)
  | Some span =>
      match assessSpanRisk World Val Args se spanId with
      | Throw e => Throw e
      | Ok riskAssessment =>
          let piiResult := detectPII (spanContent span) in
          let piiDetected := hasPII piiResult in
          let blocked := piiDetected && negb (hasApprovedPIIContract g spanId) in
          let v0 :=
            {| v_allowed := true;
               v_requiresApproval := blocked;
               v_violations :=
                 if blocked
                 then ["PII detected - contract approval required before execution"]
                 else [];
               v_applicablePolicies := [] |} in
          match for_each (apply_policy span riskAssessment) (policies g) v0 with
          | Throw e => Throw e
          | Ok v =>
              Ok {| allowed := v_allowed v;
                    requiresApproval := v_requiresApproval v;
                    violations := v_violations v;
                    applicablePolicies := v_applicablePolicies v;
                    piiDetected := piiDetected;
                    contractRequired := blocked |}
          end
      end
  end.

(** The evaluation when no PII contract is required and no rule is met. *)
Definition unruled (pii blocked : bool) : Evaluation :=
  {| allowed := true;
     requiresApproval := blocked;
     violations :=
       if blocked
       then ["PII detected - contract approval required before execution"]
       else [];
     applicablePolicies := [];
     piiDetected := pii;
     contractRequired := blocked |}.

(** The two loops end at the first rule of the first enabled policy that
    has one. *)
Lemma policies_loop (span : SpanContext Val Args) (risk : RiskAssessment)
    (ps : list (string * SecurityPolicy)) (v : Verdicts) :
  for_each (apply_policy span risk) ps v
  = if existsb has_rule ps then Throw not_a_function else Ok v.
Proof.
  induction ps as [|entry ps IH]; [reflexivity|].
  cbn [for_each existsb]. unfold apply_policy at 1, has_rule at 1.
  destruct (enabled (snd entry)); cbn [negb andb orb].
  - destruct (rules (snd entry)) as [|rule rs]; [exact IH|reflexivity].
  - exact IH.
Qed.

(** The evaluation of a stored span, in closed form. *)
Lemma evaluate_stored (se : SpanEngine World Val Args)
    (g : SecurityGovernanceEngine) (spanId : string)
    (span : SpanContext Val Args) :
  getSpan _ _ _ se spanId = Some span ->
  evaluateSpanAgainstPolicies se g spanId
  = if rule_in_force g then Throw not_a_function
    else
      let pii := hasPII (detectPII (spanContent span)) in
      Ok (unruled pii (pii && negb (hasApprovedPIIContract g spanId))).
Proof.
  intros Hs. unfold evaluateSpanAgainstPolicies. rewrite Hs.
  destruct (assessSpanRisk_stored World Val Args se spanId span Hs)
    as (risk & ->).
  cbv zeta. rewrite policies_loop. fold (rule_in_force g).
  destruct (rule_in_force g); reflexivity.
Qed.

Lemma rule_in_force_spec (g : SecurityGovernanceEngine) :
  rule_in_force g = true <->
  exists entry rule,
    In entry (policies g) /\ enabled (snd entry) = true /\
    In rule (rules (snd entry)).
Proof.
  unfold rule_in_force. rewrite existsb_exists. unfold has_rule. split.
  - intros (entry & Hin & H). apply andb_true_iff in H as [He Hr].
    destruct (rules (snd entry)) as [|rule rs] eqn:Hrs; [discriminate|].
    exists entry, rule. rewrite Hrs. split; [exact Hin|]. split; [exact He|].
    now left.
  - intros (entry & rule & Hin & He & Hr). exists entry.
    split; [exact Hin|]. rewrite He.
    destruct (rules (snd entry)); [destruct Hr|reflexivity].
Qed.

End Evaluate.

(** *** A read span that carries an e-mail address, and an allow rule *)

(** [JSON.stringify] on an object whose values are strings that need no
    escaping: the fields, quoted, separated by commas, in braces. *)
Definition quote (s : string) : text := [34%N] ++ js s ++ [34%N].

Fixpoint stringify_fields (fields : list (string * string)) : text :=
  match fields with
  | [] => []
  | [(k, v)] => quote k ++ js ":" ++ quote v
  | (k, v) :: rest => quote k ++ js ":" ++ quote v ++ js "," ++ stringify_fields rest
  end.

Definition stringify_object (fields : list (string * string)) : text :=
  js "{" ++ stringify_fields fields ++ js "}".

(** A span whose [args] a caller has set on the object that [getSpan]
    hands out. *)
Definition read_span : SpanContext string (list (string * string)) :=
  {| id := "span_7"; parentId := None; type := READ; status := PENDING;
     startTime := 0; endTime := None; metadata := ∅; reversible := true;
     args := Some [("email", "john@example.com")] |}.

Definition read_engine : SpanEngine Z string (list (string * string)) :=
  {| spans := {[ "span_7" := read_span ]}; operations := ∅; timeline := [] |}.

Definition allow_everything : SecurityPolicy :=
  {| policy_id := "allow-reads"; policy_name := "Reads are allowed";
     policy_description := "Every read may proceed";
     rules :=
       [ {| rule_id := "rule-allow"; rule_type := ALLOW;
            rule_condition :=
              {| cond_spanType := Some ["read"]; cond_targetDomains := None;
                 cond_riskLevel := None; cond_userRoles := None;
                 cond_timeRestrictions := None |};
            rule_action := "allow_read"; rule_priority := 1 |} ];
     enabled := true; policy_created := 0; policy_lastModified := 0 |}.

End Policy.

(** ** Laws of the span lifecycle engine *)

Module SpanLaws.

Import Span.

Section Laws.

Variables World Val Args : Type.
Variable Date_now : World -> Z.
Variable fresh_span_id : World -> string * World.

Local Abbreviation St := (Span.St World Val Args).
Local Abbreviation Engine := (SpanEngine World Val Args).
Local Abbreviation Context := (SpanContext Val Args).
Local Abbreviation Operation := (SpanOperation World Val).
Local Abbreviation createSpan := (Span.createSpan World Val Args Date_now fresh_span_id).
Local Abbreviation simulateSpan := (Span.simulateSpan World Val Args Date_now).
Local Abbreviation executeSpan := (Span.executeSpan World Val Args Date_now).
Local Abbreviation rollbackSpan := (Span.rollbackSpan World Val Args Date_now).
Local Abbreviation spans := (Span.spans World Val Args).
Local Abbreviation operations := (Span.operations World Val Args).
Local Abbreviation timeline := (Span.timeline World Val Args).

Definition oldest_first (a b : TimelineEntry) : Z :=
  entry_timestamp a - entry_timestamp b.

(** [getTimeline]: a sorted copy of the timeline. *)
Definition getTimeline (e : Engine) : list TimelineEntry :=
  Obs.sort oldest_first (timeline e).

Definition entry (spanId : string) (t : Z) (event : string) : TimelineEntry :=
  {| entry_spanId := spanId; entry_timestamp := t; entry_event := event |}.

Definition engine_with (sp : gmap string Context) (e : Engine)
    (suffix : list TimelineEntry) : Engine :=
  {| Span.spans := sp; Span.operations := operations e;
     Span.timeline := timeline e ++ suffix |}.

(** The calls a user of the engine can make. *)
Inductive Call : Type :=
| CreateSpan (ty : SpanType) (op : Operation) (parent : option string)
| SimulateSpan (spanId : string)
| ExecuteSpan (spanId : string)
| RollbackSpan (spanId : string).

(** The state after a call, whatever the call returned or threw. *)
Definition after (s : St) (c : Call) : St :=
  match c with
  | CreateSpan ty op parent => snd (createSpan ty op parent s)
  | SimulateSpan spanId => snd (simulateSpan spanId s)
  | ExecuteSpan spanId => snd (executeSpan spanId s)
  | RollbackSpan spanId => snd (rollbackSpan spanId s)
  end.

Definition after_all (s : St) (cs : list Call) : St := fold_left after cs s.

(** What a method may touch: the fields of a span that only [createSpan]
    writes are the same in [a] and [b]. *)
Definition same_identity (a b : Context) : Prop :=
  id _ _ a = id _ _ b /\ parentId _ _ a = parentId _ _ b /\
  type _ _ a = type _ _ b /\ startTime _ _ a = startTime _ _ b /\
  metadata _ _ a = metadata _ _ b /\ reversible _ _ a = reversible _ _ b /\
  args _ _ a = args _ _ b.

(** [e'] differs from [e] at most in the status and end time of the span
    [spanId] and in timeline entries for that span added at the end. *)
Definition touches_only (spanId : string) (e e' : Engine) : Prop :=
  operations e' = operations e /\
  (forall k, k <> spanId -> spans e' !! k = spans e !! k) /\
  (forall span, spans e !! spanId = Some span ->
     exists span', spans e' !! spanId = Some span' /\ same_identity span' span) /\
  (spans e !! spanId = None -> spans e' !! spanId = None) /\
  exists suffix, timeline e' = timeline e ++ suffix /\
    Forall (fun t => entry_spanId t = spanId) suffix.

(** The invariant of the engine. *)
Definition consistent (e : Engine) : Prop :=
  forall k span, spans e !! k = Some span ->
    id _ _ span = k /\
    (exists op, operations e !! k = Some op /\
       reversible _ _ span = bool_decide (is_Some (rollback _ _ op))) /\
    (status _ _ span = COMPLETED \/ status _ _ span = ROLLED_BACK ->
       is_Some (endTime _ _ span)) /\
    In k (map entry_spanId
            (List.filter (fun t => String.eqb (entry_event t) "span_created")
               (timeline e))).

Definition timeline_of_stored_spans (e : Engine) : Prop :=
  Forall (fun t => is_Some (spans e !! entry_spanId t)) (timeline e).

Ltac run_method :=
  unfold Span.rollbackSpan, Span.executeSpan, Span.simulateSpan,
    Span.createSpan, Span.lookup_span, Span.addTimelineEvent, Span.set_status,
    Span.set_endTime, Span.try_catch, Span.await, Span.bind, Span.ret,
    Span.throw, Span.get_engine, Span.now, Span.modify_engine; simpl.

(** *** The effect of each method in closed form *)

Lemma createSpan_effect (ty : SpanType) (op : Operation) (parent : option string)
    (w : World) (e : Engine) :
  createSpan ty op parent (w, e)
  = let '(spanId, w1) := fresh_span_id w in
    (Ok spanId,
     (w1,
      {| Span.spans :=
           <[spanId :=
               {| id := spanId; parentId := parent; type := ty;
                  status := PENDING; startTime := Date_now w1; endTime := None;
                  metadata := ∅;
                  reversible := bool_decide (is_Some (rollback _ _ op));
                  args := None |}]> (spans e);
         Span.operations := <[spanId := op]> (operations e);
         Span.timeline := timeline e ++ [entry spanId (Date_now w1) "span_created"] |})).
Proof.
  run_method. destruct (fresh_span_id w) as [spanId w1]. reflexivity.
Qed.

Lemma not_found_effect (w : World) (e : Engine) (spanId : string) :
  spans e !! spanId = None \/ operations e !! spanId = None ->
  simulateSpan spanId (w, e) = (Throw (SpanNotFound _ spanId), (w, e)) /\
  executeSpan spanId (w, e) = (Throw (SpanNotFound _ spanId), (w, e)) /\
  rollbackSpan spanId (w, e) = (Throw (SpanNotFound _ spanId), (w, e)).
Proof.
  intros H. run_method.
  destruct (spans e !! spanId) as [span|], (operations e !! spanId) as [op|];
    try (destruct H; discriminate); auto.
Qed.

Lemma simulateSpan_effect (w : World) (e : Engine) (spanId : string)
    (span : Context) (op : Operation) :
  spans e !! spanId = Some span -> operations e !! spanId = Some op ->
  simulateSpan spanId (w, e)
  = match simulate _ _ op w with
    | (Ok d, w') =>
        (Ok d, (w', engine_with
                      (alter (with_status _ _ AWAITING_APPROVAL) spanId
                         (alter (with_status _ _ SIMULATING) spanId (spans e)))
                      e [entry spanId (Date_now w) "simulation_started";
                         entry spanId (Date_now w') "simulation_completed"]))
    | (Throw x, w') =>
        (Throw (Raised _ x),
         (w', engine_with
                (alter (with_status _ _ FAILED) spanId
                   (alter (with_status _ _ SIMULATING) spanId (spans e)))
                e [entry spanId (Date_now w) "simulation_started";
                   entry spanId (Date_now w') "simulation_failed"]))
    end.
Proof.
  intros Hs Ho. run_method. rewrite Hs, Ho. simpl.
  destruct (simulate _ _ op w) as [[d|x] w']; simpl;
    unfold engine_with; simpl; rewrite <- app_assoc; reflexivity.
Qed.

Lemma executeSpan_effect (w : World) (e : Engine) (spanId : string)
    (span : Context) (op : Operation) :
  spans e !! spanId = Some span -> operations e !! spanId = Some op ->
  executeSpan spanId (w, e)
  = if bool_decide (status _ _ span = AWAITING_APPROVAL)
    then
      match operation _ _ op w with
      | (Ok r, w') =>
          (Ok r, (w', engine_with
                        (alter (with_endTime _ _ (Date_now w')) spanId
                           (alter (with_status _ _ COMPLETED) spanId
                              (alter (with_status _ _ EXECUTING) spanId (spans e))))
                        e [entry spanId (Date_now w) "execution_started";
                           entry spanId (Date_now w') "execution_completed"]))
      | (Throw x, w') =>
          (Throw (Raised _ x),
           (w', engine_with
                  (alter (with_endTime _ _ (Date_now w')) spanId
                     (alter (with_status _ _ FAILED) spanId
                        (alter (with_status _ _ EXECUTING) spanId (spans e))))
                  e [entry spanId (Date_now w) "execution_started";
                     entry spanId (Date_now w') "execution_failed"]))
      end
    else (Throw (NotReadyForExecution _ spanId), (w, e)).
Proof.
  intros Hs Ho. run_method. rewrite Hs, Ho. simpl.
  destruct (bool_decide (status _ _ span = AWAITING_APPROVAL)); simpl;
    [|reflexivity].
  destruct (operation _ _ op w) as [[r|x] w']; simpl;
    unfold engine_with; simpl; rewrite <- app_assoc; reflexivity.
Qed.

Lemma rollbackSpan_effect (w : World) (e : Engine) (spanId : string)
    (span : Context) (op : Operation) :
  spans e !! spanId = Some span -> operations e !! spanId = Some op ->
  rollbackSpan spanId (w, e)
  = match reversible _ _ span, rollback _ _ op with
    | true, Some rb =>
        if bool_decide (status _ _ span = COMPLETED)
        then
          match rb w with
          | (Ok _, w') =>
              (Ok tt, (w', engine_with
                             (alter (with_status _ _ ROLLED_BACK) spanId (spans e))
                             e [entry spanId (Date_now w) "rollback_started";
                                entry spanId (Date_now w') "rollback_completed"]))
          | (Throw x, w') =>
              (Throw (Raised _ x),
               (w', engine_with (spans e)
                      e [entry spanId (Date_now w) "rollback_started";
                         entry spanId (Date_now w') "rollback_failed"]))
          end
        else (Throw (CannotRollBackInCurrentState _ spanId), (w, e))
    | _, _ => (Throw (NotReversible _ spanId), (w, e))
    end.
Proof.
  intros Hs Ho. run_method. rewrite Hs, Ho. simpl.
  destruct (reversible _ _ span), (rollback _ _ op) as [rb|]; try reflexivity.
  destruct (bool_decide (status _ _ span = COMPLETED)); simpl; [|reflexivity].
  destruct (rb w) as [[[]|x] w']; simpl;
    unfold engine_with; simpl; rewrite <- app_assoc; reflexivity.
Qed.

(** *** What the methods keep *)

Lemma alter_stored (f : Context -> Context) (m : gmap string Context)
    (k : string) (x : Context) :
  m !! k = Some x -> alter f k m = <[k := f x]> m.
Proof.
  intros H. apply map_eq. intros j. rewrite lookup_alter, lookup_insert.
  destruct (decide (k = j)) as [<-|]; [now rewrite H|reflexivity].
Qed.

Lemma alter_twice (f g : Context -> Context) (m : gmap string Context)
    (k : string) (x : Context) :
  m !! k = Some x -> alter f k (alter g k m) = <[k := f (g x)]> m.
Proof.
  intros H. rewrite (alter_stored f _ k (g x)).
  - rewrite (alter_stored g m k x H). apply insert_insert_eq.
  - rewrite lookup_alter_eq, H. reflexivity.
Qed.

Lemma alter_thrice (f g h : Context -> Context) (m : gmap string Context)
    (k : string) (x : Context) :
  m !! k = Some x ->
  alter f k (alter g k (alter h k m)) = <[k := f (g (h x))]> m.
Proof.
  intros H. rewrite (alter_twice f g _ k (h x)).
  - rewrite (alter_stored h m k x H). apply insert_insert_eq.
  - rewrite lookup_alter_eq, H. reflexivity.
Qed.

Definition is_lifecycle_call (c : Call) (spanId : string) : Prop :=
  c = SimulateSpan spanId \/ c = ExecuteSpan spanId \/ c = RollbackSpan spanId.

(** On a stored span, each of the three methods replaces the span by one
    with the same identity and adds entries for that span. *)
Lemma lifecycle_update (c : Call) (w : World) (e : Engine) (spanId : string)
    (span : Context) (op : Operation) :
  is_lifecycle_call c spanId ->
  spans e !! spanId = Some span -> operations e !! spanId = Some op ->
  exists span' suffix,
    snd (after (w, e) c) = engine_with (<[spanId := span']> (spans e)) e suffix /\
    same_identity span' span /\
    Forall (fun t => entry_spanId t = spanId) suffix /\
    (status _ _ span' = COMPLETED \/ status _ _ span' = ROLLED_BACK ->
     is_Some (endTime _ _ span') \/
     ((status _ _ span = COMPLETED \/ status _ _ span = ROLLED_BACK) /\
      endTime _ _ span' = endTime _ _ span)).
Proof.
  intros Hc Hs Ho.
  assert (Hsame : snd (w, e) = engine_with (<[spanId := span]> (spans e)) e []).
  { unfold engine_with. rewrite insert_id by assumption.
    rewrite app_nil_r. destruct e; reflexivity. }
  assert (Hkeep : exists span' suffix,
    e = engine_with (<[spanId := span']> (spans e)) e suffix /\
    same_identity span' span /\
    Forall (fun t => entry_spanId t = spanId) suffix /\
    (status _ _ span' = COMPLETED \/ status _ _ span' = ROLLED_BACK ->
     is_Some (endTime _ _ span') \/
     ((status _ _ span = COMPLETED \/ status _ _ span = ROLLED_BACK) /\
      endTime _ _ span' = endTime _ _ span))).
  { exists span, []. split; [exact Hsame|]. unfold same_identity.
    repeat split; auto. }
  destruct Hc as [-> | [-> | ->]]; simpl.
  - rewrite (simulateSpan_effect w e spanId span op Hs Ho).
    destruct (simulate _ _ op w) as [[d|x] w']; simpl;
      rewrite (alter_twice _ _ _ _ _ Hs);
      eexists _, _; (split; [reflexivity|]);
      (split; [unfold same_identity; simpl; tauto|]);
      (split; [repeat constructor|]); simpl; intros [H|H]; discriminate.
  - rewrite (executeSpan_effect w e spanId span op Hs Ho).
    destruct (bool_decide (status _ _ span = AWAITING_APPROVAL)); [|exact Hkeep].
    destruct (operation _ _ op w) as [[r|x] w']; simpl;
      rewrite (alter_thrice _ _ _ _ _ _ Hs);
      eexists _, _; (split; [reflexivity|]);
      (split; [unfold same_identity; simpl; tauto|]);
      (split; [repeat constructor|]); simpl; intros _; left; eauto.
  - rewrite (rollbackSpan_effect w e spanId span op Hs Ho).
    destruct (reversible _ _ span), (rollback _ _ op) as [rb|]; try exact Hkeep.
    destruct (bool_decide (status _ _ span = COMPLETED)) eqn:Hst; [|exact Hkeep].
    apply bool_decide_eq_true_1 in Hst.
    destruct (rb w) as [[[]|x] w']; simpl.
    + rewrite (alter_stored _ _ _ _ Hs).
      eexists _, _. split; [reflexivity|].
      split; [unfold same_identity; simpl; tauto|].
      split; [repeat constructor|]. simpl. intros _. right. auto.
    + exists span, [entry spanId (Date_now w) "rollback_started";
                    entry spanId (Date_now w') "rollback_failed"].
      split; [now rewrite insert_id by assumption|].
      split; [unfold same_identity; tauto|].
      split; [repeat constructor|]. intros _. right. auto.
Qed.

Lemma stored_or_not (e : Engine) (spanId : string) :
  (exists span op, spans e !! spanId = Some span /\
                   operations e !! spanId = Some op) \/
  (spans e !! spanId = None \/ operations e !! spanId = None).
Proof.
  destruct (spans e !! spanId) as [span|], (operations e !! spanId) as [op|];
    eauto.
Qed.

Lemma lifecycle_unchanged (c : Call) (w : World) (e : Engine) (spanId : string) :
  is_lifecycle_call c spanId ->
  spans e !! spanId = None \/ operations e !! spanId = None ->
  after (w, e) c = (w, e).
Proof.
  intros Hc H. destruct (not_found_effect w e spanId H) as (H1 & H2 & H3).
  destruct Hc as [-> | [-> | ->]]; simpl; [rewrite H1|rewrite H2|rewrite H3];
    reflexivity.
Qed.

Lemma touches_only_refl (spanId : string) (e : Engine) : touches_only spanId e e.
Proof.
  unfold touches_only. repeat split; auto.
  - intros span H. exists span. unfold same_identity. tauto.
  - exists []. rewrite app_nil_r. auto.
Qed.

Lemma lifecycle_touches (c : Call) (w : World) (e : Engine) (spanId : string) :
  is_lifecycle_call c spanId -> touches_only spanId e (snd (after (w, e) c)).
Proof.
  intros Hc.
  destruct (stored_or_not e spanId) as [(span & op & Hs & Ho)|Hn].
  - destruct (lifecycle_update c w e spanId span op Hc Hs Ho)
      as (span' & suffix & -> & Hid & Hsuf & _).
    unfold touches_only, engine_with; simpl. split; [reflexivity|].
    split; [intros k Hk; now rewrite lookup_insert_ne by auto|].
    split; [|split].
    + intros x Hx. rewrite Hs in Hx. injection Hx as <-.
      exists span'. now rewrite lookup_insert_eq.
    + rewrite Hs. discriminate.
    + eauto.
  - rewrite (lifecycle_unchanged c w e spanId Hc Hn). apply touches_only_refl.
Qed.

(** No stored span has [args]: [createSpan] does not set the property and
    no method of the engine adds it. *)
Definition no_args (e : Engine) : Prop :=
  forall k span, spans e !! k = Some span -> args _ _ span = None.

Lemma after_no_args (c : Call) (s : St) :
  no_args (snd s) -> no_args (snd (after s c)).
Proof.
  destruct s as [w e]. cbn [snd]. intros He.
  assert (Hl : forall spanId, is_lifecycle_call c spanId ->
                 no_args (snd (after (w, e) c))).
  { intros spanId Hc k span Hk.
    destruct (lifecycle_touches c w e spanId Hc) as (_ & Hother & Hsame & Hnone & _).
    destruct (decide (k = spanId)) as [->|Hne].
    - destruct (spans e !! spanId) as [old|] eqn:Hold.
      + destruct (Hsame old eq_refl) as (span' & Hs' & Hid).
        rewrite Hs' in Hk. injection Hk as <-.
        destruct Hid as (_ & _ & _ & _ & _ & _ & ->). now apply (He spanId).
      + rewrite Hnone in Hk by reflexivity. discriminate.
    - rewrite Hother in Hk by assumption. now apply (He k). }
  destruct c as [ty op parent|spanId|spanId|spanId].
  - cbn [after]. rewrite createSpan_effect.
    destruct (fresh_span_id w) as [spanId w1].
    intros k span Hk. cbn [snd Span.spans] in Hk.
    destruct (decide (k = spanId)) as [->|Hne].
    + rewrite lookup_insert_eq in Hk. injection Hk as <-. reflexivity.
    + rewrite lookup_insert_ne in Hk by auto. now apply (He k).
  - apply (Hl spanId). left. reflexivity.
  - apply (Hl spanId). right. left. reflexivity.
  - apply (Hl spanId). right. right. reflexivity.
Qed.

Lemma after_all_no_args (cs : list Call) :
  forall s, no_args (snd s) -> no_args (snd (after_all s cs)).
Proof.
  unfold after_all.
  induction cs as [|c cs IH]; intros s Hs; simpl; [exact Hs|].
  apply IH. now apply after_no_args.
Qed.

Lemma created_entries_app (k : string) (l suffix : list TimelineEntry) :
  In k (map entry_spanId
          (List.filter (fun t => String.eqb (entry_event t) "span_created") l)) ->
  In k (map entry_spanId
          (List.filter (fun t => String.eqb (entry_event t) "span_created")
             (l ++ suffix))).
Proof.
  intros H. rewrite List.filter_app, map_app, in_app_iff. now left.
Qed.

Lemma consistent_after (c : Call) (w : World) (e : Engine) :
  consistent e -> timeline_of_stored_spans e ->
  consistent (snd (after (w, e) c)) /\
  timeline_of_stored_spans (snd (after (w, e) c)).
Proof.
  intros Hc Ht.
  assert (Hlife : forall spanId, is_lifecycle_call c spanId ->
    consistent (snd (after (w, e) c)) /\
    timeline_of_stored_spans (snd (after (w, e) c))).
  { intros spanId Hcall.
    destruct (stored_or_not e spanId) as [(span & op & Hs & Ho)|Hn];
      [|now rewrite (lifecycle_unchanged c w e spanId Hcall Hn)].
    destruct (lifecycle_update c w e spanId span op Hcall Hs Ho)
      as (span' & suffix & -> & Hid & Hsuf & Hend).
    destruct (Hc _ _ Hs) as (Hk & (op0 & Hop0 & Hrev) & Hdone & Hcreated).
    destruct Hid as (Hi1 & _ & _ & _ & _ & Hi6 & _).
    split.
    - intros k x Hx. unfold engine_with in *; simpl in *.
      rewrite lookup_insert in Hx.
      destruct (decide (spanId = k)) as [<-|Hne].
      + injection Hx as <-. split; [congruence|].
        split; [exists op0; split; [exact Hop0|congruence]|].
        split; [|now apply created_entries_app].
        intros Hst. destruct (Hend Hst) as [H|[H1 H2]]; [exact H|].
        rewrite H2. auto.
      + destruct (Hc _ _ Hx) as (H1 & H2 & H3 & H4).
        repeat split; auto. now apply created_entries_app.
    - unfold timeline_of_stored_spans, engine_with in *; simpl.
      apply Forall_app. split.
      + eapply List.Forall_impl; [|exact Ht]. intros t Hs'. simpl in Hs'.
        rewrite lookup_insert_is_Some.
        destruct (decide (spanId = entry_spanId t)); auto.
      + eapply List.Forall_impl; [|exact Hsuf]. intros t ->. simpl.
        rewrite lookup_insert_eq. eauto. }
  destruct c as [ty op parent|spanId|spanId|spanId];
    try (apply (Hlife spanId); unfold is_lifecycle_call; auto; fail).
  simpl. rewrite createSpan_effect.
  destruct (fresh_span_id w) as [spanId w1]. simpl. split.
  - intros k x Hx. simpl in *. rewrite lookup_insert in Hx.
    destruct (decide (spanId = k)) as [<-|Hne].
    + injection Hx as <-. simpl. split; [reflexivity|].
      split; [exists op; rewrite lookup_insert_eq; auto|].
      split; [intros [H|H]; discriminate|].
      rewrite List.filter_app, map_app, in_app_iff. right. simpl. now left.
    + destruct (Hc _ _ Hx) as (H1 & (op0 & H2 & H2') & H3 & H4).
      split; [exact H1|].
      split; [exists op0; rewrite lookup_insert_ne by auto; auto|].
      split; [exact H3|]. now apply created_entries_app.
  - unfold timeline_of_stored_spans in *; simpl. apply Forall_app. split.
    + eapply List.Forall_impl; [|exact Ht]. intros t Hs'. simpl in Hs'.
      rewrite lookup_insert_is_Some.
      destruct (decide (spanId = entry_spanId t)); auto.
    + repeat constructor. simpl. rewrite lookup_insert_eq. eauto.
Qed.

Lemma after_all_timeline (cs : list Call) :
  forall s, exists suffix,
    timeline (snd (after_all s cs)) = timeline (snd s) ++ suffix.
Proof.
  unfold after_all.
  induction cs as [|c cs IH]; intros [w e]; simpl.
  - exists []. now rewrite app_nil_r.
  - destruct (IH (after (w, e) c)) as [suf2 ->].
    assert (H1 : exists suf1, timeline (snd (after (w, e) c)) = timeline e ++ suf1).
    { destruct c as [ty op parent|spanId|spanId|spanId].
      - simpl. rewrite createSpan_effect.
        destruct (fresh_span_id w) as [spanId w1]. simpl. eauto.
      - destruct (lifecycle_touches (SimulateSpan spanId) w e spanId)
          as (_ & _ & _ & _ & suf & H & _); [left; reflexivity|eauto].
      - destruct (lifecycle_touches (ExecuteSpan spanId) w e spanId)
          as (_ & _ & _ & _ & suf & H & _); [right; left; reflexivity|eauto].
      - destruct (lifecycle_touches (RollbackSpan spanId) w e spanId)
          as (_ & _ & _ & _ & suf & H & _); [right; right; reflexivity|eauto]. }
    destruct H1 as [suf1 ->]. exists (suf1 ++ suf2). now rewrite app_assoc.
Qed.

(** X1. A call for an identifier under which no span, or no operation, is
    stored is refused with [SpanNotFound], by each of [simulateSpan],
    [executeSpan] and [rollbackSpan], and leaves the world and the engine
    as they were. *)
Theorem unknown_span_refused (w : World) (e : Engine) (spanId : string) :
  spans e !! spanId = None \/ operations e !! spanId = None ->
  simulateSpan spanId (w, e) = (Throw (SpanNotFound _ spanId), (w, e)) /\
  executeSpan spanId (w, e) = (Throw (SpanNotFound _ spanId), (w, e)) /\
  rollbackSpan spanId (w, e) = (Throw (SpanNotFound _ spanId), (w, e)).
Proof. apply not_found_effect. Qed.

(** X2. [executeSpan] on a stored span. When the span awaits approval the
    bound operation runs once: if it resolves, its value is returned and
    the span is [completed]; if it rejects, the rejection is re-raised and
    the span is [failed]; either way the end time is the clock reading
    after the operation and nothing else of the span changes. In any other
    status the call is refused with [NotReadyForExecution], the operation
    does not run and nothing changes. *)
Theorem executeSpan_contract (w : World) (e : Engine) (spanId : string)
    (span : Context) (op : Operation) :
  spans e !! spanId = Some span -> operations e !! spanId = Some op ->
  (status _ _ span = AWAITING_APPROVAL ->
   match operation _ _ op w with
   | (Ok r, w') =>
       fst (executeSpan spanId (w, e)) = Ok r /\
       fst (snd (executeSpan spanId (w, e))) = w' /\
       getSpan _ _ _ (snd (snd (executeSpan spanId (w, e)))) spanId
       = Some (with_endTime _ _ (Date_now w') (with_status _ _ COMPLETED span))
   | (Throw x, w') =>
       fst (executeSpan spanId (w, e)) = Throw (Raised _ x) /\
       fst (snd (executeSpan spanId (w, e))) = w' /\
       getSpan _ _ _ (snd (snd (executeSpan spanId (w, e)))) spanId
       = Some (with_endTime _ _ (Date_now w') (with_status _ _ FAILED span))
   end) /\
  (status _ _ span <> AWAITING_APPROVAL ->
   executeSpan spanId (w, e) = (Throw (NotReadyForExecution _ spanId), (w, e))).
Proof.
  intros Hs Ho. rewrite (executeSpan_effect w e spanId span op Hs Ho). split.
  - intros Hst. rewrite bool_decide_eq_true_2 by assumption.
    destruct (operation _ _ op w) as [[r|x] w']; simpl;
      unfold getSpan; simpl; rewrite (alter_thrice _ _ _ _ _ _ Hs);
      rewrite lookup_insert_eq; auto.
  - intros Hst. now rewrite bool_decide_eq_false_2 by assumption.
Qed.

(** X3. Whatever calls are made on a new engine, and whatever they return,
    every stored span is stored under its own identifier, has an operation
    stored under the same identifier, is flagged reversible exactly when
    that operation has a rollback procedure, has an end time once it is
    [completed] or [rolled_back], and has a [span_created] entry in the
    timeline; and every timeline entry names a stored span. *)
Theorem engine_consistent (w : World) (cs : list Call) :
  consistent (snd (after_all (w, empty_engine) cs)) /\
  timeline_of_stored_spans (snd (after_all (w, empty_engine) cs)).
Proof.
  assert (H : forall cs s, consistent (snd s) -> timeline_of_stored_spans (snd s) ->
    consistent (snd (after_all s cs)) /\
    timeline_of_stored_spans (snd (after_all s cs))).
  { unfold after_all. clear cs. induction cs as [|c cs IH]; intros [w0 e] Hc Ht.
    - auto.
    - simpl. destruct (consistent_after c w0 e Hc Ht) as [Hc' Ht'].
      destruct (after (w0, e) c) as [w1 e1] eqn:E. now apply IH. }
  apply H.
  - intros k span Hk.
    change (spans (w, empty_engine).2) with (∅ : gmap string Context) in Hk.
    rewrite lookup_empty in Hk. discriminate.
  - constructor.
Qed.

(** X4. The timeline is append-only: after any sequence of calls, the
    timeline starts with the timeline as it was before. *)
Theorem timeline_append_only (s : St) (cs : list Call) :
  exists suffix,
    timeline (snd (after_all s cs)) = timeline (snd s) ++ suffix.
Proof. apply after_all_timeline. Qed.

(** X6. [simulateSpan], [executeSpan] and [rollbackSpan] for a span touch
    nothing but that span: the operations and all other spans stay as they
    are, the span keeps its identifier, parent, type, start time, metadata,
    reversibility flag and arguments, no span appears or disappears, and
    the timeline only grows, by entries for that span. *)
Theorem lifecycle_touches_one_span (w : World) (e : Engine) (spanId : string) :
  touches_only spanId e (snd (snd (simulateSpan spanId (w, e)))) /\
  touches_only spanId e (snd (snd (executeSpan spanId (w, e)))) /\
  touches_only spanId e (snd (snd (rollbackSpan spanId (w, e)))).
Proof.
  split; [|split].
  - apply (lifecycle_touches (SimulateSpan spanId) w e spanId). now left.
  - apply (lifecycle_touches (ExecuteSpan spanId) w e spanId). right. now left.
  - apply (lifecycle_touches (RollbackSpan spanId) w e spanId). right. now right.
Qed.

Lemma sort_ext {A} (c1 c2 : A -> A -> Z) (l : list A) :
  (forall a b, c1 a b = c2 a b) -> Obs.sort c1 l = Obs.sort c2 l.
Proof.
  intros H. induction l as [|x l IH]; simpl; [reflexivity|]. rewrite IH.
  generalize (Obs.sort c2 l). intros l'.
  induction l' as [|y l' IH']; simpl; [reflexivity|].
  rewrite H, IH'. reflexivity.
Qed.

(** X5. [getTimeline] returns the entries of the timeline, each as often
    as it was recorded, ordered by timestamp, oldest first. *)
Theorem getTimeline_oldest_first (e : Engine) :
  Permutation (getTimeline e) (timeline e) /\
  StronglySorted (fun a b => entry_timestamp a <= entry_timestamp b)
    (getTimeline e).
Proof.
  unfold getTimeline.
  rewrite (sort_ext oldest_first
             (fun a b => - entry_timestamp b - - entry_timestamp a))
    by (intros a b; unfold oldest_first; lia).
  split.
  - apply (Obs.sort_perm (fun t => - entry_timestamp t)).
  - pose proof (Obs.sort_sorted (fun t => - entry_timestamp t) (timeline e)) as H.
    induction H as [|x l Hl IH Hx]; constructor; [exact IH|].
    eapply List.Forall_impl; [|exact Hx].
    unfold Obs.newest_before. intros; lia.
Qed.

(** X7. The whole life of a reversible span whose procedures all resolve:
    [createSpan] returns the fresh identifier and the span is [pending];
    [simulateSpan] returns the diff and the span awaits approval;
    [executeSpan] returns the result and the span is [completed];
    [rollbackSpan] returns and the span is [rolled_back]. The seven
    timeline entries of the span are added in this order. *)
Theorem reversible_lifecycle (ty : SpanType) (op : Operation)
    (parent : option string) (w : World) (e : Engine) (spanId : string)
    (w1 w2 w3 w4 : World) (d : SpanDiff Val) (r : Val)
    (rb : Proc World Val unit) :
  fresh_span_id w = (spanId, w1) ->
  rollback _ _ op = Some rb ->
  simulate _ _ op w1 = (Ok d, w2) ->
  operation _ _ op w2 = (Ok r, w3) ->
  rb w3 = (Ok tt, w4) ->
  let s1 := snd (createSpan ty op parent (w, e)) in
  let s2 := snd (simulateSpan spanId s1) in
  let s3 := snd (executeSpan spanId s2) in
  let s4 := snd (rollbackSpan spanId s3) in
  fst (createSpan ty op parent (w, e)) = Ok spanId /\
  status_of s1 spanId = Some PENDING /\
  fst (simulateSpan spanId s1) = Ok d /\
  status_of s2 spanId = Some AWAITING_APPROVAL /\
  fst (executeSpan spanId s2) = Ok r /\
  status_of s3 spanId = Some COMPLETED /\
  fst (rollbackSpan spanId s3) = Ok tt /\
  status_of s4 spanId = Some ROLLED_BACK /\
  fst s4 = w4 /\
  map entry_event (timeline (snd s4))
  = map entry_event (timeline e)
    ++ ["span_created"; "simulation_started"; "simulation_completed";
        "execution_started"; "execution_completed";
        "rollback_started"; "rollback_completed"].
Proof.
  intros Hid Hrb Hsim Hop Hrun. cbv zeta.
  rewrite createSpan_effect, Hid. cbn [fst snd].
  set (span1 := {| id := spanId; parentId := parent; type := ty;
                   status := PENDING; startTime := Date_now w1; endTime := None;
                   metadata := ∅;
                   reversible := bool_decide (is_Some (rollback _ _ op));
                   args := None |}).
  set (e1 := {| Span.spans := <[spanId := span1]> (spans e);
                Span.operations := <[spanId := op]> (operations e);
                Span.timeline := timeline e ++ [entry spanId (Date_now w1) "span_created"] |}).
  assert (Hs1 : spans e1 !! spanId = Some span1) by apply lookup_insert_eq.
  assert (Ho1 : operations e1 !! spanId = Some op) by apply lookup_insert_eq.
  rewrite (simulateSpan_effect w1 e1 spanId span1 op Hs1 Ho1), Hsim.
  cbn [fst snd]. rewrite (alter_twice _ _ _ _ _ Hs1).
  set (span2 := with_status _ _ AWAITING_APPROVAL (with_status _ _ SIMULATING span1)).
  set (e2 := engine_with (<[spanId := span2]> (spans e1)) e1 _).
  assert (Hs2 : spans e2 !! spanId = Some span2) by apply lookup_insert_eq.
  assert (Ho2 : operations e2 !! spanId = Some op) by exact Ho1.
  rewrite (executeSpan_effect w2 e2 spanId span2 op Hs2 Ho2), Hop.
  cbn [status span2 with_status bool_decide decide_rel]. simpl bool_decide.
  cbn [fst snd]. rewrite (alter_thrice _ _ _ _ _ _ Hs2).
  set (span3 := with_endTime _ _ (Date_now w3)
                  (with_status _ _ COMPLETED (with_status _ _ EXECUTING span2))).
  set (e3 := engine_with (<[spanId := span3]> (spans e2)) e2 _).
  assert (Hs3 : spans e3 !! spanId = Some span3) by apply lookup_insert_eq.
  assert (Ho3 : operations e3 !! spanId = Some op) by exact Ho1.
  rewrite (rollbackSpan_effect w3 e3 spanId span3 op Hs3 Ho3).
  assert (Hrev : reversible _ _ span3 = true).
  { simpl. rewrite Hrb. apply bool_decide_eq_true_2. eauto. }
  rewrite Hrev, Hrb. simpl bool_decide. rewrite Hrun. cbn [fst snd].
  rewrite (alter_stored _ _ _ _ Hs3).
  unfold status_of, getSpan. cbn [fst snd].
  rewrite Hs1, Hs2, Hs3. unfold engine_with at 1. cbn [Span.spans].
  rewrite lookup_insert_eq.
  repeat split.
  unfold engine_with, e3, e2, e1, engine_with. simpl.
  rewrite !map_app. simpl. rewrite <- !app_assoc. reflexivity.
Qed.

End Laws.

(** *** The laws at the concrete world of the engine's examples *)

Lemma unknown_span_refused_witness :
  simulate1 (0, empty_engine) = (Throw (SpanNotFound _ "span_1"), (0, empty_engine)) /\
  execute1 (0, empty_engine) = (Throw (SpanNotFound _ "span_1"), (0, empty_engine)) /\
  rollback1 (0, empty_engine) = (Throw (SpanNotFound _ "span_1"), (0, empty_engine)).
Proof.
  apply (unknown_span_refused Z string unit clock_now 0 empty_engine "span_1").
  left. reflexivity.
Defined.

Lemma executeSpan_contract_witness :
  (* a pending span is refused *)
  execute1 (create1 plain_op)
    = (Throw (NotReadyForExecution _ "span_1"), create1 plain_op) /\
  (* a span that awaits approval is executed; the clock reads 2 afterwards *)
  fst (execute1 (snd (simulate1 (create1 plain_op)))) = Ok "written" /\
  (endTime _ _ <$>
     getSpan _ _ _ (snd (snd (execute1 (snd (simulate1 (create1 plain_op))))))
       "span_1") = Some (Some 2).
Proof.
  split.
  - assert (Hs : spans Z string unit (snd (create1 plain_op)) !! "span_1"
                 = Some Gov.stored_write_span) by (vm_compute; reflexivity).
    assert (Ho : operations Z string unit (snd (create1 plain_op)) !! "span_1"
                 = Some plain_op) by (vm_compute; reflexivity).
    destruct (executeSpan_contract Z string unit clock_now
                (fst (create1 plain_op)) (snd (create1 plain_op)) "span_1"
                _ _ Hs Ho) as [_ H].
    apply H. discriminate.
  - set (s2 := snd (simulate1 (create1 plain_op))).
    assert (Hs : spans Z string unit (snd s2) !! "span_1"
                 = Some (with_status _ _ AWAITING_APPROVAL Gov.stored_write_span))
      by (vm_compute; reflexivity).
    assert (Ho : operations Z string unit (snd s2) !! "span_1" = Some plain_op)
      by (vm_compute; reflexivity).
    destruct (executeSpan_contract Z string unit clock_now
                (fst s2) (snd s2) "span_1" _ _ Hs Ho) as [H _].
    specialize (H eq_refl). simpl in H. destruct H as (H1 & _ & H3).
    replace (fst s2, snd s2) with s2 in * by (destruct s2; reflexivity).
    unfold execute1. split; [exact H1|]. rewrite H3. reflexivity.
Defined.

Lemma reversible_lifecycle_witness :
  let s3 := snd (execute1 (snd (simulate1 (create1 undoable_op)))) in
  fst (rollback1 s3) = Ok tt /\
  status_of (snd (rollback1 s3)) "span_1" = Some ROLLED_BACK /\
  map entry_event (timeline _ _ _ (snd (snd (rollback1 s3))))
  = ["span_created"; "simulation_started"; "simulation_completed";
     "execution_started"; "execution_completed";
     "rollback_started"; "rollback_completed"].
Proof.
  pose proof (reversible_lifecycle Z string unit clock_now one_id WRITE
                undoable_op None 0 empty_engine "span_1" 0 1 2 3
                no_changes "written" (fun w => (Ok tt, w + 1)%Z)
                eq_refl eq_refl eq_refl eq_refl eq_refl) as H.
  cbv zeta in H. destruct H as (_ & _ & _ & _ & _ & _ & H7 & H8 & _ & H10).
  cbv zeta. unfold rollback1, execute1, simulate1, create1.
  split; [exact H7|]. split; [exact H8|exact H10].
Defined.

End SpanLaws.

(** ** Laws of the approval workflow *)

Module GovLaws.

Import Span Gov.

(** What [approveSpan] and [rejectSpan] may touch in an approval: the
    fields that only [requestApproval] writes, and the users that are
    listed, are the same in [a] and [b]. *)
Definition same_request (a b : GovernanceApproval) : Prop :=
  approval_id a = approval_id b /\ approval_spanId a = approval_spanId b /\
  requestedBy a = requestedBy b /\ requestedAt a = requestedAt b /\
  riskAssessment a = riskAssessment b /\ expiresAt a = expiresAt b /\
  map userId (approvers a) = map userId (approvers b).

(** [g'] differs from [g] at most in the approval stored under
    [approvalId]. *)
Definition touches_approval (approvalId : string)
    (g g' : SecurityGovernanceEngine) : Prop :=
  policies g' = policies g /\ currentUser g' = currentUser g /\
  (forall k, k <> approvalId -> approvals g' !! k = approvals g !! k) /\
  (forall a, approvals g !! approvalId = Some a ->
     exists a', approvals g' !! approvalId = Some a' /\ same_request a' a) /\
  (approvals g !! approvalId = None -> approvals g' !! approvalId = None).

Lemma touches_approval_refl (approvalId : string) (g : SecurityGovernanceEngine) :
  touches_approval approvalId g g.
Proof.
  unfold touches_approval, same_request. repeat split; auto.
  intros a Ha. exists a. tauto.
Qed.

Lemma decide_touches (now : Z) (g : SecurityGovernanceEngine)
    (approvalId : string) (d : Verdict) :
  touches_approval approvalId g (decide_once now approvalId g d).
Proof.
  assert (Hstore : forall a l st, approvals g !! approvalId = Some a ->
    map userId l = map userId (approvers a) ->
    touches_approval approvalId g
      (store_approval g approvalId (with_approvers l st a))).
  { intros a l st Ha Hl. unfold touches_approval, store_approval; simpl.
    split; [reflexivity|]. split; [reflexivity|].
    split; [intros k Hk; now rewrite lookup_insert_ne by auto|]. split.
    - intros a0 Ha0. rewrite Ha in Ha0. injection Ha0 as <-.
      rewrite lookup_insert_eq. eexists. split; [reflexivity|].
      unfold same_request; simpl. tauto.
    - rewrite Ha. discriminate. }
  destruct d as [user comment|user comment]; simpl.
  - unfold approveSpan.
    destruct (approvals g !! approvalId) as [a|] eqn:Ha;
      [|apply touches_approval_refl].
    destruct (negb _); [apply touches_approval_refl|].
    destruct (find _ _); [|apply touches_approval_refl].
    simpl. apply Hstore; [reflexivity|apply update_first_users].
  - unfold rejectSpan.
    destruct (approvals g !! approvalId) as [a|] eqn:Ha;
      [|apply touches_approval_refl].
    destruct (find _ _); [|apply touches_approval_refl].
    simpl. apply Hstore; [reflexivity|apply update_first_users].
Qed.

(** X8. [approveSpan] and [rejectSpan] refuse an unknown approval with
    [ApprovalNotFound] and a user who is not among the approvers with
    [NotAnApprover] ([approveSpan] only when the approval is pending: the
    test of the status comes first); a refusal changes nothing. *)
Theorem decision_refused (now : Z) (g : SecurityGovernanceEngine)
    (approvalId user : string) (comment : option string) :
  (approvals g !! approvalId = None ->
   approveSpan now g approvalId user comment
     = (Throw (ApprovalNotFound approvalId), g) /\
   rejectSpan now g approvalId user comment
     = (Throw (ApprovalNotFound approvalId), g)) /\
  (forall a, approvals g !! approvalId = Some a -> ~ listed user a ->
   rejectSpan now g approvalId user comment = (Throw (NotAnApprover user), g) /\
   approveSpan now g approvalId user comment
     = (Throw (if bool_decide (approval_status a = PENDING_APPROVAL)
               then NotAnApprover user
               else ApprovalNotPending approvalId), g)).
Proof.
  split.
  - intros Ha. unfold approveSpan, rejectSpan. rewrite Ha. auto.
  - intros a Ha Hl. unfold approveSpan, rejectSpan. rewrite Ha.
    assert (Hf : find (is_user user) (approvers a) = None).
    { destruct (find (is_user user) (approvers a)) as [x|] eqn:Hf; [|reflexivity].
      exfalso. apply Hl. apply find_some in Hf as [Hin Hu].
      unfold is_user in Hu. apply bool_decide_eq_true_1 in Hu. subst user.
      unfold listed. now apply in_map. }
    rewrite Hf. split; [reflexivity|].
    destruct (bool_decide (approval_status a = PENDING_APPROVAL)); reflexivity.
Qed.

(** X9. A decision on one approval, accepted or refused, touches nothing
    but that approval: the policies, the current user and every other
    approval stay as they are, the approval stays stored, and it keeps its
    span, requester, risk assessment, expiry and list of users. The same
    holds for any sequence of decisions on it. *)
Theorem decisions_touch_one_approval (now : Z) (approvalId : string)
    (ds : list Verdict) (g : SecurityGovernanceEngine) :
  touches_approval approvalId g (decide_all now approvalId g ds).
Proof.
  unfold decide_all. revert g.
  induction ds as [|d ds IH]; intros g; simpl; [apply touches_approval_refl|].
  pose proof (decide_touches now g approvalId d) as H1.
  pose proof (IH (decide_once now approvalId g d)) as H2.
  destruct H1 as (P1 & U1 & K1 & A1 & N1), H2 as (P2 & U2 & K2 & A2 & N2).
  unfold touches_approval. split; [congruence|]. split; [congruence|].
  split; [intros k Hk; rewrite K2, K1; auto|]. split.
  - intros a Ha. destruct (A1 a Ha) as (a1 & Ha1 & S1).
    destruct (A2 a1 Ha1) as (a2 & Ha2 & S2). exists a2. split; [exact Ha2|].
    unfold same_request in *. intuition congruence.
  - auto.
Qed.

(** *** Unanimous approval *)

Lemma update_first_elems (user : string) (st : ApproverState) (now : Z)
    (comment : option string) (l : list ApprovalStatus) :
  NoDup (map userId l) ->
  forall x, In x (update_first (is_user user) (decide_approver st now comment) l) ->
    (userId x = user /\ approver_status x = st) \/ (In x l /\ userId x <> user).
Proof.
  induction l as [|y l IH]; intros Hnd x Hx; simpl in *; [contradiction|].
  apply NoDup_cons in Hnd as [Hy Hnd].
  unfold is_user at 1 in Hx.
  destruct (bool_decide (userId y = user)) eqn:Hu.
  - apply bool_decide_eq_true_1 in Hu. destruct Hx as [<-|Hx].
    + left. simpl. auto.
    + right. split; [now right|]. intros Heq. apply Hy.
      rewrite Hu, <- Heq. apply list_elem_of_In. now apply in_map.
  - apply bool_decide_eq_false_1 in Hu. destruct Hx as [<-|Hx].
    + right. auto.
    + destruct (IH Hnd x Hx) as [H|[H1 H2]]; auto.
Qed.

Lemma forallb_false_witness {A} (p : A -> bool) (l : list A) :
  forallb p l = false -> exists x, In x l /\ p x = false.
Proof.
  induction l as [|y l IH]; simpl; [discriminate|].
  destruct (p y) eqn:Hy; simpl.
  - intros H. destruct (IH H) as (x & Hx & Hp). eauto.
  - eauto.
Qed.

Definition approvals_by (comment : string -> option string) (us : list string)
  : list Verdict :=
  map (fun u => Approve u (comment u)) us.

Lemma approved_stays (now : Z) (approvalId : string)
    (comment : string -> option string) (us : list string) :
  forall g a, approvals g !! approvalId = Some a ->
    approval_status a = APPROVED ->
    decide_all now approvalId g (approvals_by comment us) = g.
Proof.
  unfold decide_all, approvals_by.
  induction us as [|u us IH]; intros g a Ha Hst; simpl; [reflexivity|].
  rewrite (approveSpan_not_pending now g approvalId u (comment u) a Ha)
    by (rewrite Hst; discriminate).
  simpl. now apply (IH g a).
Qed.

Lemma approve_all (now : Z) (approvalId : string)
    (comment : string -> option string) (us : list string) :
  forall g a, approvals g !! approvalId = Some a ->
    approval_status a = PENDING_APPROVAL ->
    NoDup (map userId (approvers a)) ->
    us <> [] ->
    (forall u, In u us -> listed u a) ->
    (forall x, In x (approvers a) -> approver_status x <> AP_APPROVED ->
               In (userId x) us) ->
    status_at (decide_all now approvalId g (approvals_by comment us)) approvalId
    = Some APPROVED.
Proof.
  induction us as [|u us IH]; intros g a Ha Hst Hnd Hne Hl Hcov; [congruence|].
  unfold decide_all, approvals_by. simpl.
  fold (approvals_by comment us).
  change (fold_left (decide_once now approvalId) (approvals_by comment us) ?g0)
    with (decide_all now approvalId g0 (approvals_by comment us)).
  unfold approveSpan. rewrite Ha.
  rewrite bool_decide_eq_true_2 by assumption. simpl.
  destruct (find_is_user u (approvers a)) as [x0 Hx0]; [apply Hl; now left|].
  rewrite Hx0. simpl.
  set (l' := update_first (is_user u) (decide_approver AP_APPROVED now (comment u))
               (approvers a)).
  set (st' := if forallb _ l' then APPROVED else approval_status a).
  set (a1 := with_approvers l' st' a).
  set (g1 := store_approval g approvalId a1).
  assert (Ha1 : approvals g1 !! approvalId = Some a1) by apply lookup_insert_eq.
  assert (Hus : map userId l' = map userId (approvers a))
    by apply update_first_users.
  destruct (forallb (fun x => bool_decide (approver_status x = AP_APPROVED)) l')
    eqn:Hall.
  - rewrite (approved_stays now approvalId comment us g1 a1 Ha1) by reflexivity.
    unfold status_at. rewrite Ha1. reflexivity.
  - destruct (forallb_false_witness _ _ Hall) as (x & Hx & Hpx).
    apply bool_decide_eq_false_1 in Hpx.
    assert (Hrest : forall y, In y l' -> approver_status y <> AP_APPROVED ->
                               In (userId y) us).
    { intros y Hy Hny.
      destruct (update_first_elems u AP_APPROVED now (comment u) _ Hnd y Hy)
        as [[_ H]|[Hin Hnu]]; [contradiction|].
      destruct (Hcov y Hin Hny) as [H|H]; [congruence|exact H]. }
    apply (IH g1 a1); auto.
    + simpl. now rewrite Hus.
    + intros ->. apply (Hrest x Hx Hpx).
    + intros v Hv. unfold listed. simpl. rewrite Hus. apply Hl. now right.
Qed.

(** X10. When the users listed on a pending approval are all different and
    each of them approves once, in any order, the approval ends
    [approved]. *)
Theorem unanimous_approval (now : Z) (g : SecurityGovernanceEngine)
    (approvalId : string) (a : GovernanceApproval)
    (comment : string -> option string) (us : list string) :
  approvals g !! approvalId = Some a ->
  approval_status a = PENDING_APPROVAL ->
  NoDup (map userId (approvers a)) ->
  approvers a <> [] ->
  Permutation us (map userId (approvers a)) ->
  status_at (decide_all now approvalId g (approvals_by comment us)) approvalId
  = Some APPROVED.
Proof.
  intros Ha Hst Hnd Hne Hp.
  apply (approve_all now approvalId comment us g a); auto.
  - intros ->. apply Permutation_nil in Hp.
    destruct (approvers a); [congruence|discriminate].
  - intros u Hu. unfold listed. eapply Permutation_in; eauto.
  - intros x Hx _. eapply Permutation_in; [symmetry; exact Hp|].
    now apply in_map.
Qed.

(** X11. An approval without approvers accepts no decision: every
    [approveSpan] and [rejectSpan] on it is refused and the engine stays
    as it is, so the approval keeps its status for ever. *)
Theorem approval_without_approvers_is_stuck (now : Z)
    (g : SecurityGovernanceEngine) (approvalId : string)
    (a : GovernanceApproval) (ds : list Verdict) :
  approvals g !! approvalId = Some a ->
  approvers a = [] ->
  decide_all now approvalId g ds = g.
Proof.
  intros Ha He. unfold decide_all.
  induction ds as [|d ds IH]; simpl; [reflexivity|].
  assert (H1 : decide_once now approvalId g d = g).
  { destruct d as [user comment|user comment]; simpl.
    - unfold approveSpan. rewrite Ha, He. simpl. now destruct (negb _).
    - unfold rejectSpan. rewrite Ha, He. reflexivity. }
  rewrite H1. exact IH.
Qed.

(** *** Requests *)

(** The users asked to approve a span, by its type and its reversibility
    flag. *)
Definition approvers_for (ty : SpanType) (reversible : bool) : list string :=
  match reversible, ty with
  | true, (WRITE | GUI_AUTOMATION) => ["approver_1"]
  | true, _ => []
  | false, (WRITE | GUI_AUTOMATION) => ["approver_1"; "approver_2"; "security_admin"]
  | false, _ => ["approver_1"; "approver_2"]
  end.

Definition approval_name (now : Z) : string := "approval_" +:+ pretty now.

Lemma request_stored {World Val Args : Type} (idNow requestedNow expiresNow : Z)
    (se : SpanEngine World Val Args) (g : SecurityGovernanceEngine)
    (spanId : string) (user : LogLineIdentity) (span : SpanContext Val Args) :
  currentUser g = Some user ->
  getSpan _ _ _ se spanId = Some span ->
  exists a,
    requestApproval idNow requestedNow expiresNow se g spanId
      = (Ok (approval_name idNow), store_approval g (approval_name idNow) a) /\
    approval_id a = approval_name idNow /\
    approval_spanId a = spanId /\
    requestedBy a = identity_id user /\
    requestedAt a = requestedNow /\
    expiresAt a = (expiresNow + 86400000)%Z /\
    approval_status a = PENDING_APPROVAL /\
    approvers a
      = map pending_approver
          (approvers_for (type _ _ span) (reversible _ _ span)) /\
    assessSpanRisk _ _ _ se spanId = Ok (riskAssessment a).
Proof.
  unfold requestApproval. intros -> Hs. unfold assessSpanRisk. rewrite Hs.
  destruct (type _ _ span), (reversible _ _ span); simpl;
    (eexists; split; [reflexivity|]; simpl; repeat split; reflexivity).
Qed.

(** X12. [requestApproval] is refused with [NoAuthenticatedUser] when no
    user is current and with [GovSpanNotFound] when the span is not
    stored, and then changes nothing. Otherwise it returns the identifier
    built from its first reading of the clock and stores under it a pending
    approval of the span, requested by the current user at the second
    reading, which expires a day after the third reading and lists, all
    pending: nobody for a reversible span that neither writes nor automates
    the GUI, one approver for a reversible span that does, two for an
    irreversible span that does not, and three, the security administrator
    among them, for an irreversible one that does. *)
Theorem requestApproval_contract {World Val Args : Type}
    (idNow requestedNow expiresNow : Z)
    (se : SpanEngine World Val Args) (g : SecurityGovernanceEngine)
    (spanId : string) :
  (currentUser g = None ->
   requestApproval idNow requestedNow expiresNow se g spanId
     = (Throw NoAuthenticatedUser, g)) /\
  (forall user, currentUser g = Some user -> getSpan _ _ _ se spanId = None ->
   requestApproval idNow requestedNow expiresNow se g spanId
     = (Throw (GovSpanNotFound spanId), g)) /\
  (forall user span, currentUser g = Some user ->
   getSpan _ _ _ se spanId = Some span ->
   exists a,
     requestApproval idNow requestedNow expiresNow se g spanId
       = (Ok (approval_name idNow), store_approval g (approval_name idNow) a) /\
     approval_id a = approval_name idNow /\
     approval_spanId a = spanId /\
     requestedBy a = identity_id user /\
     requestedAt a = requestedNow /\
     expiresAt a = (expiresNow + 86400000)%Z /\
     approval_status a = PENDING_APPROVAL /\
     approvers a
       = map pending_approver
           (approvers_for (type _ _ span) (reversible _ _ span)) /\
     assessSpanRisk _ _ _ se spanId = Ok (riskAssessment a)).
Proof.
  split; [|split].
  - unfold requestApproval. intros ->. reflexivity.
  - unfold requestApproval. intros user -> Hs. unfold assessSpanRisk.
    rewrite Hs. reflexivity.
  - intros user span Hu Hs. now apply request_stored.
Qed.

(** X13. The identifier of an approval is built from the first clock
    reading alone: of two requests whose first readings are equal the
    second replaces the first, which is lost, whatever the spans and the
    later readings. *)
Theorem requests_at_one_reading_collide {World Val Args : Type}
    (idNow requested1 expires1 requested2 expires2 : Z)
    (se : SpanEngine World Val Args) (g : SecurityGovernanceEngine)
    (spanId1 spanId2 : string) :
  is_Some (currentUser g) ->
  is_Some (getSpan _ _ _ se spanId1) ->
  is_Some (getSpan _ _ _ se spanId2) ->
  let g1 := snd (requestApproval idNow requested1 expires1 se g spanId1) in
  let g2 := snd (requestApproval idNow requested2 expires2 se g1 spanId2) in
  fst (requestApproval idNow requested1 expires1 se g spanId1)
    = Ok (approval_name idNow) /\
  fst (requestApproval idNow requested2 expires2 se g1 spanId2)
    = Ok (approval_name idNow) /\
  (approval_spanId <$> approvals g1 !! approval_name idNow) = Some spanId1 /\
  (approval_spanId <$> approvals g2 !! approval_name idNow) = Some spanId2 /\
  dom (approvals g2) = dom (approvals g1).
Proof.
  intros [user Hu] [span1 Hs1] [span2 Hs2]. cbv zeta.
  destruct (request_stored idNow requested1 expires1 se g spanId1 user span1
              Hu Hs1) as (a1 & E1 & _ & Hsp1 & _).
  rewrite E1. cbn [fst snd].
  assert (Hu1 : currentUser (store_approval g (approval_name idNow) a1)
                = Some user) by exact Hu.
  destruct (request_stored idNow requested2 expires2 se _ spanId2 user span2
              Hu1 Hs2) as (a2 & E2 & _ & Hsp2 & _).
  rewrite E2. cbn [fst snd]. unfold store_approval; simpl.
  rewrite !lookup_insert_eq. simpl. rewrite Hsp1, Hsp2.
  repeat split. rewrite insert_insert_eq, !dom_insert_L. reflexivity.
Qed.

(** *** The laws at the engine's examples *)

Lemma unanimous_approval_witness :
  status_at
    (decide_all 2000 "approval_1000" critical_request
       (approvals_by (fun _ => None)
          ["security_admin"; "approver_1"; "approver_2"]))
    "approval_1000" = Some APPROVED.
Proof.
  destruct (approvals critical_request !! "approval_1000") as [a|] eqn:Ha;
    [|vm_compute in Ha; discriminate].
  assert (Hus : map userId (approvers a)
                = ["approver_1"; "approver_2"; "security_admin"]).
  { vm_compute in Ha. injection Ha as <-. reflexivity. }
  apply (unanimous_approval 2000 critical_request "approval_1000" a).
  - exact Ha.
  - vm_compute in Ha. injection Ha as <-. reflexivity.
  - rewrite Hus. apply (bool_decide_unpack _). vm_compute. exact I.
  - intros He. rewrite He in Hus. discriminate.
  - rewrite Hus.
    change ["security_admin"; "approver_1"; "approver_2"]
      with (["security_admin"] ++ ["approver_1"; "approver_2"]).
    change ["approver_1"; "approver_2"; "security_admin"]
      with (["approver_1"; "approver_2"] ++ ["security_admin"]).
    apply Permutation_app_comm.
Defined.

Lemma approval_without_approvers_is_stuck_witness :
  status_at low_risk_request "approval_1000" = Some PENDING_APPROVAL /\
  decide_all 2000 "approval_1000" low_risk_request
    [Approve "approver_1" None; Reject "security_admin" None;
     Approve "user_default" None]
  = low_risk_request.
Proof.
  split; [vm_compute; reflexivity|].
  destruct (approvals low_risk_request !! "approval_1000") as [a|] eqn:Ha;
    [|vm_compute in Ha; discriminate].
  apply (approval_without_approvers_is_stuck 2000 low_risk_request
           "approval_1000" a); [exact Ha|].
  vm_compute in Ha. injection Ha as <-. reflexivity.
Defined.

Lemma requests_at_one_reading_collide_witness :
  let se := snd (create1 plain_op) in
  let g1 := snd (requestApproval 1000 1000 1000 se (new_engine 0) "span_1") in
  let g2 := snd (requestApproval 1000 1000 1001 se g1 "span_1") in
  fst (requestApproval 1000 1000 1000 se (new_engine 0) "span_1")
    = Ok "approval_1000" /\
  fst (requestApproval 1000 1000 1001 se g1 "span_1") = Ok "approval_1000" /\
  dom (approvals g2) = dom (approvals g1).
Proof.
  cbv zeta.
  destruct (requests_at_one_reading_collide 1000 1000 1000 1000 1001
              (snd (create1 plain_op)) (new_engine 0) "span_1" "span_1")
    as (H1 & H2 & _ & _ & H5).
  - eexists. reflexivity.
  - eexists. vm_compute. reflexivity.
  - eexists. vm_compute. reflexivity.
  - split; [exact H1|]. split; [exact H2|exact H5].
Defined.

End GovLaws.

(** ** Laws of policy evaluation and of the validation hook *)

Module PolicyLaws.

Import Span Gov PII Policy.

(** The result of [validateSpanExecution]. *)
Record Validation : Type := {
  canExecute : bool;
  val_requiresApproval : bool;
  val_approvalId : option string;
  val_violations : list string;
  val_piiDetected : bool;
  val_contractRequired : bool
}.

(** [this.policies.set(key, value)] on a map kept in insertion order: an
    existing key keeps its place, a new key goes last. *)
Fixpoint map_set {V} (key : string) (value : V) (m : list (string * V))
  : list (string * V) :=
  match m with
  | [] => [(key, value)]
  | (k, v) :: m' =>
      if String.eqb k key then (key, value) :: m'
      else (k, v) :: map_set key value m'
  end.

Definition with_policies (ps : list (string * SecurityPolicy))
    (g : SecurityGovernanceEngine) : SecurityGovernanceEngine :=
  {| policies := ps; approvals := approvals g; currentUser := currentUser g |}.

(** [createPolicy]: the three fields [id], [created] and [lastModified] of
    the argument are not part of its type and are overwritten. The call
    reads the clock three times: [idNow] names the policy, [createdNow] and
    [modifiedNow] stamp it. *)
Definition createPolicy (idNow createdNow modifiedNow : Z)
    (policy : SecurityPolicy) (g : SecurityGovernanceEngine)
  : string * SecurityGovernanceEngine :=
  let policyId := "policy_" +:+ pretty idNow in
  let newPolicy :=
    {| policy_id := policyId; policy_name := policy_name policy;
       policy_description := policy_description policy;
       rules := rules policy; enabled := enabled policy;
       policy_created := createdNow; policy_lastModified := modifiedNow |} in
  (policyId, with_policies (map_set policyId newPolicy (policies g)) g).

(** [Partial<SecurityPolicy>]: the properties that are present. *)
Record PolicyUpdates : Type := {
  upd_id : option string;
  upd_name : option string;
  upd_description : option string;
  upd_rules : option (list PolicyRule);
  upd_enabled : option bool;
  upd_created : option Z;
  upd_lastModified : option Z
}.

Inductive PolicyError : Type :=
| PolicyNotFound (policyId : string).


Definition has_key {V} (key : string) (entry : string * V) : bool :=
  String.eqb (fst entry) key.

(** [this.policies.get(policyId)]. *)
Definition getPolicy (g : SecurityGovernanceEngine) (policyId : string)
  : option SecurityPolicy :=
  snd <$> find (has_key policyId) (policies g).

(** [updatePolicy]: [{ ...policy, ...updates, lastModified: Date.now() }],
    stored under the key it was found at. *)
Definition updatePolicy (now : Z) (policyId : string) (updates : PolicyUpdates)
    (g : SecurityGovernanceEngine)
  : Outcome PolicyError unit * SecurityGovernanceEngine :=
  match getPolicy g policyId with
  | None => (Throw (PolicyNotFound policyId), g)
  | Some policy =>
      let updatedPolicy :=
        {| policy_id := default (policy_id policy) (upd_id updates);
           policy_name := default (policy_name policy) (upd_name updates);
           policy_description :=
             default (policy_description policy) (upd_description updates);
           rules := default (rules policy) (upd_rules updates);
           enabled := default (enabled policy) (upd_enabled updates);
           policy_created := default (policy_created policy) (upd_created updates);
           policy_lastModified := now |} in
      (Ok tt, with_policies (map_set policyId updatedPolicy (policies g)) g)
  end.

(** The assignment [this.currentUser = user] of [authenticateUser], for the
    identity [user] that it found. *)
Definition set_currentUser (user : LogLineIdentity)
    (g : SecurityGovernanceEngine) : SecurityGovernanceEngine :=
  {| policies := policies g; approvals := approvals g; currentUser := Some user |}.

(** *** The policy store *)

Lemma find_map_set_eq {V} (key : string) (value : V) (m : list (string * V)) :
  find (has_key key) (map_set key value m) = Some (key, value).
Proof.
  induction m as [|[k v] m IH]; simpl.
  - unfold has_key; simpl. now rewrite String.eqb_refl.
  - destruct (String.eqb k key) eqn:Hk; simpl.
    + unfold has_key; simpl. now rewrite String.eqb_refl.
    + unfold has_key at 1; simpl. rewrite Hk. exact IH.
Qed.

Lemma find_map_set_ne {V} (key key' : string) (value : V) (m : list (string * V)) :
  key' <> key ->
  find (has_key key') (map_set key value m) = find (has_key key') m.
Proof.
  intros Hne. induction m as [|[k v] m IH]; simpl.
  - unfold has_key; simpl. apply String.eqb_neq in Hne.
    rewrite String.eqb_sym. now rewrite Hne.
  - destruct (String.eqb k key) eqn:Hk; simpl.
    + apply String.eqb_eq in Hk. subst k. unfold has_key; simpl.
      assert (H : String.eqb key key' = false)
        by (apply String.eqb_neq; congruence).
      now rewrite H.
    + unfold has_key at 1 3; simpl. destruct (String.eqb k key'); [reflexivity|].
      exact IH.
Qed.

Lemma map_set_keys {V} (key : string) (value : V) (m : list (string * V)) :
  map fst (map_set key value m)
  = match find (has_key key) m with
    | Some _ => map fst m
    | None => map fst m ++ [key]
    end.
Proof.
  induction m as [|[k v] m IH]; simpl; [reflexivity|].
  unfold has_key at 1; simpl.
  destruct (String.eqb k key) eqn:Hk; simpl.
  - apply String.eqb_eq in Hk. now subst k.
  - rewrite IH. now destruct (find (has_key key) m).
Qed.

(** X19. The policy store. [createPolicy] stores the policy under the
    identifier built from its first reading of the clock, stamped with the
    second and the third, and [getPolicy] returns it; the other policies
    are as before; a new key goes last in the order of evaluation, a key in
    use keeps its place. [updatePolicy] on a key that is not stored throws
    and changes nothing; on a stored key it keeps the keys and their order,
    leaves the other policies alone and stores the merged policy, whose
    [lastModified] is the clock reading whatever the update says. *)
Theorem policy_store_round_trip (idNow createdNow modifiedNow now : Z)
    (g : SecurityGovernanceEngine) :
  (forall policy,
     let policyId := fst (createPolicy idNow createdNow modifiedNow policy g) in
     let g' := snd (createPolicy idNow createdNow modifiedNow policy g) in
     policyId = "policy_" +:+ pretty idNow /\
     getPolicy g' policyId
     = Some {| policy_id := policyId; policy_name := policy_name policy;
               policy_description := policy_description policy;
               rules := rules policy; enabled := enabled policy;
               policy_created := createdNow;
               policy_lastModified := modifiedNow |} /\
     (forall other, other <> policyId -> getPolicy g' other = getPolicy g other) /\
     (getPolicy g policyId = None ->
      map fst (policies g') = map fst (policies g) ++ [policyId]) /\
     (is_Some (getPolicy g policyId) ->
      map fst (policies g') = map fst (policies g))) /\
  (forall policyId updates,
     getPolicy g policyId = None ->
     updatePolicy now policyId updates g = (Throw (PolicyNotFound policyId), g)) /\
  (forall policyId updates policy,
     getPolicy g policyId = Some policy ->
     let g' := snd (updatePolicy now policyId updates g) in
     fst (updatePolicy now policyId updates g) = Ok tt /\
     map fst (policies g') = map fst (policies g) /\
     (forall other, other <> policyId -> getPolicy g' other = getPolicy g other) /\
     exists policy',
       getPolicy g' policyId = Some policy' /\
       policy_lastModified policy' = now /\
       rules policy' = default (rules policy) (upd_rules updates) /\
       enabled policy' = default (enabled policy) (upd_enabled updates) /\
       policy_name policy' = default (policy_name policy) (upd_name updates)).
Proof.
  split; [|split].
  - intros policy. cbv zeta. unfold createPolicy, getPolicy; simpl.
    split; [reflexivity|]. split; [now rewrite find_map_set_eq|].
    split; [|split].
    + intros other Hne. now rewrite find_map_set_ne.
    + rewrite map_set_keys.
      destruct (find (has_key ("policy_" +:+ pretty idNow)) (policies g));
        [discriminate|reflexivity].
    + rewrite map_set_keys.
      destruct (find (has_key ("policy_" +:+ pretty idNow)) (policies g));
        [reflexivity|]. intros [x Hx]. discriminate.
  - intros policyId updates Hn. unfold updatePolicy. now rewrite Hn.
  - intros policyId updates policy Hp. cbv zeta. unfold updatePolicy. rewrite Hp.
    cbn [fst snd]. unfold getPolicy in *. cbn [policies with_policies].
    split; [reflexivity|]. split; [|split].
    + rewrite map_set_keys.
      destruct (find (has_key policyId) (policies g)); [reflexivity|discriminate].
    + intros other Hne. now rewrite find_map_set_ne.
    + rewrite find_map_set_eq. eexists. split; [reflexivity|]. simpl. auto.
Qed.

Section Validate.

Variables World Val Args : Type.
Variable JSON_stringify : Args -> text.

Local Abbreviation Engine := (SpanEngine World Val Args).
Local Abbreviation evaluate :=
  (evaluateSpanAgainstPolicies World Val Args JSON_stringify).
Local Abbreviation content_of := (spanContent Val Args JSON_stringify).

(** [validateSpanExecution]. The three readings of the clock are those of
    the call of [requestApproval], when it is made. *)
Definition validateSpanExecution (idNow requestedNow expiresNow : Z)
    (se : Engine) (g : SecurityGovernanceEngine) (spanId : string)
  : Outcome GovError Validation * SecurityGovernanceEngine :=
  match evaluate se g spanId with
  | Throw e => (Throw e, g)
  | Ok evaluation =>
      if negb (allowed evaluation)
      then
        (Ok {| canExecute := false; val_requiresApproval := false;
               val_approvalId := None;
               val_violations := violations evaluation;
               val_piiDetected := piiDetected evaluation;
               val_contractRequired := contractRequired evaluation |}, g)
      else if requiresApproval evaluation || contractRequired evaluation
      then
        match requestApproval idNow requestedNow expiresNow se g spanId with
        | (Throw e, g') => (Throw e, g')
        | (Ok approvalId, g') =>
            (Ok {| canExecute := false; val_requiresApproval := true;
                   val_approvalId := Some approvalId;
                   val_violations := [];
                   val_piiDetected := piiDetected evaluation;
                   val_contractRequired := contractRequired evaluation |}, g')
        end
      else
        (Ok {| canExecute := true; val_requiresApproval := false;
               val_approvalId := None;
               val_violations := [];
               val_piiDetected := piiDetected evaluation;
               val_contractRequired := false |}, g)
  end.

(** *** The verdict of the evaluation *)

(** X14. [evaluateSpanAgainstPolicies] throws [GovSpanNotFound] for a span
    that is not stored. For a stored span it throws a [TypeError] whenever
    an enabled policy has a rule, whatever the rule and the span: the loops
    call [this.ruleApplies], which the class does not define. It returns
    only when no enabled policy has a rule; then the span is allowed, no
    policy is listed as applicable, [piiDetected] tells whether the
    serialized arguments hold PII, a contract is required exactly when they
    do and no approved approval covers PII, approval is required exactly
    when a contract is, and the one violation there can be is that of PII.
    So no rule of any type, [deny], [require_approval] or [allow], ever
    decides a verdict. *)
Theorem evaluation_verdict (se : Engine) (g : SecurityGovernanceEngine)
    (spanId : string) :
  (getSpan _ _ _ se spanId = None ->
   evaluate se g spanId = Throw (GovSpanNotFound spanId)) /\
  (forall span, getSpan _ _ _ se spanId = Some span ->
   (rule_in_force g = true -> evaluate se g spanId = Throw not_a_function) /\
   (rule_in_force g = false ->
    exists ev,
      evaluate se g spanId = Ok ev /\
      allowed ev = true /\
      applicablePolicies ev = [] /\
      piiDetected ev = hasPII (detectPII (content_of span)) /\
      contractRequired ev
        = piiDetected ev && negb (hasApprovedPIIContract g spanId) /\
      requiresApproval ev = contractRequired ev /\
      violations ev
        = if contractRequired ev
          then ["PII detected - contract approval required before execution"]
          else [])) /\
  (rule_in_force g = true <->
   exists entry rule,
     In entry (policies g) /\ enabled (snd entry) = true /\
     In rule (rules (snd entry))).
Proof.
  split; [|split].
  - intros Hs. unfold evaluateSpanAgainstPolicies. now rewrite Hs.
  - intros span Hs. rewrite (evaluate_stored _ _ _ _ se g spanId span Hs).
    split; [intros ->; reflexivity|]. intros ->. cbv zeta.
    eexists. split; [reflexivity|]. unfold unruled.
    cbn [allowed applicablePolicies piiDetected contractRequired
         requiresApproval violations].
    repeat split.
  - apply rule_in_force_spec.
Qed.

(** *** The validation hook *)

Lemma validate_stored (idNow requestedNow expiresNow : Z) (se : Engine)
    (g : SecurityGovernanceEngine) (spanId : string)
    (span : SpanContext Val Args) :
  getSpan _ _ _ se spanId = Some span ->
  validateSpanExecution idNow requestedNow expiresNow se g spanId
  = let pii := hasPII (detectPII (content_of span)) in
    let blocked := pii && negb (hasApprovedPIIContract g spanId) in
    if rule_in_force g then (Throw not_a_function, g)
    else if blocked
    then
      match requestApproval idNow requestedNow expiresNow se g spanId with
      | (Throw e, g') => (Throw e, g')
      | (Ok approvalId, g') =>
          (Ok {| canExecute := false; val_requiresApproval := true;
                 val_approvalId := Some approvalId; val_violations := [];
                 val_piiDetected := pii; val_contractRequired := true |}, g')
      end
    else
      (Ok {| canExecute := true; val_requiresApproval := false;
             val_approvalId := None; val_violations := [];
             val_piiDetected := pii; val_contractRequired := false |}, g).
Proof.
  intros Hs. unfold validateSpanExecution.
  rewrite (evaluate_stored _ _ _ _ se g spanId span Hs). cbv zeta.
  destruct (rule_in_force g); [reflexivity|].
  set (pii := hasPII (detectPII (content_of span))).
  set (blocked := pii && negb (hasApprovedPIIContract g spanId)).
  clearbody blocked pii. unfold unruled.
  cbn [allowed requiresApproval contractRequired piiDetected negb].
  destruct blocked; reflexivity.
Qed.

(** X15. What a caller of [validateSpanExecution] gets. For a span that is
    not stored the call throws and changes nothing. For a stored span it
    throws the [TypeError] of the evaluation whenever an enabled policy has
    a rule; it throws for want of an authenticated user when a PII contract
    is required and nobody is current; a throw changes nothing. When the
    call answers, no enabled policy has a rule, and the answer is
    [canExecute] exactly when no PII contract is required, with nothing
    requested and the engine as before; otherwise it is
    [requiresApproval], with the identifier, built from the first clock
    reading, of a pending approval of this span that the call has stored.
    No answer reports a violation: that of PII is dropped, and no rule can
    refuse. *)
Theorem validateSpanExecution_contract (idNow requestedNow expiresNow : Z)
    (se : Engine) (g : SecurityGovernanceEngine) (spanId : string) :
  (getSpan _ _ _ se spanId = None ->
   validateSpanExecution idNow requestedNow expiresNow se g spanId
     = (Throw (GovSpanNotFound spanId), g)) /\
  (forall span, getSpan _ _ _ se spanId = Some span ->
   let pii := hasPII (detectPII (content_of span)) in
   let blocked := pii && negb (hasApprovedPIIContract g spanId) in
   match validateSpanExecution idNow requestedNow expiresNow se g spanId with
   | (Throw e, g') =>
       g' = g /\
       (e = not_a_function /\ rule_in_force g = true \/
        e = NoAuthenticatedUser /\ rule_in_force g = false /\
        blocked = true /\ currentUser g = None)
   | (Ok v, g') =>
       rule_in_force g = false /\
       canExecute v = negb blocked /\
       val_requiresApproval v = blocked /\
       val_contractRequired v = blocked /\
       val_piiDetected v = pii /\
       val_violations v = [] /\
       (blocked = false -> val_approvalId v = None /\ g' = g) /\
       (blocked = true ->
        val_approvalId v = Some (GovLaws.approval_name idNow) /\
        exists a,
          g' = store_approval g (GovLaws.approval_name idNow) a /\
          approval_spanId a = spanId /\
          approval_status a = PENDING_APPROVAL /\
          requestedAt a = requestedNow /\
          expiresAt a = expiresNow + 86400000)
   end).
Proof.
  split.
  - intros Hs. unfold validateSpanExecution, evaluateSpanAgainstPolicies.
    rewrite Hs. reflexivity.
  - intros span Hs.
    rewrite (validate_stored idNow requestedNow expiresNow se g spanId span Hs).
    cbv zeta.
    set (pii := hasPII (detectPII (content_of span))).
    set (blocked := pii && negb (hasApprovedPIIContract g spanId)).
    clearbody blocked pii.
    destruct (rule_in_force g); [auto|].
    destruct blocked.
    + destruct (currentUser g) as [user|] eqn:Hu.
      * destruct (GovLaws.request_stored idNow requestedNow expiresNow se g
                    spanId user span Hu Hs)
          as (a & -> & _ & Hsp & _ & Hat & Hexp & Hst & _).
        cbn [canExecute val_requiresApproval val_approvalId val_violations
             val_piiDetected val_contractRequired negb].
        do 6 (split; [reflexivity|]). split; [discriminate|]. intros _.
        split; [reflexivity|]. exists a. auto.
      * unfold requestApproval. rewrite Hu. auto 10.
    + cbn [canExecute val_requiresApproval val_approvalId val_violations
           val_piiDetected val_contractRequired negb].
      do 6 (split; [reflexivity|]). split; [auto|discriminate].
Qed.

(** *** The states the engine reaches *)

(** The calls that write to the engine, each with the clock readings it
    makes. [AuthenticateUser] stands for a call of [authenticateUser] that
    finds the identity. *)
Inductive GovCall : Type :=
| CreatePolicy (idNow createdNow modifiedNow : Z) (policy : SecurityPolicy)
| UpdatePolicy (now : Z) (policyId : string) (updates : PolicyUpdates)
| AuthenticateUser (user : LogLineIdentity)
| RequestApproval (idNow requestedNow expiresNow : Z) (se : Engine)
    (spanId : string)
| ApproveSpan (now : Z) (approvalId user : string) (comment : option string)
| RejectSpan (now : Z) (approvalId user : string) (comment : option string)
| ValidateSpanExecution (idNow requestedNow expiresNow : Z) (se : Engine)
    (spanId : string).

(** The engine after a call, whether the call returns or throws. *)
Definition after_call (g : SecurityGovernanceEngine) (c : GovCall)
  : SecurityGovernanceEngine :=
  match c with
  | CreatePolicy idNow createdNow modifiedNow policy =>
      snd (createPolicy idNow createdNow modifiedNow policy g)
  | UpdatePolicy now policyId updates => snd (updatePolicy now policyId updates g)
  | AuthenticateUser user => set_currentUser user g
  | RequestApproval idNow requestedNow expiresNow se spanId =>
      snd (requestApproval idNow requestedNow expiresNow se g spanId)
  | ApproveSpan now approvalId user comment =>
      snd (approveSpan now g approvalId user comment)
  | RejectSpan now approvalId user comment =>
      snd (rejectSpan now g approvalId user comment)
  | ValidateSpanExecution idNow requestedNow expiresNow se spanId =>
      snd (validateSpanExecution idNow requestedNow expiresNow se g spanId)
  end.

Definition after_calls (g : SecurityGovernanceEngine) (cs : list GovCall)
  : SecurityGovernanceEngine :=
  fold_left after_call cs g.

Definition writes_policies (c : GovCall) : bool :=
  match c with
  | CreatePolicy _ _ _ _ | UpdatePolicy _ _ _ => true
  | _ => false
  end.

(** No stored approval carries a risk factor whose type mentions [pii]. *)
Definition no_pii_factor (g : SecurityGovernanceEngine) : Prop :=
  forall approvalId a, approvals g !! approvalId = Some a ->
    forall factor, In factor (factors (riskAssessment a)) ->
      str_includes (factor_type factor) "pii" = false.

Lemma assessed_factors (se : Engine) (spanId : string) (risk : RiskAssessment) :
  assessSpanRisk World Val Args se spanId = Ok risk ->
  forall factor, In factor (factors risk) ->
    str_includes (factor_type factor) "pii" = false.
Proof.
  unfold assessSpanRisk.
  destruct (getSpan _ _ _ se spanId) as [span|]; [|discriminate].
  destruct (type _ _ span), (reversible _ _ span); simpl;
    intros H; injection H as <-; simpl; intros factor Hf;
    repeat (destruct Hf as [<-|Hf]; [vm_compute; reflexivity|]); destruct Hf.
Qed.

Lemma store_no_pii (g : SecurityGovernanceEngine) (approvalId : string)
    (a : GovernanceApproval) :
  no_pii_factor g ->
  (forall factor, In factor (factors (riskAssessment a)) ->
     str_includes (factor_type factor) "pii" = false) ->
  no_pii_factor (store_approval g approvalId a).
Proof.
  intros Hg Ha k b Hk. unfold store_approval in Hk; simpl in Hk.
  destruct (decide (k = approvalId)) as [->|Hne].
  - rewrite lookup_insert_eq in Hk. injection Hk as <-. exact Ha.
  - rewrite lookup_insert_ne in Hk by auto. now apply (Hg k).
Qed.

(** A request stores an approval or changes nothing. *)
Lemma request_effect (idNow requestedNow expiresNow : Z) (se : Engine)
    (g : SecurityGovernanceEngine) (spanId : string) :
  snd (requestApproval idNow requestedNow expiresNow se g spanId) = g \/
  exists approvalId a,
    snd (requestApproval idNow requestedNow expiresNow se g spanId)
      = store_approval g approvalId a /\
    assessSpanRisk World Val Args se spanId = Ok (riskAssessment a).
Proof.
  unfold requestApproval.
  destruct (currentUser g); [|now left].
  destruct (assessSpanRisk World Val Args se spanId) as [risk|e]; [|now left].
  right. eexists. eexists. split; reflexivity.
Qed.

(** A validation does what a request does, or nothing. *)
Lemma validate_effect (idNow requestedNow expiresNow : Z) (se : Engine)
    (g : SecurityGovernanceEngine) (spanId : string) :
  snd (validateSpanExecution idNow requestedNow expiresNow se g spanId) = g \/
  snd (validateSpanExecution idNow requestedNow expiresNow se g spanId)
  = snd (requestApproval idNow requestedNow expiresNow se g spanId).
Proof.
  unfold validateSpanExecution.
  destruct (evaluate se g spanId) as [ev|e]; [|now left].
  destruct (negb (allowed ev)); [now left|].
  destruct (requiresApproval ev || contractRequired ev); [|now left].
  right.
  destruct (requestApproval idNow requestedNow expiresNow se g spanId)
    as [[approvalId|e] g']; reflexivity.
Qed.

Lemma request_no_pii (idNow requestedNow expiresNow : Z) (se : Engine)
    (g : SecurityGovernanceEngine) (spanId : string) :
  no_pii_factor g ->
  no_pii_factor (snd (requestApproval idNow requestedNow expiresNow se g spanId)).
Proof.
  intros Hg.
  destruct (request_effect idNow requestedNow expiresNow se g spanId)
    as [->|(approvalId & a & -> & Hr)]; [exact Hg|].
  apply store_no_pii; [exact Hg|]. now apply (assessed_factors se spanId).
Qed.

Lemma decision_no_pii (now : Z) (g : SecurityGovernanceEngine)
    (approvalId : string) (d : Verdict) :
  no_pii_factor g -> no_pii_factor (decide_once now approvalId g d).
Proof.
  intros Hg k b Hk.
  destruct (GovLaws.decide_touches now g approvalId d) as (_ & _ & Hother & Hsame & Hnone).
  destruct (decide (k = approvalId)) as [->|Hne].
  - destruct (approvals g !! approvalId) as [a|] eqn:Ha.
    + destruct (Hsame a eq_refl) as (a' & Ha' & Hreq).
      rewrite Ha' in Hk. injection Hk as <-.
      destruct Hreq as (_ & _ & _ & _ & -> & _). now apply (Hg approvalId).
    + rewrite Hnone in Hk by reflexivity. discriminate.
  - rewrite Hother in Hk by auto. now apply (Hg k).
Qed.

Lemma call_no_pii (g : SecurityGovernanceEngine) (c : GovCall) :
  no_pii_factor g -> no_pii_factor (after_call g c).
Proof.
  intros Hg.
  destruct c as [idNow createdNow modifiedNow policy|now policyId updates|user
                 |idNow requestedNow expiresNow se spanId
                 |now approvalId user comment
                 |now approvalId user comment
                 |idNow requestedNow expiresNow se spanId]; simpl.
  - exact Hg.
  - unfold updatePolicy. destruct (getPolicy g policyId); exact Hg.
  - exact Hg.
  - now apply request_no_pii.
  - apply (decision_no_pii now g approvalId (Approve user comment) Hg).
  - apply (decision_no_pii now g approvalId (Reject user comment) Hg).
  - destruct (validate_effect idNow requestedNow expiresNow se g spanId)
      as [->| ->]; [exact Hg|now apply request_no_pii].
Qed.

Lemma calls_no_pii (cs : list GovCall) :
  forall g, no_pii_factor g -> no_pii_factor (after_calls g cs).
Proof.
  unfold after_calls.
  induction cs as [|c cs IH]; intros g Hg; simpl; [exact Hg|].
  apply IH. now apply call_no_pii.
Qed.

Lemma new_engine_no_pii (now : Z) : no_pii_factor (new_engine now).
Proof. intros k a Hk. simpl in Hk. rewrite lookup_empty in Hk. discriminate. Qed.

Lemma no_pii_no_contract (g : SecurityGovernanceEngine) (spanId : string) :
  no_pii_factor g -> hasApprovedPIIContract g spanId = false.
Proof.
  intros Hg. unfold hasApprovedPIIContract.
  destruct (existsb _ _) eqn:He; [|reflexivity]. exfalso.
  apply existsb_exists in He as (a & Hin & Hc).
  apply in_map_iff in Hin as ([k a'] & Heq & Hin). simpl in Heq. subst a'.
  apply list_elem_of_In, elem_of_map_to_list in Hin.
  apply andb_true_iff in Hc as [_ Hc].
  apply existsb_exists in Hc as (factor & Hf & Hc).
  rewrite (Hg k a Hin factor Hf) in Hc. discriminate.
Qed.

(** Calls that leave the policies alone. *)
Lemma call_policies (g : SecurityGovernanceEngine) (c : GovCall) :
  writes_policies c = false -> policies (after_call g c) = policies g.
Proof.
  assert (Hreq : forall idNow requestedNow expiresNow (se : Engine) spanId,
            policies (snd (requestApproval idNow requestedNow expiresNow se g spanId))
            = policies g).
  { intros idNow requestedNow expiresNow se spanId.
    destruct (request_effect idNow requestedNow expiresNow se g spanId)
      as [->|(approvalId & a & -> & _)]; reflexivity. }
  destruct c as [idNow createdNow modifiedNow policy|now policyId updates|user
                 |idNow requestedNow expiresNow se spanId
                 |now approvalId user comment
                 |now approvalId user comment
                 |idNow requestedNow expiresNow se spanId]; simpl;
    try discriminate; intros _.
  - reflexivity.
  - apply Hreq.
  - destruct (GovLaws.decide_touches now g approvalId (Approve user comment))
      as (H & _). exact H.
  - destruct (GovLaws.decide_touches now g approvalId (Reject user comment))
      as (H & _). exact H.
  - destruct (validate_effect idNow requestedNow expiresNow se g spanId)
      as [->| ->]; [reflexivity|apply Hreq].
Qed.

Lemma calls_policies (cs : list GovCall) :
  forallb (fun c => negb (writes_policies c)) cs = true ->
  forall g, policies (after_calls g cs) = policies g.
Proof.
  unfold after_calls.
  induction cs as [|c cs IH]; intros Hcs g; simpl; [reflexivity|].
  simpl in Hcs. apply andb_true_iff in Hcs as [Hc Hcs].
  rewrite (IH Hcs). apply call_policies. now apply negb_true_iff.
Qed.

(** Once a user is current, one is current for ever. *)
Lemma call_keeps_user (g : SecurityGovernanceEngine) (c : GovCall) :
  is_Some (currentUser g) -> is_Some (currentUser (after_call g c)).
Proof.
  intros Hu.
  assert (Hreq : forall idNow requestedNow expiresNow (se : Engine) spanId,
            currentUser (snd (requestApproval idNow requestedNow expiresNow se g spanId))
            = currentUser g).
  { intros idNow requestedNow expiresNow se spanId.
    destruct (request_effect idNow requestedNow expiresNow se g spanId)
      as [->|(approvalId & a & -> & _)]; reflexivity. }
  destruct c as [idNow createdNow modifiedNow policy|now policyId updates|user
                 |idNow requestedNow expiresNow se spanId
                 |now approvalId user comment
                 |now approvalId user comment
                 |idNow requestedNow expiresNow se spanId]; simpl.
  - exact Hu.
  - unfold updatePolicy. destruct (getPolicy g policyId); exact Hu.
  - eauto.
  - now rewrite Hreq.
  - destruct (GovLaws.decide_touches now g approvalId (Approve user comment))
      as (_ & H & _). simpl in H. now rewrite H.
  - destruct (GovLaws.decide_touches now g approvalId (Reject user comment))
      as (_ & H & _). simpl in H. now rewrite H.
  - destruct (validate_effect idNow requestedNow expiresNow se g spanId)
      as [->| ->]; [exact Hu|now rewrite Hreq].
Qed.

Lemma calls_keep_user (now : Z) (cs : list GovCall) :
  is_Some (currentUser (after_calls (new_engine now) cs)).
Proof.
  assert (H : forall g, is_Some (currentUser g) ->
                is_Some (currentUser (after_calls g cs))).
  { unfold after_calls.
    induction cs as [|c cs IH]; intros g Hg; simpl; [exact Hg|].
    apply IH. now apply call_keeps_user. }
  apply H. simpl. eauto.
Qed.

Lemma evaluate_by_policies (se : Engine) (g g' : SecurityGovernanceEngine)
    (spanId : string) :
  policies g' = policies g ->
  hasApprovedPIIContract g' spanId = hasApprovedPIIContract g spanId ->
  evaluate se g' spanId = evaluate se g spanId.
Proof.
  intros Hp Hc. unfold evaluateSpanAgainstPolicies. rewrite Hp, Hc. reflexivity.
Qed.

(** X16. In every state that the engine reaches from its constructor by
    calls of [createPolicy], [updatePolicy], [authenticateUser],
    [requestApproval], [approveSpan], [rejectSpan] and
    [validateSpanExecution], [hasApprovedPIIContract] is false for every
    span: an approval carries the risk factors that [assessSpanRisk]
    returned, and none of their types mentions [pii]. *)
Theorem pii_contract_is_never_approved (now : Z) (cs : list GovCall)
    (spanId : string) :
  hasApprovedPIIContract (after_calls (new_engine now) cs) spanId = false.
Proof.
  apply no_pii_no_contract, calls_no_pii, new_engine_no_pii.
Qed.

(** X17. Hence a stored span whose serialized arguments hold PII (a span
    on which a caller has set [args]: the span engine makes none) is never
    found executable, in any state the engine reaches and whatever the
    policies and the approvals granted. While an enabled policy has a
    rule, [validateSpanExecution] throws the [TypeError] of the evaluation
    and changes nothing. Otherwise it answers, a user being current in
    every such state: [canExecute] is false, [piiDetected],
    [contractRequired] and [requiresApproval] are true, and the call has
    stored a pending approval under the identifier it returns. *)
Theorem pii_span_is_never_executable (now0 : Z) (cs : list GovCall)
    (idNow requestedNow expiresNow : Z) (se : Engine) (spanId : string)
    (span : SpanContext Val Args) :
  let g := after_calls (new_engine now0) cs in
  getSpan _ _ _ se spanId = Some span ->
  hasPII (detectPII (content_of span)) = true ->
  match validateSpanExecution idNow requestedNow expiresNow se g spanId with
  | (Throw e, g') => e = not_a_function /\ rule_in_force g = true /\ g' = g
  | (Ok v, g') =>
      rule_in_force g = false /\
      canExecute v = false /\ val_piiDetected v = true /\
      val_contractRequired v = true /\ val_requiresApproval v = true /\
      val_approvalId v = Some (GovLaws.approval_name idNow) /\
      status_at g' (GovLaws.approval_name idNow) = Some PENDING_APPROVAL
  end.
Proof.
  intros g Hs Hpii.
  assert (Hc : hasApprovedPIIContract g spanId = false)
    by apply no_pii_no_contract, calls_no_pii, new_engine_no_pii.
  destruct (calls_keep_user now0 cs) as [user Hu]. fold g in Hu.
  rewrite (validate_stored idNow requestedNow expiresNow se g spanId span Hs).
  cbv zeta. rewrite Hpii, Hc. cbn [andb negb].
  destruct (rule_in_force g); [auto|].
  destruct (GovLaws.request_stored idNow requestedNow expiresNow se g spanId
              user span Hu Hs) as (a & -> & _ & _ & _ & _ & _ & Hst & _).
  cbn [canExecute val_piiDetected val_contractRequired val_requiresApproval
       val_approvalId].
  do 6 (split; [reflexivity|]).
  unfold status_at, store_approval; cbn [approvals].
  rewrite lookup_insert_eq. cbn [fmap option_fmap option_map].
  now rewrite Hst.
Qed.

(** X18. Approvals never change a verdict: from any state the engine
    reaches, further calls that do not write policies (requests, approvals,
    rejections, validations, authentications) leave the evaluation of every
    span as it was. A span that required approval requires it still after
    the approval was granted. *)
Theorem approvals_never_change_a_verdict (now0 : Z) (before cs : list GovCall)
    (se : Engine) (spanId : string) :
  let g := after_calls (new_engine now0) before in
  forallb (fun c => negb (writes_policies c)) cs = true ->
  evaluate se (after_calls g cs) spanId = evaluate se g spanId.
Proof.
  intros g Hcs. apply evaluate_by_policies.
  - now apply calls_policies.
  - rewrite !no_pii_no_contract; [reflexivity| |].
    + apply calls_no_pii, new_engine_no_pii.
    + apply calls_no_pii, calls_no_pii, new_engine_no_pii.
Qed.

(** *** The PII gate *)

(** C2. The evaluation of a span does not return what the specification
    says of a span that holds PII.
    For every stored span, with or without PII, and every engine in which
    an enabled policy has a rule, [evaluateSpanAgainstPolicies] throws a
    [TypeError]: the loops call [this.ruleApplies], which is not defined.
    That is so in the engine as constructed, and stays so whatever is
    requested, approved, rejected, validated or authenticated, since the
    constructor enables two policies with a rule.
    Only in an engine where no enabled policy has a rule does the
    evaluation of a span with PII and without approved contract return
    [piiDetected], [contractRequired] and [requiresApproval].
    And no span that the span engine has made holds PII: [createSpan] does
    not set [args] and no method adds it, so the text scanned is that of
    the empty object. *)
Theorem pii_evaluation_throws :
  (forall (se : Engine) g spanId span,
     getSpan _ _ _ se spanId = Some span ->
     rule_in_force g = true ->
     evaluate se g spanId = Throw not_a_function) /\
  (forall now cs,
     forallb (fun c => negb (writes_policies c)) cs = true ->
     rule_in_force (after_calls (new_engine now) cs) = true) /\
  (forall (se : Engine) g spanId span,
     getSpan _ _ _ se spanId = Some span ->
     rule_in_force g = false ->
     hasPII (detectPII (content_of span)) = true ->
     hasApprovedPIIContract g spanId = false ->
     exists ev,
       evaluate se g spanId = Ok ev /\
       piiDetected ev = true /\ contractRequired ev = true /\
       requiresApproval ev = true /\ allowed ev = true) /\
  (forall (Date_now : World -> Z) (fresh_span_id : World -> string * World)
          (cs : list (SpanLaws.Call World Val)) (w : World) spanId span,
     getSpan _ _ _
       (snd (SpanLaws.after_all World Val Args Date_now fresh_span_id
               (w, empty_engine) cs)) spanId = Some span ->
     args _ _ span = None /\
     content_of span = js "{}" /\
     hasPII (detectPII (content_of span)) = false).
Proof.
  split; [|split; [|split]].
  - intros se g spanId span Hs Hr.
    rewrite (evaluate_stored _ _ _ _ se g spanId span Hs). now rewrite Hr.
  - intros now cs Hcs. unfold rule_in_force.
    rewrite (calls_policies cs Hcs). reflexivity.
  - intros se g spanId span Hs Hr Hpii Hc.
    rewrite (evaluate_stored _ _ _ _ se g spanId span Hs). rewrite Hr.
    cbv zeta. rewrite Hpii, Hc. eexists. split; [reflexivity|].
    repeat split.
  - intros Date_now fresh_span_id cs w spanId span Hs.
    assert (Ha : args _ _ span = None).
    { apply (SpanLaws.after_all_no_args World Val Args Date_now fresh_span_id
               cs (w, empty_engine)) with (k := spanId);
        [|exact Hs].
      intros k x Hk. cbn in Hk. rewrite lookup_empty in Hk. discriminate. }
    assert (Hc : content_of span = js "{}") by (unfold spanContent; now rewrite Ha).
    split; [exact Ha|]. split; [exact Hc|]. rewrite Hc.
    vm_compute. reflexivity.
Qed.

End Validate.

(** *** The laws at the read span that carries an e-mail address *)

Abbreviation evaluate_read :=
  (evaluateSpanAgainstPolicies Z string (list (string * string)) stringify_object).
Abbreviation validate_read :=
  (validateSpanExecution Z string (list (string * string)) stringify_object).
Abbreviation calls_read :=
  (after_calls Z string (list (string * string)) stringify_object).

(** The update that disables a policy. *)
Definition disable : PolicyUpdates :=
  {| upd_id := None; upd_name := None; upd_description := None;
     upd_rules := None; upd_enabled := Some false; upd_created := None;
     upd_lastModified := None |}.

(** The calls that disable the two policies which the constructor enables,
    and the engine after them: no enabled policy has a rule. *)
Definition silencing : list (GovCall Z string (list (string * string))) :=
  [ UpdatePolicy _ _ _ 5 "high-risk-approval" disable;
    UpdatePolicy _ _ _ 6 "domain-restrictions" disable ].

Definition quiet_engine : SecurityGovernanceEngine :=
  calls_read (new_engine 0) silencing.

(** A [write] span without rollback, as [createSpan] makes it. *)
Definition write_engine : SpanEngine Z string (list (string * string)) :=
  snd (snd (createSpan Z string (list (string * string)) clock_now one_id
              WRITE plain_op None (0, empty_engine))).

(** A [write] span without rollback on which a caller has set [args]. *)
Definition guarded_span : SpanContext string (list (string * string)) :=
  {| id := "span_7"; parentId := None; type := WRITE; status := PENDING;
     startTime := 0; endTime := None; metadata := ∅; reversible := false;
     args := Some [("email", "john@example.com")] |}.

Definition guarded_engine : SpanEngine Z string (list (string * string)) :=
  {| spans := {[ "span_7" := guarded_span ]}; operations := ∅; timeline := [] |}.

(** A validation of the guarded span that requests an approval, and the
    three approvals that grant it. *)
Definition granting : list (GovCall Z string (list (string * string))) :=
  [ ValidateSpanExecution _ _ _ 500 501 502 guarded_engine "span_7";
    ApproveSpan _ _ _ 600 "approval_500" "approver_1" None;
    ApproveSpan _ _ _ 601 "approval_500" "approver_2" None;
    ApproveSpan _ _ _ 602 "approval_500" "security_admin" None ].

Lemma pii_evaluation_throws_witness :
  (* the engine as constructed, and the span with an e-mail address *)
  hasPII (detectPII (spanContent _ _ stringify_object read_span)) = true /\
  hasApprovedPIIContract (new_engine 0) "span_7" = false /\
  evaluate_read read_engine (new_engine 0) "span_7" = Throw not_a_function /\
  (* the engine as constructed, and a span as [createSpan] makes it *)
  evaluate_read write_engine (new_engine 0) "span_1" = Throw not_a_function /\
  (* an allow rule for reads is the only rule in force *)
  evaluate_read read_engine
    (snd (createPolicy 10 11 12 allow_everything quiet_engine)) "span_7"
    = Throw not_a_function /\
  (* no rule is in force *)
  (exists ev,
     evaluate_read read_engine quiet_engine "span_7" = Ok ev /\
     piiDetected ev = true /\ contractRequired ev = true /\
     requiresApproval ev = true) /\
  (args _ _ <$> getSpan _ _ _ write_engine "span_1") = Some None.
Proof.
  destruct (pii_evaluation_throws Z string (list (string * string))
              stringify_object) as (Hthrow & Hnew & Hquiet & Hargs).
  assert (Hs : getSpan _ _ _ read_engine "span_7" = Some read_span)
    by (vm_compute; reflexivity).
  assert (Hp : hasPII (detectPII (spanContent _ _ stringify_object read_span))
               = true) by (vm_compute; reflexivity).
  assert (Hc : hasApprovedPIIContract (new_engine 0) "span_7" = false)
    by (vm_compute; reflexivity).
  split; [exact Hp|]. split; [exact Hc|]. split; [|split; [|split; [|split]]].
  - apply (Hthrow read_engine (new_engine 0) "span_7" read_span Hs).
    apply (Hnew 0 []). reflexivity.
  - destruct (getSpan _ _ _ write_engine "span_1") as [span|] eqn:Hw;
      [|vm_compute in Hw; discriminate].
    apply (Hthrow write_engine (new_engine 0) "span_1" span Hw).
    apply (Hnew 0 []). reflexivity.
  - apply (Hthrow read_engine _ "span_7" read_span Hs).
    vm_compute. reflexivity.
  - destruct (Hquiet read_engine quiet_engine "span_7" read_span Hs)
      as (ev & Hev & H1 & H2 & H3 & _);
      [vm_compute; reflexivity|exact Hp|vm_compute; reflexivity|].
    exists ev. auto.
  - destruct (getSpan _ _ _ write_engine "span_1") as [span|] eqn:Hw;
      [|vm_compute in Hw; discriminate].
    destruct (Hargs clock_now one_id
                [SpanLaws.CreateSpan _ _ WRITE plain_op None] 0 "span_1" span Hw)
      as (Ha & _).
    simpl. now rewrite Ha.
Defined.

Lemma evaluation_verdict_witness :
  evaluate_read read_engine (new_engine 0) "span_8"
    = Throw (GovSpanNotFound "span_8") /\
  evaluate_read read_engine (new_engine 0) "span_7" = Throw not_a_function /\
  exists ev,
    evaluate_read read_engine quiet_engine "span_7" = Ok ev /\
    allowed ev = true /\ applicablePolicies ev = [] /\
    requiresApproval ev = true /\
    violations ev
      = ["PII detected - contract approval required before execution"].
Proof.
  destruct (evaluation_verdict Z string (list (string * string))
              stringify_object read_engine (new_engine 0) "span_8")
    as (Hnone & _).
  destruct (evaluation_verdict Z string (list (string * string))
              stringify_object read_engine (new_engine 0) "span_7")
    as (_ & Hnew & _).
  destruct (evaluation_verdict Z string (list (string * string))
              stringify_object read_engine quiet_engine "span_7")
    as (_ & Hquiet & _).
  assert (Hs : getSpan _ _ _ read_engine "span_7" = Some read_span)
    by (vm_compute; reflexivity).
  split; [apply Hnone; vm_compute; reflexivity|].
  split; [apply (Hnew read_span Hs); vm_compute; reflexivity|].
  destruct (Hquiet read_span Hs) as [_ Hok].
  destruct Hok as (ev & Hev & Ha & Hp & _); [vm_compute; reflexivity|].
  exists ev. split; [exact Hev|]. split; [exact Ha|]. split; [exact Hp|].
  vm_compute in Hev. injection Hev as <-. split; reflexivity.
Defined.

Lemma validateSpanExecution_contract_witness :
  (* no span of that name *)
  validate_read 1000 1001 1002 read_engine (new_engine 0) "span_8"
    = (Throw (GovSpanNotFound "span_8"), new_engine 0) /\
  (* the engine as constructed *)
  validate_read 1000 1001 1002 read_engine (new_engine 0) "span_7"
    = (Throw not_a_function, new_engine 0) /\
  (* no rule in force *)
  match validate_read 1000 1001 1002 read_engine quiet_engine "span_7" with
  | (Ok v, g') =>
      canExecute v = false /\ val_approvalId v = Some "approval_1000" /\
      exists a,
        g' = store_approval quiet_engine "approval_1000" a /\
        requestedAt a = 1001 /\ expiresAt a = 86401002
  | (Throw _, _) => False
  end.
Proof.
  assert (Hs : getSpan _ _ _ read_engine "span_7" = Some read_span)
    by (vm_compute; reflexivity).
  destruct (validateSpanExecution_contract Z string (list (string * string))
              stringify_object 1000 1001 1002 read_engine (new_engine 0)
              "span_8") as [Hnone _].
  split; [apply Hnone; vm_compute; reflexivity|]. split.
  - destruct (validateSpanExecution_contract Z string (list (string * string))
                stringify_object 1000 1001 1002 read_engine (new_engine 0)
                "span_7") as [_ Hsome].
    specialize (Hsome read_span Hs). cbv zeta in Hsome.
    destruct (validate_read 1000 1001 1002 read_engine (new_engine 0) "span_7")
      as [[v|e] g'].
    + destruct Hsome as (Hr & _). vm_compute in Hr. discriminate.
    + destruct Hsome as (-> & [[-> _]|(_ & Hr & _)]); [reflexivity|].
      vm_compute in Hr. discriminate.
  - destruct (validateSpanExecution_contract Z string (list (string * string))
                stringify_object 1000 1001 1002 read_engine quiet_engine
                "span_7") as [_ Hsome].
    specialize (Hsome read_span Hs). cbv zeta in Hsome.
    assert (Hb : hasPII (detectPII (spanContent _ _ stringify_object read_span))
                 && negb (hasApprovedPIIContract quiet_engine "span_7") = true)
      by (vm_compute; reflexivity).
    rewrite Hb in Hsome.
    destruct (validate_read 1000 1001 1002 read_engine quiet_engine "span_7")
      as [[v|e] g'].
    + destruct Hsome as (_ & Hc & _ & _ & _ & _ & _ & Hreq).
      destruct (Hreq eq_refl) as (Hid & a & Hg & _ & _ & Hat & Hexp).
      split; [exact Hc|]. split; [exact Hid|]. exists a. auto.
    + destruct Hsome as (_ & [[_ Hr]|(_ & _ & _ & Hu)]).
      * vm_compute in Hr. discriminate.
      * vm_compute in Hu. discriminate.
Defined.

Lemma pii_span_is_never_executable_witness :
  match validate_read 1000 1001 1002 read_engine quiet_engine "span_7" with
  | (Ok v, g') =>
      canExecute v = false /\ val_piiDetected v = true /\
      val_approvalId v = Some "approval_1000" /\
      status_at g' "approval_1000" = Some PENDING_APPROVAL
  | (Throw _, _) => False
  end /\
  fst (validate_read 1000 1001 1002 read_engine (new_engine 0) "span_7")
    = Throw not_a_function.
Proof.
  assert (Hs : getSpan _ _ _ read_engine "span_7" = Some read_span)
    by (vm_compute; reflexivity).
  assert (Hp : hasPII (detectPII (spanContent _ _ stringify_object read_span))
               = true) by (vm_compute; reflexivity).
  split.
  - pose proof (pii_span_is_never_executable Z string (list (string * string))
                  stringify_object 0 silencing 1000 1001 1002 read_engine
                  "span_7" read_span) as H.
    cbv zeta in H. fold quiet_engine in H. specialize (H Hs Hp).
    destruct (validate_read 1000 1001 1002 read_engine quiet_engine "span_7")
      as [[v|e] g'].
    + destruct H as (_ & H1 & H2 & _ & _ & H5 & H6). auto.
    + destruct H as (_ & Hr & _). vm_compute in Hr. discriminate.
  - pose proof (pii_span_is_never_executable Z string (list (string * string))
                  stringify_object 0 [] 1000 1001 1002 read_engine
                  "span_7" read_span) as H.
    cbv zeta in H.
    change (after_calls _ _ _ _ (new_engine 0) []) with (new_engine 0) in H.
    specialize (H Hs Hp).
    destruct (validate_read 1000 1001 1002 read_engine (new_engine 0) "span_7")
      as [[v|e] g'].
    + destruct H as (Hr & _). vm_compute in Hr. discriminate.
    + destruct H as (-> & _). reflexivity.
Defined.

Lemma approvals_never_change_a_verdict_witness :
  (* the approval that the validation requested is granted *)
  status_at (calls_read quiet_engine granting) "approval_500" = Some APPROVED /\
  (* the verdict is as before: approval is required *)
  evaluate_read guarded_engine (calls_read quiet_engine granting) "span_7"
    = evaluate_read guarded_engine quiet_engine "span_7" /\
  (requiresApproval <$>
     match evaluate_read guarded_engine quiet_engine "span_7" with
     | Ok ev => Some ev
     | Throw _ => None
     end) = Some true.
Proof.
  split; [vm_compute; reflexivity|]. split; [|vm_compute; reflexivity].
  apply (approvals_never_change_a_verdict Z string (list (string * string))
           stringify_object 0 silencing granting).
  reflexivity.
Defined.

Lemma policy_store_round_trip_witness :
  (enabled <$> getPolicy (new_engine 0) "business-hours") = Some false /\
  let updates :=
    {| upd_id := None; upd_name := None; upd_description := None;
       upd_rules := None; upd_enabled := Some true; upd_created := None;
       upd_lastModified := Some 1 |} in
  let g' := snd (updatePolicy 7 "business-hours" updates (new_engine 0)) in
  map fst (policies g') = ["high-risk-approval"; "domain-restrictions"; "business-hours"] /\
  (exists policy',
    getPolicy g' "business-hours" = Some policy' /\
    policy_lastModified policy' = 7 /\ enabled policy' = true) /\
  (* a policy created when the clock reads 10, 11 and 12 *)
  let g2 := snd (createPolicy 10 11 12 allow_everything (new_engine 0)) in
  fst (createPolicy 10 11 12 allow_everything (new_engine 0)) = "policy_10" /\
  (policy_created <$> getPolicy g2 "policy_10") = Some 11 /\
  (policy_lastModified <$> getPolicy g2 "policy_10") = Some 12.
Proof.
  split; [reflexivity|]. cbv zeta.
  destruct (policy_store_round_trip 10 11 12 7 (new_engine 0))
    as (Hcreate & _ & Hupd).
  destruct (getPolicy (new_engine 0) "business-hours") as [policy|] eqn:Hp;
    [|vm_compute in Hp; discriminate].
  destruct (Hupd "business-hours"
              {| upd_id := None; upd_name := None; upd_description := None;
                 upd_rules := None; upd_enabled := Some true; upd_created := None;
                 upd_lastModified := Some 1 |} policy Hp)
    as (_ & Hkeys & _ & policy' & H1 & H2 & _ & H4 & _).
  cbv zeta in Hkeys. split; [rewrite Hkeys; reflexivity|].
  split; [exists policy'; split; [exact H1|]; split; [exact H2|];
          rewrite H4; reflexivity|].
  destruct (Hcreate allow_everything) as (Hid & Hget & _).
  cbv zeta in Hid, Hget. split; [exact Hid|].
  rewrite Hid in Hget. change ("policy_" +:+ pretty 10) with "policy_10" in Hget.
  rewrite Hget. split; reflexivity.
Defined.

End PolicyLaws.

(** ** Laws of the PII detector *)

Module PIILaws.

Import PII.

(** [content.match(pattern) || []]: the matches of a pattern. *)
Definition matches (pattern : regex) (content : text) : list text :=
  default [] (matchAll pattern content).

Definition found (content : text) (entry : string * regex) : bool :=
  (0 <? length (matches (snd entry) content))%nat.

(** The number of matches of all patterns together. *)
Definition matchCount (content : text) (patterns : list (string * regex)) : nat :=
  list_sum (map (fun entry => length (matches (snd entry) content)) patterns).

Lemma found_Occ (content : text) (entry : string * regex) :
  found content entry = true <-> Occ (snd entry) false content.
Proof.
  unfold found, matches.
  destruct (matchAll (snd entry) content) as [[|m ms]|] eqn:Hm; simpl.
  - now apply matchAll_not_empty in Hm.
  - split; [intros _|reflexivity].
    destruct (Occ_dec (snd entry) content false) as [Ho|Ho]; [exact Ho|].
    apply matchAll_None in Ho. congruence.
  - split; [discriminate|]. intros Ho. apply matchAll_None in Hm. contradiction.
Qed.

Lemma detect_step_found (content : text) (d : Detection) (entry : string * regex) :
  detectedTypes (detect_step content d entry)
  = detectedTypes d ++ (if found content entry then [fst entry] else []) /\
  (conf (detect_step content d entry)
   == conf d + inject_Z (Z.of_nat (length (matches (snd entry) content))) * (1 # 10))%Q /\
  (found content entry = false -> detect_step content d entry = d).
Proof.
  destruct entry as [type p]. unfold detect_step, found, matches. simpl.
  destruct (matchAll p content) as [[|m ms]|]; simpl.
  - rewrite app_nil_r. split; [reflexivity|]. split; [ring|reflexivity].
  - split; [reflexivity|]. split; [reflexivity|discriminate].
  - rewrite app_nil_r. split; [reflexivity|]. split; [ring|reflexivity].
Qed.

Lemma loop_found (content : text) (pats : list (string * regex)) :
  forall d,
    detectedTypes (detect_loop content pats d)
    = detectedTypes d ++ map fst (List.filter (found content) pats) /\
    (conf (detect_loop content pats d)
     == conf d + inject_Z (Z.of_nat (matchCount content pats)) * (1 # 10))%Q.
Proof.
  induction pats as [|e pats IH]; intros d.
  - simpl. rewrite app_nil_r. split; [reflexivity|]. unfold matchCount; simpl. ring.
  - rewrite detect_loop_cons.
    destruct (IH (detect_step content d e)) as [Ht Hc].
    destruct (detect_step_found content d e) as (Ht1 & Hc1 & _).
    split.
    + rewrite Ht, Ht1. simpl. destruct (found content e); simpl.
      * now rewrite <- app_assoc.
      * now rewrite app_nil_r.
    + rewrite Hc, Hc1. unfold matchCount; simpl.
      rewrite Nat2Z.inj_add, inject_Z_plus. ring.
Qed.

Lemma types_of_patterns : NoDup (map fst PII_PATTERNS).
Proof. apply (bool_decide_unpack _). vm_compute. exact I. Qed.

Lemma filter_sublist {A B} (f : A -> B) (p : A -> bool) (l : list A) :
  sublist (map f (List.filter p l)) (map f l).
Proof.
  induction l as [|x l IH]; simpl; [constructor|].
  destruct (p x); simpl; now constructor.
Qed.

(** X20. [detectPII] lists a type exactly when its pattern matches
    somewhere in the content it was given (the original content, not the
    content masked so far), each type once and in the order of
    [PII_PATTERNS]; [hasPII] is true exactly when some pattern matches;
    [originalContent] is the content. *)
Theorem detectPII_lists_matching_types (content : text) :
  let r := detectPII content in
  originalContent r = content /\
  piiTypes r = map fst (List.filter (found content) PII_PATTERNS) /\
  sublist (piiTypes r) (map fst PII_PATTERNS) /\
  (forall type pattern, In (type, pattern) PII_PATTERNS ->
     (In type (piiTypes r) <-> Occ pattern false content)) /\
  (hasPII r = true <->
   exists type pattern, In (type, pattern) PII_PATTERNS /\ Occ pattern false content).
Proof.
  cbv zeta. rewrite detectPII_unfold. cbv zeta.
  cbn [originalContent piiTypes hasPII].
  destruct (loop_found content PII_PATTERNS
              {| detectedTypes := []; masked := content; conf := 0 |}) as [Ht _].
  cbn [detectedTypes app] in Ht. rewrite Ht. clear Ht.
  assert (Hin : forall type pattern, In (type, pattern) PII_PATTERNS ->
            (In type (map fst (List.filter (found content) PII_PATTERNS))
             <-> Occ pattern false content)).
  { intros type pattern He. rewrite <- (found_Occ content (type, pattern)). split.
    - intros Hin. apply in_map_iff in Hin as ([type' p'] & Heq & Hin).
      simpl in Heq. subst type'. apply List.filter_In in Hin as [Hin Hf].
      assert (p' = pattern); [|now subst].
      pose proof types_of_patterns as Hnd. revert Hin He Hnd.
      generalize PII_PATTERNS. intros l. induction l as [|[t q] l IH]; [intros []|].
      simpl. rewrite NoDup_cons. intros [H1|H1] [H2|H2] [Hn Hnd].
      + congruence.
      + injection H1 as -> ->. exfalso. apply Hn. apply list_elem_of_In.
        now apply (in_map fst _ (type, pattern)).
      + injection H2 as -> ->. exfalso. apply Hn. apply list_elem_of_In.
        now apply (in_map fst _ (type, p')).
      + auto.
    - intros Hf. apply in_map_iff. exists (type, pattern). split; [reflexivity|].
      apply List.filter_In. auto. }
  split; [reflexivity|]. split; [reflexivity|]. split; [|split].
  - apply filter_sublist.
  - exact Hin.
  - split.
    + intros Hlen.
      destruct (map fst (List.filter (found content) PII_PATTERNS)) as [|type l] eqn:Hl;
        [discriminate|].
      assert (Hty : In type (map fst (List.filter (found content) PII_PATTERNS)))
        by (rewrite Hl; now left).
      pose proof Hty as Hty'. apply in_map_iff in Hty' as ([type' p] & Heq & Hp).
      simpl in Heq. subst type'. apply List.filter_In in Hp as [Hp _].
      exists type, p. split; [exact Hp|]. apply (Hin type p Hp). now left.
    + intros (type & p & Hp & Ho). apply (Hin type p Hp) in Ho.
      destruct (map fst (List.filter (found content) PII_PATTERNS));
        [destruct Ho|reflexivity].
Qed.

Lemma matchCount_found (content : text) (pats : list (string * regex)) :
  (0 <? matchCount content pats)%nat
  = (0 <? length (map fst (List.filter (found content) pats)))%nat.
Proof.
  induction pats as [|e pats IH]; [reflexivity|].
  unfold matchCount in *; simpl. unfold found at 1.
  destruct (length (matches (snd e) content)) as [|n]; simpl; [exact IH|reflexivity].
Qed.

Lemma Qmin_cap (a b : Q) : (a == b)%Q -> (Qmin a 1 == Qmin b 1)%Q.
Proof.
  intros H.
  destruct (Q.min_spec a 1) as [[H1 ->]|[H1 ->]];
    destruct (Q.min_spec b 1) as [[H2 ->]|[H2 ->]]; rewrite H in H1.
  - exact H.
  - exfalso. apply (Qlt_irrefl 1). eapply Qle_lt_trans; eassumption.
  - exfalso. apply (Qlt_irrefl 1). eapply Qle_lt_trans; eassumption.
  - reflexivity.
Qed.

(** X21. [hasPII] is true exactly when some pattern has a match, and then
    the confidence is at least a tenth and at most 1. Without a match
    nothing is listed, the confidence is 0 and the masked content is the
    content itself. The confidence is a sum of doubles in the source and of
    rationals here; these bounds hold of both, and the value between them
    is not stated. *)
Theorem detectPII_confidence (content : text) :
  let r := detectPII content in
  let n := matchCount content PII_PATTERNS in
  hasPII r = (0 <? n)%nat /\
  (hasPII r = true -> (1 # 10 <= confidence r)%Q /\ (confidence r <= 1)%Q) /\
  (hasPII r = false ->
   piiTypes r = [] /\ maskedContent r = content /\ (confidence r == 0)%Q).
Proof.
  cbv zeta. rewrite detectPII_unfold. cbv zeta.
  cbn [hasPII confidence piiTypes maskedContent].
  set (d0 := {| detectedTypes := []; masked := content; conf := 0 |}).
  destruct (loop_found content PII_PATTERNS d0) as [Ht Hc].
  cbn [detectedTypes conf app d0] in Ht, Hc. rewrite Qplus_0_l in Hc.
  set (n := matchCount content PII_PATTERNS) in *.
  assert (Hhas : (0 <? length (detectedTypes (detect_loop content PII_PATTERNS d0)))%nat
                 = (0 <? n)%nat).
  { rewrite Ht. unfold n. now rewrite matchCount_found. }
  assert (Hmin : (Qmin (conf (detect_loop content PII_PATTERNS d0)) 1
                  == Qmin (inject_Z (Z.of_nat n) * (1 # 10)) 1)%Q).
  { apply Qmin_cap, Hc. }
  split; [exact Hhas|]. split.
  - rewrite Hhas. intros Hn. apply Nat.ltb_lt in Hn.
    split; [|apply Q.le_min_r]. rewrite Hmin.
    apply Q.min_glb; [|discriminate].
    assert (H : (inject_Z 1 * (1 # 10) <= inject_Z (Z.of_nat n) * (1 # 10))%Q).
    { apply Qmult_le_compat_r; [|discriminate]. rewrite <- Zle_Qle. lia. }
    exact H.
  - rewrite Hhas. intros Hn. apply Nat.ltb_ge in Hn.
    assert (Hn0 : n = 0%nat) by lia.
    assert (Hnone : forall e, In e PII_PATTERNS -> found content e = false).
    { intros e He. destruct (found content e) eqn:Hf; [|reflexivity]. exfalso.
      assert (Hin : In (fst e) (map fst (List.filter (found content) PII_PATTERNS))).
      { apply in_map. apply List.filter_In. auto. }
      rewrite <- Ht in Hin.
      assert (Hz : (0 <? length (detectedTypes (detect_loop content PII_PATTERNS d0)))%nat
                   = true).
      { destruct (detectedTypes (detect_loop content PII_PATTERNS d0));
          [destruct Hin|reflexivity]. }
      rewrite Hhas, Hn0 in Hz. discriminate. }
    assert (Hloop : detect_loop content PII_PATTERNS d0 = d0).
    { apply loop_without_match. intros e He Ho.
      apply found_Occ in Ho. rewrite (Hnone e He) in Ho. discriminate. }
    rewrite Hloop. cbn [detectedTypes masked conf d0].
    split; [reflexivity|]. split; reflexivity.
Qed.

(** *** Masking the strings of a value *)

(** The values that are neither strings, arrays nor objects with
    properties; [maskPIIInObject] returns them as they are. *)
Inductive JsOther : Type :=
| JsUndefined
| JsNull
| JsBoolean (b : bool)
| JsNumber (x : Q).

(** A value, as far as [maskPIIInObject] tells values apart. An object is
    the list of its own enumerable string-keyed properties, in the order
    of [Object.entries]. *)
#[local] Unset Elimination Schemes.
Inductive JsValue : Type :=
| JsString (s : text)
| JsArray (items : list JsValue)
| JsObject (entries : list (text * JsValue))
| JsPlain (other : JsOther).
#[local] Set Elimination Schemes.

(** The assignment [masked[key] = value] on an object that was created as
    [{}] adds a property, except under the key [__proto__]: that key is
    the accessor inherited from [Object.prototype], and the assignment
    adds no property. *)
Definition is_proto (key : text) : bool := bool_decide (key = js "__proto__").

Definition assigned (entries : list (text * JsValue)) : list (text * JsValue) :=
  List.filter (fun entry => negb (is_proto (fst entry))) entries.

Fixpoint maskPIIInObject (obj : JsValue) (showPII : bool) {struct obj} : JsValue :=
  if showPII then obj
  else
    match obj with
    | JsString s => JsString (maskedContent (detectPII s))
    | JsArray items =>
        JsArray (map (fun item => maskPIIInObject item showPII) items)
    | JsObject entries =>
        JsObject
          (assigned
             (map (fun entry =>
                     let '(key, value) := entry in
                     (key, maskPIIInObject value showPII))
                entries))
    | JsPlain _ => obj
    end.

(** The strings that a value holds, at any depth, and its keys. *)
Fixpoint strings_of (v : JsValue) : list text :=
  match v with
  | JsString s => [s]
  | JsArray items => flat_map strings_of items
  | JsObject entries =>
      flat_map (fun entry => let '(_, value) := entry in strings_of value) entries
  | JsPlain _ => []
  end.

Fixpoint keys_of (v : JsValue) : list text :=
  match v with
  | JsString _ => []
  | JsArray items => flat_map keys_of items
  | JsObject entries =>
      flat_map (fun entry => let '(key, value) := entry in key :: keys_of value)
        entries
  | JsPlain _ => []
  end.

(** No pattern of the detector matches the text. *)
Definition clean (s : text) : Prop :=
  forall entry, In entry PII_PATTERNS -> ~ Occ (snd entry) false s.

Fixpoint JsValue_nested_ind (P : JsValue -> Prop)
    (Hstring : forall s, P (JsString s))
    (Harray : forall items, Forall P items -> P (JsArray items))
    (Hobject : forall entries,
        Forall (fun entry => P (snd entry)) entries -> P (JsObject entries))
    (Hplain : forall other, P (JsPlain other))
    (v : JsValue) {struct v} : P v :=
  match v with
  | JsString s => Hstring s
  | JsArray items =>
      Harray items
        ((fix all (l : list JsValue) : Forall P l :=
            match l with
            | [] => List.Forall_nil P
            | x :: l' =>
                @List.Forall_cons _ P x l'
                  (JsValue_nested_ind P Hstring Harray Hobject Hplain x) (all l')
            end) items)
  | JsObject entries =>
      Hobject entries
        ((fix all (l : list (text * JsValue))
            : Forall (fun entry => P (snd entry)) l :=
            match l with
            | [] => List.Forall_nil _
            | (key, value) :: l' =>
                @List.Forall_cons _ (fun entry => P (snd entry)) (key, value) l'
                  (JsValue_nested_ind P Hstring Harray Hobject Hplain value)
                  (all l')
            end) entries)
  | JsPlain other => Hplain other
  end.

Lemma masked_twice (s : text) :
  maskedContent (detectPII (maskedContent (detectPII s)))
  = maskedContent (detectPII s).
Proof.
  set (t := maskedContent (detectPII s)).
  rewrite (detectPII_unfold t). cbv zeta. cbn [maskedContent].
  rewrite loop_without_match; [reflexivity|].
  intros e He. now apply maskedContent_clean.
Qed.

Lemma maskPIIInObject_false (obj : JsValue) :
  maskPIIInObject obj false
  = match obj with
    | JsString s => JsString (maskedContent (detectPII s))
    | JsArray items => JsArray (map (fun item => maskPIIInObject item false) items)
    | JsObject entries =>
        JsObject
          (assigned
             (map (fun entry => (fst entry, maskPIIInObject (snd entry) false))
                entries))
    | JsPlain _ => obj
    end.
Proof.
  destruct obj as [s|items|entries|other]; try reflexivity.
  cbn [maskPIIInObject]. do 2 f_equal. apply map_ext. now intros [key value].
Qed.

Lemma assigned_map (f : JsValue -> JsValue) (entries : list (text * JsValue)) :
  assigned (map (fun entry => (fst entry, f (snd entry))) entries)
  = map (fun entry => (fst entry, f (snd entry))) (assigned entries).
Proof.
  unfold assigned. induction entries as [|[key value] entries IH]; simpl;
    [reflexivity|].
  destruct (is_proto key); simpl; now rewrite IH.
Qed.

Lemma assigned_twice (entries : list (text * JsValue)) :
  assigned (assigned entries) = assigned entries.
Proof.
  unfold assigned. induction entries as [|[key value] entries IH]; simpl;
    [reflexivity|].
  destruct (is_proto key) eqn:Hk; simpl; [exact IH|]. rewrite Hk. simpl.
  now rewrite IH.
Qed.

Lemma clean_masked (s : text) : clean (maskedContent (detectPII s)).
Proof. intros e He. now apply maskedContent_clean. Qed.

Lemma strings_of_entries (entries : list (text * JsValue)) :
  strings_of (JsObject entries)
  = flat_map (fun entry => strings_of (snd entry)) entries.
Proof.
  cbn [strings_of]. induction entries as [|[key value] l IH]; [reflexivity|].
  cbn [flat_map snd]. now rewrite IH.
Qed.

Lemma keys_of_entries (entries : list (text * JsValue)) :
  keys_of (JsObject entries)
  = flat_map (fun entry => fst entry :: keys_of (snd entry)) entries.
Proof.
  cbn [keys_of]. induction entries as [|[key value] l IH]; [reflexivity|].
  cbn [flat_map fst snd]. now rewrite IH.
Qed.

Lemma assigned_In (entry : text * JsValue) (entries : list (text * JsValue)) :
  In entry (assigned entries) -> In entry entries.
Proof. unfold assigned. intros H. now apply List.filter_In in H. Qed.

(** X22. With [showPII], [maskPIIInObject] returns its argument. Without,
    no pattern of the detector matches any string that the result holds,
    at any depth. Keys are never masked: every key of the result is a key
    of the argument, as it was. An array keeps its length, and a value
    that is neither a string, an array nor an object is returned as it
    is. *)
Theorem maskPIIInObject_masks_every_string (obj : JsValue) :
  maskPIIInObject obj true = obj /\
  Forall clean (strings_of (maskPIIInObject obj false)) /\
  (forall key, In key (keys_of (maskPIIInObject obj false)) -> In key (keys_of obj)) /\
  (forall items, obj = JsArray items ->
     exists items', maskPIIInObject obj false = JsArray items' /\
                    length items' = length items) /\
  (forall other, obj = JsPlain other -> maskPIIInObject obj false = obj).
Proof.
  split; [now destruct obj|]. split; [|split; [|split]].
  - induction obj as [s|items IH|entries IH|other] using JsValue_nested_ind;
      rewrite maskPIIInObject_false.
    + cbn [strings_of]. apply List.Forall_cons; [apply clean_masked|].
      apply List.Forall_nil.
    + cbn [strings_of]. rewrite List.Forall_forall in *. intros s Hs.
      apply in_flat_map in Hs as (x & Hx & Hs).
      apply in_map_iff in Hx as (y & <- & Hy).
      specialize (IH y Hy). rewrite List.Forall_forall in IH. now apply IH.
    + rewrite strings_of_entries. rewrite List.Forall_forall in *. intros s Hs.
      apply in_flat_map in Hs as (x & Hx & Hs).
      apply assigned_In, in_map_iff in Hx as (y & <- & Hy). cbn [snd] in Hs.
      specialize (IH y Hy). cbn beta in IH. rewrite List.Forall_forall in IH.
      now apply IH.
    + apply List.Forall_nil.
  - induction obj as [s|items IH|entries IH|other] using JsValue_nested_ind;
      rewrite maskPIIInObject_false.
    + auto.
    + cbn [keys_of]. intros key Hk. apply in_flat_map in Hk as (x & Hx & Hk).
      apply in_map_iff in Hx as (y & <- & Hy).
      apply in_flat_map. exists y. split; [exact Hy|].
      rewrite List.Forall_forall in IH. now apply IH.
    + rewrite !keys_of_entries. intros key Hk.
      apply in_flat_map in Hk as (x & Hx & Hk).
      apply assigned_In, in_map_iff in Hx as (y & <- & Hy). cbn [fst snd] in Hk.
      apply in_flat_map. exists y. split; [exact Hy|].
      destruct Hk as [<-|Hk]; [now left|right].
      rewrite List.Forall_forall in IH. now apply (IH y).
    + auto.
  - intros items ->. rewrite maskPIIInObject_false. eexists. split; [reflexivity|].
    apply length_map.
  - intros other ->. reflexivity.
Qed.

(** X23. Masking is idempotent: to mask a masked value changes nothing. *)
Theorem maskPIIInObject_idempotent (obj : JsValue) :
  maskPIIInObject (maskPIIInObject obj false) false = maskPIIInObject obj false.
Proof.
  induction obj as [s|items IH|entries IH|other] using JsValue_nested_ind.
  - rewrite (maskPIIInObject_false (JsString s)), maskPIIInObject_false.
    now rewrite masked_twice.
  - rewrite (maskPIIInObject_false (JsArray items)), maskPIIInObject_false.
    f_equal. rewrite map_map.
    apply map_ext_in. intros x Hx. rewrite List.Forall_forall in IH. now apply IH.
  - rewrite (maskPIIInObject_false (JsObject entries)), maskPIIInObject_false.
    f_equal. rewrite (assigned_map (fun v => maskPIIInObject v false) entries).
    rewrite (assigned_map (fun v => maskPIIInObject v false)
               (map _ (assigned entries))).
    rewrite (assigned_map (fun v => maskPIIInObject v false) (assigned entries)).
    rewrite assigned_twice, map_map. cbn [fst snd].
    apply map_ext_in. intros [key value] Hx. cbn [fst snd]. f_equal.
    apply assigned_In in Hx.
    rewrite List.Forall_forall in IH. now apply (IH (key, value)).
  - reflexivity.
Qed.

(** *** The laws at a text and at an object *)

Lemma detectPII_lists_matching_types_witness :
  let content := js "mail john.doe@example.com from 10.0.0.1" in
  piiTypes (detectPII content) = ["email"; "ipAddress"] /\
  Occ email false content /\ Occ ipAddress false content /\
  ~ Occ ssn false content.
Proof.
  cbv zeta.
  destruct (detectPII_lists_matching_types
              (js "mail john.doe@example.com from 10.0.0.1"))
    as (_ & Ht & _ & Hin & _).
  cbv zeta in Ht, Hin.
  assert (Hty : piiTypes (detectPII (js "mail john.doe@example.com from 10.0.0.1"))
                = ["email"; "ipAddress"]) by (vm_compute; reflexivity).
  rewrite Hty in Hin. split; [exact Hty|]. split; [|split].
  - apply (Hin "email"); [left; reflexivity|left; reflexivity].
  - apply (Hin "ipAddress"); [do 4 right; left; reflexivity|right; left; reflexivity].
  - intros Ho. apply (Hin "ssn") in Ho; [|right; left; reflexivity].
    destruct Ho as [H|[H|[]]]; discriminate.
Defined.

Lemma detectPII_confidence_witness :
  let content := js "mail john.doe@example.com from 10.0.0.1" in
  matchCount content PII_PATTERNS = 2%nat /\
  hasPII (detectPII content) = true /\
  (1 # 10 <= confidence (detectPII content))%Q /\
  (confidence (detectPII (js "nothing to hide")) == 0)%Q.
Proof.
  cbv zeta.
  assert (Hn : matchCount (js "mail john.doe@example.com from 10.0.0.1") PII_PATTERNS
               = 2%nat) by (vm_compute; reflexivity).
  split; [exact Hn|].
  destruct (detectPII_confidence (js "mail john.doe@example.com from 10.0.0.1"))
    as (Hh & Hc & _).
  cbv zeta in Hh, Hc. rewrite Hn in Hh.
  split; [exact Hh|]. split; [apply Hc, Hh|].
  destruct (detectPII_confidence (js "nothing to hide")) as (Hh' & _ & Hnone).
  cbv zeta in Hh', Hnone. apply Hnone. rewrite Hh'. vm_compute. reflexivity.
Defined.

(** An object with an e-mail address among its keys and among its values. *)
Definition contact_card : JsValue :=
  JsObject
    [ (js "john@example.com", JsString (js "john@example.com"));
      (js "hosts", JsArray [JsString (js "10.0.0.1"); JsPlain (JsNumber (7 # 1))]);
      (js "__proto__", JsString (js "123-45-6789")) ].

Definition masked_card : JsValue :=
  JsObject
    [ (js "john@example.com", JsString (js "***@***.***"));
      (js "hosts", JsArray [JsString (js "***.***.***.***"); JsPlain (JsNumber (7 # 1))]) ].

Lemma maskPIIInObject_masks_every_string_witness :
  maskPIIInObject contact_card false = masked_card /\
  Forall clean (strings_of masked_card) /\
  keys_of masked_card = [js "john@example.com"; js "hosts"].
Proof.
  assert (Hm : maskPIIInObject contact_card false = masked_card)
    by (vm_compute; reflexivity).
  split; [exact Hm|]. split; [|reflexivity].
  destruct (maskPIIInObject_masks_every_string contact_card) as (_ & Hc & _).
  rewrite Hm in Hc. exact Hc.
Defined.

Lemma maskPIIInObject_idempotent_witness :
  maskPIIInObject masked_card false = masked_card.
Proof.
  assert (Hm : maskPIIInObject contact_card false = masked_card)
    by (vm_compute; reflexivity).
  rewrite <- Hm. apply maskPIIInObject_idempotent.
Defined.

End PIILaws.

(** ** Laws of the event store and its queries *)

Module ObsLaws.

Import Obs.

(** *** What a query selects *)

(** The conditions that a query puts on an event. A time of 0 and an empty
    list put none, as an absent one. *)
Definition selects (q : TimelineQuery) (e : TimelineEvent) : Prop :=
  (forall t, startTime q = Some t -> t <> 0 -> t <= timestamp e) /\
  (forall t, endTime q = Some t -> t <> 0 -> timestamp e <= t) /\
  (forall x l, eventTypes q = Some (x :: l) -> In (type e) (x :: l)) /\
  (forall x l, sources q = Some (x :: l) -> In (source e) (x :: l)) /\
  (forall x l, severities q = Some (x :: l) -> In (severity e) (x :: l)) /\
  (forall x l, spanIds q = Some (x :: l) ->
     exists s, spanId e = Some s /\ s <> "" /\ In s (x :: l)) /\
  (forall x l, userIds q = Some (x :: l) ->
     exists u, userId e = Some u /\ u <> "" /\ In u (x :: l)) /\
  (forall x l, query_tags q = Some (x :: l) ->
     exists tag, In tag (x :: l) /\ In tag (tags e)).

Lemma includes_In `{EqDecision A} (l : list A) (x : A) :
  includes l x = true <-> In x l.
Proof.
  unfold includes. rewrite existsb_exists. split.
  - intros (y & Hy & Heq). apply bool_decide_eq_true_1 in Heq. now subst.
  - intros Hx. exists x. split; [exact Hx|]. now apply bool_decide_eq_true_2.
Qed.

Lemma truthy_includes_In (l : list string) (s : option string) :
  truthy_includes l s = true <-> exists x, s = Some x /\ x <> "" /\ In x l.
Proof.
  unfold truthy_includes. destruct s as [x|].
  - rewrite andb_true_iff, negb_true_iff, includes_In. split.
    + intros [Hne Hin]. apply bool_decide_eq_false_1 in Hne. eauto.
    + intros (y & Heq & Hne & Hin). injection Heq as <-.
      split; [now apply bool_decide_eq_false_2|exact Hin].
  - split; [discriminate|]. intros (x & Heq & _). discriminate.
Qed.

Lemma filter_when_In {A B} (c : option B) (p : B -> A -> bool) (xs : list A)
    (x : A) :
  In x (filter_when c p xs) <-> In x xs /\ (forall b, c = Some b -> p b x = true).
Proof.
  destruct c as [b|]; simpl.
  - rewrite List.filter_In. split.
    + intros [H1 H2]. split; [exact H1|]. now intros b' [= <-].
    + intros [H1 H2]. auto.
  - split; [intros H; split; [exact H|discriminate]|tauto].
Qed.

Lemma truthy_num_Some (x : option Z) (t : Z) :
  truthy_num x = Some t <-> x = Some t /\ t <> 0.
Proof.
  unfold truthy_num. destruct x as [v|]; [|split; [discriminate|intros [[=] _]]].
  destruct (Z.eqb_spec v 0) as [->|Hne].
  - split; [discriminate|]. intros [[= <-] H]. contradiction.
  - split; [intros [= <-]; auto|]. now intros [[= <-] _].
Qed.

Lemma nonempty_Some {A} (o : option (list A)) (l : list A) :
  nonempty o = Some l <-> exists x l', l = x :: l' /\ o = Some l.
Proof.
  unfold nonempty. destruct o as [[|x l']|].
  - split; [discriminate|]. intros (y & l'' & -> & [=]).
  - split; [intros [= <-]; eauto|]. now intros (y & l'' & -> & [= -> ->]).
  - split; [discriminate|]. intros (y & l'' & _ & [=]).
Qed.

Lemma filterEvents_selects (st : Store) (q : TimelineQuery) (e : TimelineEvent) :
  In e (filterEvents st q) <-> In e (events st) /\ selects q e.
Proof.
  unfold filterEvents, selects. rewrite !filter_when_In. split.
  - intros [[[[[[[[Hin H1] H2] H3] H4] H5] H6] H7] H8]. split; [exact Hin|].
    repeat split.
    + intros t Ht Hne.
      assert (H := H1 t (proj2 (truthy_num_Some _ _) (conj Ht Hne))).
      now apply Z.geb_le in H.
    + intros t Ht Hne.
      assert (H := H2 t (proj2 (truthy_num_Some _ _) (conj Ht Hne))).
      now apply Z.leb_le in H.
    + intros x l Hq. apply includes_In, H3, nonempty_Some. eauto.
    + intros x l Hq. apply includes_In, H4, nonempty_Some. eauto.
    + intros x l Hq. apply includes_In, H5, nonempty_Some. eauto.
    + intros x l Hq. apply truthy_includes_In, H6, nonempty_Some. eauto.
    + intros x l Hq. apply truthy_includes_In, H7, nonempty_Some. eauto.
    + intros x l Hq.
      assert (H := H8 (x :: l) (proj2 (nonempty_Some _ _) (ex_intro _ x (ex_intro _ l (conj eq_refl Hq))))).
      apply existsb_exists in H as (tag & Htag & Hin'). apply includes_In in Hin'.
      eauto.
  - intros [Hin (H1 & H2 & H3 & H4 & H5 & H6 & H7 & H8)].
    repeat split; try exact Hin.
    + intros t Ht. apply truthy_num_Some in Ht as [Ht Hne].
      apply Z.geb_le. now apply H1.
    + intros t Ht. apply truthy_num_Some in Ht as [Ht Hne].
      apply Z.leb_le. now apply H2.
    + intros l Hl. apply nonempty_Some in Hl as (x & l' & -> & Hq).
      apply includes_In. now apply (H3 x l').
    + intros l Hl. apply nonempty_Some in Hl as (x & l' & -> & Hq).
      apply includes_In. now apply (H4 x l').
    + intros l Hl. apply nonempty_Some in Hl as (x & l' & -> & Hq).
      apply includes_In. now apply (H5 x l').
    + intros l Hl. apply nonempty_Some in Hl as (x & l' & -> & Hq).
      apply truthy_includes_In. now apply (H6 x l').
    + intros l Hl. apply nonempty_Some in Hl as (x & l' & -> & Hq).
      apply truthy_includes_In. now apply (H7 x l').
    + intros l Hl. apply nonempty_Some in Hl as (x & l' & -> & Hq).
      destruct (H8 x l' Hq) as (tag & Htag & Hin').
      apply existsb_exists. exists tag. split; [exact Htag|].
      now apply includes_In.
Qed.

(** X24. What [queryEvents] selects. Every event it returns is stored and
    meets each condition of the query: not before [startTime], not after
    [endTime], its type, source and severity among those asked for, its
    span and user set, not empty and among those asked for, one of its tags
    among those asked for; a time of 0 and an empty list are no condition.
    Every stored event that meets the conditions is among the filtered
    events, and is returned when these fit on the first page. *)
Theorem queryEvents_selects (st : Store) (q : TimelineQuery) :
  (forall e, In e (queryEvents st q) -> In e (events st) /\ selects q e) /\
  (forall e, In e (events st) -> selects q e ->
     In e (sort newest_first (filterEvents st q))) /\
  (forall e, In e (events st) -> selects q e ->
     (Z.of_nat (length (filterEvents st q)) <= num_or (limit q) 100) ->
     num_or (offset q) 0 = 0 ->
     In e (queryEvents st q)).
Proof.
  assert (Hperm := sort_perm timestamp (filterEvents st q)).
  split; [|split].
  - intros e He. apply filterEvents_selects.
    eapply Permutation_in; [exact Hperm|].
    apply list_elem_of_In. eapply elem_of_sublist; [|apply slice_sublist].
    apply list_elem_of_In. exact He.
  - intros e He Hs. eapply Permutation_in; [symmetry; exact Hperm|].
    apply filterEvents_selects. auto.
  - intros e He Hs Hlen Hoff. unfold queryEvents. rewrite Hoff.
    assert (Hl : length (sort newest_first (filterEvents st q))
                 = length (filterEvents st q))
      by (apply Permutation_length, Hperm).
    unfold slice, relative_index. rewrite Hl.
    set (n := Z.of_nat (length (filterEvents st q))) in *.
    change (0 <? 0) with false. cbv iota.
    rewrite (Z.min_l 0 n) by lia. change (Z.to_nat 0) with 0%nat. rewrite drop_0.
    assert (Hlim : 0 <= num_or (limit q) 100) by lia.
    destruct (0 + num_or (limit q) 100 <? 0) eqn:Hneg; [lia|].
    rewrite Z.min_r by lia. rewrite Z.sub_0_r. unfold n. rewrite Nat2Z.id.
    rewrite <- Hl, firstn_all.
    eapply Permutation_in; [symmetry; exact Hperm|].
    apply filterEvents_selects. auto.
Qed.

(** X25. Pages. With an offset that is not negative and a positive limit,
    [queryEvents] drops [offset] of the selected events, newest first, and
    returns the next [limit] of them (fewer at the end): the pages at
    offsets 0, [limit], twice [limit] and so on, one after the other, are
    the selected events, newest first. *)
Theorem queryEvents_page (st : Store) (q : TimelineQuery) (off lim : Z) :
  offset q = Some off -> limit q = Some lim -> 0 <= off -> 0 < lim ->
  queryEvents st q
  = take (Z.to_nat lim) (drop (Z.to_nat off) (sort newest_first (filterEvents st q))).
Proof.
  intros Ho Hl Hoff Hlim. unfold queryEvents. rewrite Ho, Hl.
  assert (H1 : num_or (Some off) 0 = off).
  { unfold num_or, truthy_num. destruct (Z.eqb_spec off 0); congruence. }
  assert (H2 : num_or (Some lim) 100 = lim).
  { unfold num_or, truthy_num. destruct (Z.eqb_spec lim 0); [lia|reflexivity]. }
  rewrite H1, H2. unfold slice, relative_index.
  set (l := sort newest_first (filterEvents st q)).
  set (n := Z.of_nat (length l)).
  destruct (off <? 0) eqn:E1; [lia|]. destruct (off + lim <? 0) eqn:E2; [lia|].
  destruct (decide (off + lim <= n)) as [Hle|Hgt].
  - rewrite !Z.min_l by lia. f_equal. lia.
  - rewrite (Z.min_r (off + lim)) by lia.
    destruct (decide (off <= n)) as [Hon|Hon].
    + rewrite Z.min_l by lia.
      rewrite !take_ge; [reflexivity| |]; rewrite length_drop; unfold n in *; lia.
    + rewrite Z.min_r by lia. rewrite Z.sub_diag. simpl.
      rewrite (drop_ge l (Z.to_nat off)) by (unfold n in *; lia).
      now rewrite take_nil.
Qed.

(** *** An event that was just logged *)

Lemma sort_newest_last {A} (key : A -> Z) (l : list A) (x : A) :
  (forall y, In y l -> key y < key x) ->
  sort (fun a b => key b - key a) (l ++ [x])
  = x :: sort (fun a b => key b - key a) l.
Proof.
  induction l as [|y l IH]; intros Hlt; [reflexivity|].
  simpl. rewrite IH by (intros z Hz; apply Hlt; now right).
  simpl. assert (Hy : key y < key x) by (apply Hlt; now left).
  destruct (Z.leb_spec (key x - key y) 0); [lia|reflexivity].
Qed.

(** X26. An event that was just logged. When no listener acts on the
    store, [logEvent] returns the identifier of the event and leaves the
    metrics alone; the stored events are the last 1000 of the former ones
    followed by the new one, so the new event is always kept, as the last;
    and if it is newer than every event that was stored, the query without
    conditions returns it first. *)
Theorem logged_event_is_found (run_listeners : EventType -> TimelineEvent -> Store -> Store)
    (eventId : string) (now : Z) (ty : EventType) (src msg : string)
    (options : LogOptions) (st : Store) :
  run_listeners ty = (fun _ s => s) ->
  let st' := snd (logEvent run_listeners eventId now ty src msg options st) in
  let event :=
    {| id := eventId; timestamp := now; type := ty; source := src;
       spanId := opt_spanId options; userId := opt_userId options;
       severity := default INFO (opt_severity options);
       message := msg; tags := default [] (opt_tags options) |} in
  fst (logEvent run_listeners eventId now ty src msg options st) = eventId /\
  metrics st' = metrics st /\
  events st' = drop (length (events st) + 1 - 1000) (events st ++ [event]) /\
  last (events st') = Some event /\
  ((forall e, In e (events st) -> timestamp e < now) ->
   head (queryEvents st' empty_query) = Some event).
Proof.
  intros Hrun. cbv zeta. unfold logEvent. rewrite Hrun. cbn [fst snd].
  set (event := {| id := eventId; timestamp := now |}).
  cbn [events with_events metrics].
  split; [reflexivity|].
  assert (Hev : events
            (if Z.of_nat (length (events st ++ [event])) >? 1000
             then with_events
                    (slice (events st ++ [event]) (-1000)
                       (Z.of_nat (length (events st ++ [event]))))
                    (with_events (events st ++ [event]) st)
             else with_events (events st ++ [event]) st)
          = drop (length (events st) + 1 - 1000) (events st ++ [event])).
  { rewrite length_app. cbn [length].
    destruct (Z.gtb_spec (Z.of_nat (length (events st) + 1)) 1000) as [Hgt|Hle].
    - cbn [events with_events]. unfold slice, relative_index.
      rewrite length_app. cbn [length].
      set (n := (length (events st) + 1)%nat) in *.
      change (-1000 <? 0) with true. cbv iota.
      destruct (Z.of_nat n <? 0) eqn:E; [lia|].
      rewrite Z.max_l, Z.min_l by lia.
      replace (Z.to_nat (Z.of_nat n + -1000)) with (n - 1000)%nat by lia.
      apply take_ge. rewrite length_drop, length_app. cbn [length]. lia.
    - cbn [events with_events].
      replace (length (events st) + 1 - 1000)%nat with 0%nat by lia.
      now rewrite drop_0. }
  assert (Hme : metrics
            (if Z.of_nat (length (events st ++ [event])) >? 1000
             then with_events
                    (slice (events st ++ [event]) (-1000)
                       (Z.of_nat (length (events st ++ [event]))))
                    (with_events (events st ++ [event]) st)
             else with_events (events st ++ [event]) st)
          = metrics st).
  { destruct (_ >? _); reflexivity. }
  split; [exact Hme|]. split; [exact Hev|].
  assert (Hdrop : drop (length (events st) + 1 - 1000) (events st ++ [event])
                  = drop (length (events st) + 1 - 1000) (events st) ++ [event]).
  { rewrite drop_app.
    replace (length (events st) + 1 - 1000 - length (events st))%nat with 0%nat
      by lia. reflexivity. }
  split.
  - rewrite Hev, Hdrop. apply last_snoc.
  - intros Hnew. unfold queryEvents, filterEvents. cbn [startTime endTime
      eventTypes sources severities spanIds userIds query_tags offset limit
      empty_query truthy_num nonempty filter_when num_or].
    rewrite Hev, Hdrop.
    rewrite (sort_newest_last timestamp).
    + unfold slice, relative_index. cbn [length].
      change (0 <? 0) with false. change (0 + 100 <? 0) with false. cbv iota.
      rewrite (Z.min_l 0) by lia. change (Z.to_nat 0) with 0%nat. rewrite drop_0.
      set (k := Z.min (0 + 100) _).
      assert (Hk : 0 < k) by (unfold k; lia).
      replace (Z.to_nat (k - 0)) with (S (Z.to_nat (k - 1))) by lia.
      reflexivity.
    + intros y Hy. apply Hnew.
      apply list_elem_of_In. eapply elem_of_sublist; [|apply sublist_drop].
      apply list_elem_of_In. exact Hy.
Qed.

(** *** The laws at the store of 101 events *)

Definition third_page : TimelineQuery :=
  {| startTime := None; endTime := None; eventTypes := None; sources := None;
     severities := None; spanIds := None; userIds := None; query_tags := None;
     offset := Some 10; limit := Some 5 |}.

Definition no_listeners (ty : EventType) (e : TimelineEvent) (st : Store) : Store :=
  st.

Definition no_options : LogOptions :=
  {| opt_spanId := None; opt_userId := None; opt_severity := None;
     opt_tags := None |}.

Lemma queryEvents_selects_witness :
  let q :=
    {| startTime := Some 0; endTime := Some 3; eventTypes := Some [];
       sources := Some ["span_engine"]; severities := None; spanIds := None;
       userIds := None; query_tags := None; offset := None; limit := None |} in
  map timestamp (queryEvents store_101 q) = [3; 2; 1; 0] /\
  Forall (fun e => timestamp e <= 3 /\ source e = "span_engine")
    (queryEvents store_101 q).
Proof.
  cbv zeta. split; [vm_compute; reflexivity|].
  apply List.Forall_forall. intros e He.
  match type of He with
  | In e (queryEvents store_101 ?q) =>
      destruct (queryEvents_selects store_101 q) as (Hsound & _);
      destruct (Hsound e He) as (_ & (_ & Hend & _ & Hsrc & _))
  end.
  split.
  - apply (Hend 3); [reflexivity|discriminate].
  - destruct (Hsrc "span_engine" [] eq_refl) as [H|[]]. now symmetry.
Defined.

Lemma queryEvents_page_witness :
  map timestamp (queryEvents store_101 third_page) = [90; 89; 88; 87; 86].
Proof.
  rewrite (queryEvents_page store_101 third_page 10 5);
    [vm_compute; reflexivity|reflexivity|reflexivity|lia|lia].
Defined.

Lemma logged_event_is_found_witness :
  let st' := snd (logEvent no_listeners "event_101" 101 "span_created"
                    "span_engine" "Span created" no_options store_101) in
  length (events st') = 102%nat /\
  (id <$> head (queryEvents st' empty_query)) = Some "event_101".
Proof.
  cbv zeta.
  destruct (logged_event_is_found no_listeners "event_101" 101 "span_created"
              "span_engine" "Span created" no_options store_101 eq_refl)
    as (_ & _ & Hev & _ & Hq).
  cbv zeta in Hev, Hq. split.
  - rewrite Hev. reflexivity.
  - rewrite Hq; [reflexivity|].
    intros e He. apply in_map_iff in He as (n & <- & Hn).
    apply in_seq in Hn. simpl. lia.
Defined.

End ObsLaws.

(** ** Metrics and alerts (timeline-observability, [recordMetric],
    [createAlert], [resolveAlert], [getAlerts]) *)

Module Monitor.

Import Obs.

(** [SystemAlert] is declared outside the sources; its fields are those
    that [createAlert] and [resolveAlert] write. *)
Record SystemAlert : Type := {
  alert_id : string;
  alert_timestamp : Z;
  alert_type : string;
  alert_severity : string;
  alert_title : string;
  alert_description : string;
  alert_source : string;
  resolved : bool;
  resolvedAt : option Z;
  resolvedBy : option string
}.

(** The events and metrics of the engine, and its alerts. *)
Record Engine : Type := {
  store : Store;
  alerts : list SystemAlert
}.

(** The identifier drawn for a new record, and the reading of the clock
    that stamps it. *)
Record Stamp : Type := {
  stamp_id : string;
  stamp_now : Z
}.

Definition with_events (l : list TimelineEvent) (m : Engine) : Engine :=
  {| store := {| events := l; metrics := metrics (store m) |};
     alerts := alerts m |}.

Definition with_metrics (l : list PerformanceMetric) (m : Engine) : Engine :=
  {| store := {| events := events (store m); metrics := l |};
     alerts := alerts m |}.

Definition with_alerts (l : list SystemAlert) (m : Engine) : Engine :=
  {| store := store m; alerts := l |}.

Record Threshold : Type := {
  warning : Q;
  critical : Q
}.

(** The table of [checkPerformanceThresholds]. A name that the table
    inherits from [Object.prototype] yields an object without the two
    numbers, and every comparison with it is false: as for a name that is
    not in the table, no alert is raised. *)
Definition thresholds (metric : string) : option Threshold :=
  if String.eqb metric "cpu_usage" then Some {| warning := 80; critical := 95 |}
  else if String.eqb metric "memory_usage"
  then Some {| warning := 80; critical := 95 |}
  else if String.eqb metric "span_execution_time"
  then Some {| warning := 5000; critical := 10000 |}
  else None.

Definition has_id (alertId : string) (a : SystemAlert) : bool :=
  String.eqb (alert_id a) alertId.

(** The three assignments of [resolveAlert]. *)
Definition resolve (now : Z) (user : string) (a : SystemAlert) : SystemAlert :=
  {| alert_id := alert_id a; alert_timestamp := alert_timestamp a;
     alert_type := alert_type a; alert_severity := alert_severity a;
     alert_title := alert_title a; alert_description := alert_description a;
     alert_source := alert_source a;
     resolved := true; resolvedAt := Some now; resolvedBy := Some user |}.

Definition newest_alert_first (a b : SystemAlert) : Z :=
  alert_timestamp b - alert_timestamp a.

(** [getAlerts(resolved)]; [None] is the call without an argument. *)
Definition getAlerts (only : option bool) (m : Engine) : list SystemAlert :=
  match only with
  | None => sort newest_alert_first (alerts m)
  | Some r =>
      sort newest_alert_first
        (List.filter (fun a => Bool.eqb (resolved a) r) (alerts m))
  end.

Lemma find_update_first {A} (p : A -> bool) (f : A -> A) (l : list A) (a : A) :
  find p l = Some a -> p (f a) = true ->
  find p (Gov.update_first p f l) = Some (f a).
Proof.
  intros Hf Hp. induction l as [|x l IH]; simpl in *; [discriminate|].
  destruct (p x) eqn:Hx.
  - injection Hf as ->. simpl. now rewrite Hp.
  - simpl. rewrite Hx. auto.
Qed.

Lemma update_first_count {A} (p q : A -> bool) (f : A -> A) (l : list A) (a : A) :
  find p l = Some a -> q a = true -> q (f a) = false ->
  (length (List.filter q (Gov.update_first p f l)) + 1
   = length (List.filter q l))%nat /\
  (length (List.filter (fun x => negb (q x)) (Gov.update_first p f l))
   = length (List.filter (fun x => negb (q x)) l) + 1)%nat /\
  length (Gov.update_first p f l) = length l.
Proof.
  intros Hf Hq Hq'. induction l as [|x l IH]; simpl in *; [discriminate|].
  destruct (p x) eqn:Hx.
  - injection Hf as ->. simpl. rewrite Hq, Hq'. simpl. lia.
  - simpl. destruct (IH Hf) as (H1 & H2 & H3). destruct (q x); simpl; lia.
Qed.

Lemma filter_partition {A} (q : A -> bool) (l : list A) :
  Permutation l (List.filter q l ++ List.filter (fun x => negb (q x)) l).
Proof.
  induction l as [|x l IH]; simpl; [constructor|].
  destruct (q x); simpl.
  - now constructor.
  - now apply Permutation_cons_app.
Qed.

Lemma filter_resolved (l : list SystemAlert) :
  List.filter (fun a => Bool.eqb (resolved a) true) l
  = List.filter (fun a => negb (Bool.eqb (resolved a) false)) l.
Proof. apply List.filter_ext. intros a. now destruct (resolved a). Qed.

Lemma getAlerts_length (only : option bool) (m : Engine) :
  length (getAlerts only m)
  = match only with
    | None => length (alerts m)
    | Some r => length (List.filter (fun a => Bool.eqb (resolved a) r) (alerts m))
    end.
Proof.
  destruct only as [r|]; unfold getAlerts;
    apply Permutation_length, (sort_perm alert_timestamp).
Qed.

(** X29. [getAlerts] returns its alerts newest first. Without an argument
    it returns all the alerts; with one, exactly the alerts whose [resolved]
    flag is the argument. The resolved and the unresolved alerts together
    are all the alerts. *)
Theorem getAlerts_partition (m : Engine) :
  (forall only, StronglySorted (newest_before alert_timestamp) (getAlerts only m)) /\
  Permutation (getAlerts None m) (alerts m) /\
  Permutation (getAlerts None m)
    (getAlerts (Some true) m ++ getAlerts (Some false) m) /\
  (forall r a, In a (getAlerts (Some r) m) <-> In a (alerts m) /\ resolved a = r).
Proof.
  split; [|split; [|split]].
  - intros [r|]; apply (sort_sorted alert_timestamp).
  - apply (sort_perm alert_timestamp).
  - unfold getAlerts.
    rewrite (sort_perm alert_timestamp (alerts m)).
    rewrite (sort_perm alert_timestamp (List.filter _ (alerts m))).
    rewrite (sort_perm alert_timestamp (List.filter _ (alerts m))).
    rewrite (filter_partition (fun a => Bool.eqb (resolved a) true) (alerts m)) at 1.
    apply Permutation_app_head.
    replace (List.filter (fun x => negb (Bool.eqb (resolved x) true)) (alerts m))
      with (List.filter (fun a => Bool.eqb (resolved a) false) (alerts m));
      [reflexivity|].
    apply List.filter_ext. intros a. now destruct (resolved a).
  - intros r a. unfold getAlerts. split.
    + intros H. apply (Permutation_in _ (sort_perm alert_timestamp _)) in H.
      apply List.filter_In in H as [H1 H2]. split; [exact H1|].
      now apply Bool.eqb_prop in H2.
    + intros [H1 H2].
      apply (Permutation_in _ (Permutation_sym (sort_perm alert_timestamp _))).
      apply List.filter_In. split; [exact H1|]. rewrite H2. apply Bool.eqb_reflx.
Qed.

Section Engine.

(** The listeners registered for a type of event, run on the whole engine:
    a listener may record metrics and raise alerts. *)
Variable run_listeners : EventType -> TimelineEvent -> Engine -> Engine.

(** [EventType.PERFORMANCE_ALERT]; the enum is declared outside the
    sources. *)
Variable PERFORMANCE_ALERT : EventType.

(** The text of a number in a template literal. *)
Variable Number_toString : Q -> string.

(** [logEvent], on the whole engine. *)
Definition logEvent (stamp : Stamp) (ty : EventType) (src msg : string)
    (options : LogOptions) (m : Engine) : string * Engine :=
  let event :=
    {| id := stamp_id stamp; timestamp := stamp_now stamp; type := ty;
       source := src;
       spanId := opt_spanId options; userId := opt_userId options;
       severity := default INFO (opt_severity options);
       message := msg;
       tags := default [] (opt_tags options) |} in
  let m1 := with_events (events (store m) ++ [event]) m in
  let m2 := run_listeners ty event m1 in
  let m3 :=
    if Z.of_nat (length (events (store m2))) >? 1000
    then with_events
           (slice (events (store m2)) (-1000)
              (Z.of_nat (length (events (store m2))))) m2
    else m2 in
  (stamp_id stamp, m3).

(** [createAlert]. *)
Definition createAlert (alert_stamp event_stamp : Stamp)
    (type severity title description source : string) (m : Engine)
  : string * Engine :=
  let alert :=
    {| alert_id := stamp_id alert_stamp;
       alert_timestamp := stamp_now alert_stamp;
       alert_type := type; alert_severity := severity;
       alert_title := title; alert_description := description;
       alert_source := source;
       resolved := false; resolvedAt := None; resolvedBy := None |} in
  let m1 := with_alerts (alerts m ++ [alert]) m in
  let m2 :=
    snd (logEvent event_stamp PERFORMANCE_ALERT source
           ("Alert created: " +:+ title)
           {| opt_spanId := None; opt_userId := None;
              opt_severity :=
                Some (if String.eqb severity "critical" then CRITICAL_SEVERITY
                      else if String.eqb severity "high" then ERROR
                      else WARNING);
              opt_tags := Some ["alert"; type] |}
           m1) in
  (stamp_id alert_stamp, m2).

(** [checkPerformanceThresholds]. *)
Definition checkPerformanceThresholds (alert_stamp event_stamp : Stamp)
    (metric : string) (value : Q) (source : string) (m : Engine) : Engine :=
  match thresholds metric with
  | None => m
  | Some threshold =>
      if Qle_bool (critical threshold) value
      then
        snd (createAlert alert_stamp event_stamp "performance" "critical"
               ("Critical " +:+ metric +:+ " threshold exceeded")
               (metric +:+ " is " +:+ Number_toString value +:+ " (threshold: "
                +:+ Number_toString (critical threshold) +:+ ")")
               source m)
      else if Qle_bool (warning threshold) value
      then
        snd (createAlert alert_stamp event_stamp "performance" "medium"
               ("Warning " +:+ metric +:+ " threshold exceeded")
               (metric +:+ " is " +:+ Number_toString value +:+ " (threshold: "
                +:+ Number_toString (warning threshold) +:+ ")")
               source m)
      else m
  end.

(** [recordMetric]; the free-form tags of a metric are not kept. *)
Definition recordMetric (metric_stamp alert_stamp event_stamp : Stamp)
    (metric : string) (value : Q) (unit_ source : string) (m : Engine) : Engine :=
  let performanceMetric :=
    {| metric_id := stamp_id metric_stamp;
       metric_timestamp := stamp_now metric_stamp;
       metric := metric; value := value; unit_ := unit_;
       metric_source := source |} in
  let m1 := with_metrics (metrics (store m) ++ [performanceMetric]) m in
  let m2 :=
    if Z.of_nat (length (metrics (store m1))) >? 10000
    then with_metrics
           (slice (metrics (store m1)) (-10000)
              (Z.of_nat (length (metrics (store m1))))) m1
    else m1 in
  checkPerformanceThresholds alert_stamp event_stamp metric value source m2.

(** [resolveAlert]: [now] is the reading of the clock that becomes
    [resolvedAt]. *)
Definition resolveAlert (now : Z) (event_stamp : Stamp)
    (alertId resolvedBy : string) (m : Engine) : Engine :=
  match find (has_id alertId) (alerts m) with
  | Some alert =>
      if resolved alert then m
      else
        let m1 :=
          with_alerts
            (Gov.update_first (has_id alertId) (resolve now resolvedBy) (alerts m))
            m in
        snd (logEvent event_stamp PERFORMANCE_ALERT (alert_source alert)
               ("Alert resolved: " +:+ alert_title alert)
               {| opt_spanId := None; opt_userId := None;
                  opt_severity := Some INFO;
                  opt_tags := Some ["alert"; "resolved"] |}
               m1)
  | None => m
  end.

(** *** Laws *)

(** No listener is registered for [PERFORMANCE_ALERT], as after the
    constructor. *)
Definition quiet : Prop :=
  forall event m, run_listeners PERFORMANCE_ALERT event m = m.

Lemma logEvent_quiet (stamp : Stamp) (src msg : string) (options : LogOptions)
    (m : Engine) :
  quiet ->
  let event :=
    {| id := stamp_id stamp; timestamp := stamp_now stamp;
       type := PERFORMANCE_ALERT; source := src;
       spanId := opt_spanId options; userId := opt_userId options;
       severity := default INFO (opt_severity options);
       message := msg; tags := default [] (opt_tags options) |} in
  let m' := snd (logEvent stamp PERFORMANCE_ALERT src msg options m) in
  alerts m' = alerts m /\ metrics (store m') = metrics (store m) /\
  last (events (store m')) = Some event.
Proof.
  intros Hq. cbv zeta. unfold logEvent. rewrite Hq. cbn [snd].
  set (event := {| id := stamp_id stamp |}).
  cbn [with_events store events].
  rewrite length_app. cbn [length].
  destruct (Z.gtb_spec (Z.of_nat (length (events (store m)) + 1)) 1000) as [Hgt|Hle];
    cbn [with_events store events alerts metrics].
  - split; [reflexivity|]. split; [reflexivity|].
    unfold slice, relative_index. rewrite length_app. cbn [length].
    set (n := (length (events (store m)) + 1)%nat) in *.
    change (-1000 <? 0) with true. cbv iota.
    destruct (Z.of_nat n <? 0) eqn:E; [lia|].
    rewrite Z.max_l, Z.min_l by lia.
    replace (Z.to_nat (Z.of_nat n + -1000)) with (n - 1000)%nat by lia.
    rewrite take_ge by (rewrite length_drop, length_app; cbn [length]; lia).
    rewrite drop_app.
    replace (n - 1000 - length (events (store m)))%nat with 0%nat by lia.
    apply last_snoc.
  - split; [reflexivity|]. split; [reflexivity|]. apply last_snoc.
Qed.

Lemma createAlert_quiet (alert_stamp event_stamp : Stamp)
    (ty sev title description src : string) (m : Engine) :
  quiet ->
  let m' := snd (createAlert alert_stamp event_stamp ty sev title
                   description src m) in
  alerts m'
  = alerts m ++
    [{| alert_id := stamp_id alert_stamp;
        alert_timestamp := stamp_now alert_stamp;
        alert_type := ty; alert_severity := sev;
        alert_title := title; alert_description := description;
        alert_source := src;
        resolved := false; resolvedAt := None; resolvedBy := None |}] /\
  metrics (store m') = metrics (store m) /\
  exists event,
    last (events (store m')) = Some event /\
    type event = PERFORMANCE_ALERT /\ source event = src /\
    tags event = ["alert"; ty] /\
    severity event
    = (if String.eqb sev "critical" then CRITICAL_SEVERITY
       else if String.eqb sev "high" then ERROR else WARNING).
Proof.
  intros Hq. cbv zeta. unfold createAlert. cbn [snd].
  match goal with
  | |- context [logEvent ?s _ ?src ?msg ?o ?m1] =>
      destruct (logEvent_quiet s src msg o m1 Hq) as (Ha & Hm & He)
  end.
  cbv zeta in Ha, Hm, He. rewrite Ha, Hm. cbn [with_alerts alerts store].
  split; [reflexivity|]. split; [reflexivity|].
  eexists. split; [exact He|]. cbn. auto.
Qed.

Lemma thresholds_ordered (metric : string) (threshold : Threshold) :
  thresholds metric = Some threshold ->
  (warning threshold <= critical threshold)%Q.
Proof.
  unfold thresholds.
  repeat (destruct (String.eqb metric _)); intros [= <-];
    apply Qle_bool_iff; reflexivity.
Qed.

(** X27. Metrics raise alerts. [recordMetric] appends the metric and
    keeps the last 10000. When no listener is registered for
    [PERFORMANCE_ALERT]: a metric without thresholds, or with a value below
    its warning threshold, raises no alert and logs no event; a value at or
    above the warning threshold appends exactly one alert, unresolved, of
    type [performance], and logs one event for it, tagged [alert] and
    [performance]; from the critical threshold on the alert is [critical]
    and so is the event, below it the alert is [medium] and the event a
    [warning]. *)
Theorem recordMetric_raises_alerts (metric_stamp alert_stamp event_stamp : Stamp)
    (name : string) (x : Q) (unit_name src : string) (m : Engine) :
  quiet ->
  let m' := recordMetric metric_stamp alert_stamp event_stamp name x unit_name
              src m in
  let recorded :=
    {| metric_id := stamp_id metric_stamp;
       metric_timestamp := stamp_now metric_stamp;
       metric := name; value := x; unit_ := unit_name;
       metric_source := src |} in
  metrics (store m')
  = drop (Z.to_nat (Z.of_nat (length (metrics (store m))) + 1 - 10000))
      (metrics (store m) ++ [recorded]) /\
  ((forall threshold, thresholds name = Some threshold ->
      (x < warning threshold)%Q) ->
   alerts m' = alerts m /\ events (store m') = events (store m)) /\
  (forall threshold, thresholds name = Some threshold ->
   (warning threshold <= x)%Q ->
   exists alert event,
     alerts m' = alerts m ++ [alert] /\
     last (events (store m')) = Some event /\
     alert_id alert = stamp_id alert_stamp /\
     resolved alert = false /\
     alert_type alert = "performance" /\
     alert_source alert = src /\
     type event = PERFORMANCE_ALERT /\
     source event = src /\
     tags event = ["alert"; "performance"] /\
     ((critical threshold <= x)%Q ->
      alert_severity alert = "critical" /\ severity event = CRITICAL_SEVERITY) /\
     ((x < critical threshold)%Q ->
      alert_severity alert = "medium" /\ severity event = WARNING)).
Proof.
  intros Hq. cbv zeta. unfold recordMetric.
  set (recorded := {| metric_id := stamp_id metric_stamp |}).
  set (m2 := if _ >? _ then _ else _).
  assert (Hm2 : metrics (store m2)
                = drop (Z.to_nat (Z.of_nat (length (metrics (store m))) + 1 - 10000))
                    (metrics (store m) ++ [recorded])
                /\ alerts m2 = alerts m /\ events (store m2) = events (store m)).
  { unfold m2. cbn [with_metrics store metrics]. rewrite length_app. cbn [length].
    destruct (Z.gtb_spec (Z.of_nat (length (metrics (store m)) + 1)) 10000)
      as [Hgt|Hle]; cbn [with_metrics store metrics alerts events].
    - split; [|split; reflexivity].
      unfold slice, relative_index. rewrite length_app. cbn [length].
      set (n := (length (metrics (store m)) + 1)%nat) in *.
      change (-10000 <? 0) with true. cbv iota.
      destruct (Z.of_nat n <? 0) eqn:E; [lia|].
      rewrite Z.max_l, Z.min_l by lia.
      replace (Z.to_nat (Z.of_nat n + -10000))
        with (Z.to_nat (Z.of_nat (length (metrics (store m))) + 1 - 10000))
        by (unfold n; lia).
      apply take_ge. rewrite length_drop, length_app. cbn [length]. lia.
    - split; [|split; reflexivity].
      replace (Z.to_nat (Z.of_nat (length (metrics (store m))) + 1 - 10000))
        with 0%nat by lia.
      now rewrite drop_0. }
  clearbody m2. destruct Hm2 as (Hmet & Hal & Hev).
  unfold checkPerformanceThresholds.
  destruct (thresholds name) as [threshold|] eqn:Hth; [|].
  2:{ split; [exact Hmet|]. split; [auto|]. intros threshold [=]. }
  destruct (Qle_bool (critical threshold) x) eqn:Hc.
  - match goal with
    | |- context [createAlert ?a ?e ?t ?s ?ti ?d ?src ?m0] =>
        destruct (createAlert_quiet a e t s ti d src m0 Hq)
          as (Ha & Hm & event & He & H1 & H2 & H3 & H4)
    end.
    cbv zeta in Ha, Hm, He. rewrite Ha, Hm, Hal.
    apply Qle_bool_iff in Hc.
    split; [exact Hmet|]. split.
    + intros Hlow. specialize (Hlow threshold eq_refl). exfalso.
      assert (Hw := thresholds_ordered name threshold Hth).
      apply (Qlt_irrefl x). eapply Qlt_le_trans; [exact Hlow|].
      eapply Qle_trans; eassumption.
    + intros th [= <-] Hw. eexists. exists event.
      split; [reflexivity|]. split; [exact He|].
      cbn [alert_id resolved alert_type alert_source alert_severity].
      do 4 (split; [reflexivity|]).
      split; [exact H1|]. split; [exact H2|]. split; [exact H3|]. split.
      * intros _. split; [reflexivity|exact H4].
      * intros Hlt. exfalso. apply (Qlt_irrefl x).
        eapply Qlt_le_trans; eassumption.
  - assert (Hlt : (x < critical threshold)%Q).
    { apply Qnot_le_lt. intros H. apply Qle_bool_iff in H. congruence. }
    destruct (Qle_bool (warning threshold) x) eqn:Hw.
    + match goal with
      | |- context [createAlert ?a ?e ?t ?s ?ti ?d ?src ?m0] =>
          destruct (createAlert_quiet a e t s ti d src m0 Hq)
            as (Ha & Hm & event & He & H1 & H2 & H3 & H4)
      end.
      cbv zeta in Ha, Hm, He. rewrite Ha, Hm, Hal.
      apply Qle_bool_iff in Hw.
      split; [exact Hmet|]. split.
      * intros Hlow. specialize (Hlow threshold eq_refl). exfalso.
        apply (Qlt_irrefl x). eapply Qlt_le_trans; eassumption.
      * intros th [= <-] _. eexists. exists event.
        split; [reflexivity|]. split; [exact He|].
        cbn [alert_id resolved alert_type alert_source alert_severity].
        do 4 (split; [reflexivity|]).
        split; [exact H1|]. split; [exact H2|]. split; [exact H3|]. split.
        -- intros Hge. exfalso. apply (Qlt_irrefl x).
           eapply Qlt_le_trans; eassumption.
        -- intros _. split; [reflexivity|exact H4].
    + split; [exact Hmet|]. split; [auto|].
      intros th [= <-] Hge. apply Qle_bool_iff in Hge. congruence.
Qed.

(** X28. An alert is resolved once. When no listener is registered for
    [PERFORMANCE_ALERT]: [resolveAlert] on an identifier that no alert
    carries, or whose first alert is resolved already, changes nothing and
    logs nothing. Otherwise that alert becomes resolved, by the user and at
    the time given; there is one unresolved alert fewer and one resolved
    alert more, no alert is added or removed, the metrics are as before,
    and one [info] event tagged [alert] and [resolved] is logged. To
    resolve it again changes nothing: the first resolver stays. *)
Theorem resolveAlert_once (now : Z) (event_stamp : Stamp) (alertId user : string)
    (m : Engine) :
  quiet ->
  let m' := resolveAlert now event_stamp alertId user m in
  (find (has_id alertId) (alerts m) = None -> m' = m) /\
  (forall a, find (has_id alertId) (alerts m) = Some a ->
     resolved a = true -> m' = m) /\
  (forall a, find (has_id alertId) (alerts m) = Some a ->
     resolved a = false ->
     find (has_id alertId) (alerts m') = Some (resolve now user a) /\
     (length (getAlerts (Some false) m') + 1
      = length (getAlerts (Some false) m))%nat /\
     (length (getAlerts (Some true) m')
      = length (getAlerts (Some true) m) + 1)%nat /\
     length (getAlerts None m') = length (getAlerts None m) /\
     metrics (store m') = metrics (store m) /\
     (exists event,
        last (events (store m')) = Some event /\
        Obs.type event = PERFORMANCE_ALERT /\
        Obs.source event = alert_source a /\
        severity event = INFO /\
        tags event = ["alert"; "resolved"]) /\
     forall now2 stamp2 user2,
       resolveAlert now2 stamp2 alertId user2 m' = m').
Proof.
  intros Hq. cbv zeta.
  split; [intros H; unfold resolveAlert; now rewrite H|].
  split; [intros a H1 H2; unfold resolveAlert; now rewrite H1, H2|].
  intros a Hf Hr.
  remember (resolveAlert now event_stamp alertId user m) as m' eqn:Hm'.
  unfold resolveAlert in Hm'. rewrite Hf, Hr in Hm'.
  match type of Hm' with
  | _ = snd (logEvent ?s _ ?src ?msg ?o ?m1) =>
      destruct (logEvent_quiet s src msg o m1 Hq) as (Ha & Hm & He)
  end.
  cbv zeta in Ha, Hm, He. rewrite <- Hm' in Ha, Hm, He. clear Hm'.
  cbn [with_alerts alerts store] in Ha, Hm.
  assert (Hid : has_id alertId (resolve now user a) = true).
  { apply find_some in Hf as [_ Hid]. exact Hid. }
  assert (Hfind : find (has_id alertId) (alerts m') = Some (resolve now user a)).
  { rewrite Ha. now apply find_update_first. }
  destruct (update_first_count (has_id alertId)
              (fun x => Bool.eqb (resolved x) false) (resolve now user)
              (alerts m) a Hf)
    as (Hc1 & Hc2 & Hc3); [now rewrite Hr|reflexivity|].
  split; [exact Hfind|]. rewrite !getAlerts_length, Ha.
  split; [exact Hc1|]. split.
  - rewrite !filter_resolved. exact Hc2.
  - split; [exact Hc3|]. split; [exact Hm|]. split.
    + eexists. split; [exact He|]. cbn. auto.
    + intros now2 stamp2 user2. unfold resolveAlert. rewrite Hfind. reflexivity.
Qed.

End Engine.

(** *** The laws at an engine without listeners *)

Definition silent (ty : EventType) (e : TimelineEvent) (m : Engine) : Engine :=
  m.

(** The text of a whole number. *)
Definition whole_number (x : Q) : string := pretty (Qnum x / Zpos (Qden x)).

Definition empty_monitor : Engine :=
  {| store := {| events := []; metrics := [] |}; alerts := [] |}.

(** The engine after a reading of 97 percent of CPU usage. *)
Definition hot_engine : Engine :=
  recordMetric silent "performance_alert" whole_number
    {| stamp_id := "metric_1"; stamp_now := 1 |}
    {| stamp_id := "alert_2"; stamp_now := 2 |}
    {| stamp_id := "event_3"; stamp_now := 3 |}
    "cpu_usage" (97 # 1) "percent" "system" empty_monitor.

Lemma recordMetric_raises_alerts_witness :
  (alert_severity <$> last (alerts hot_engine)) = Some "critical" /\
  (severity <$> last (events (store hot_engine))) = Some CRITICAL_SEVERITY /\
  length (metrics (store hot_engine)) = 1%nat.
Proof.
  destruct (recordMetric_raises_alerts silent "performance_alert" whole_number
              {| stamp_id := "metric_1"; stamp_now := 1 |}
              {| stamp_id := "alert_2"; stamp_now := 2 |}
              {| stamp_id := "event_3"; stamp_now := 3 |}
              "cpu_usage" (97 # 1) "percent" "system" empty_monitor)
    as (Hm & _ & Hhot); [intros e m; reflexivity|].
  cbv zeta in Hm, Hhot. fold hot_engine in Hm, Hhot.
  destruct (Hhot {| warning := 80; critical := 95 |} eq_refl)
    as (alert & event & Ha & He & _ & _ & _ & _ & _ & _ & _ & Hcrit & _);
    [apply Qle_bool_iff; reflexivity|].
  destruct Hcrit as [H1 H2]; [apply Qle_bool_iff; reflexivity|].
  rewrite Ha, He, Hm. cbn. rewrite H1, H2. auto.
Defined.

Lemma resolveAlert_once_witness :
  let m' := resolveAlert silent "performance_alert" 9
              {| stamp_id := "event_10"; stamp_now := 10 |} "alert_2" "alice"
              hot_engine in
  length (getAlerts (Some false) hot_engine) = 1%nat /\
  length (getAlerts (Some false) m') = 0%nat /\
  resolveAlert silent "performance_alert" 11
    {| stamp_id := "event_12"; stamp_now := 12 |} "alert_2" "bob" m' = m'.
Proof.
  cbv zeta.
  destruct (resolveAlert_once silent "performance_alert" 9
              {| stamp_id := "event_10"; stamp_now := 10 |} "alert_2" "alice"
              hot_engine) as (_ & _ & H); [intros e m; reflexivity|].
  cbv zeta in H.
  destruct (find (has_id "alert_2") (alerts hot_engine)) as [a|] eqn:Hf;
    [|vm_compute in Hf; discriminate].
  assert (Hr : resolved a = false)
    by (vm_compute in Hf; injection Hf as <-; reflexivity).
  destruct (H a eq_refl Hr) as (_ & Hless & _ & _ & _ & _ & Hagain).
  assert (H1 : length (getAlerts (Some false) hot_engine) = 1%nat)
    by (vm_compute; reflexivity).
  split; [exact H1|]. split; [lia|apply Hagain].
Defined.

End Monitor.

(** ** The unified timeline (unified-timeline, class [UnifiedTimeline]) *)

Module Unified.

Import Obs.

(** [UnifiedTimelineEvent extends TimelineEvent]. The category is one of
    five strings by its type, which the code never checks. *)
Record UnifiedTimelineEvent : Type := {
  base : TimelineEvent;
  category : string;
  relatedEvents : list string;
  traceId : option string
}.

(** [Partial<UnifiedTimelineEvent>], as far as [logEvent] reads it. *)
Record EventData : Type := {
  data_type : option string;
  data_category : option string;
  data_message : option string;
  data_source : option string;
  data_severity : option Severity;
  data_tags : option (list string);
  data_spanId : option string;
  data_userId : option string;
  data_traceId : option string;
  data_relatedEvents : option (list string)
}.

(** The two maps of the class: the events in the order they were first
    stored, and the identifiers of the events of each trace. *)
Record UnifiedTimeline : Type := {
  ut_events : list (string * UnifiedTimelineEvent);
  traces : gmap string (list string)
}.

(** [if (s)] on an optional string: defined and not empty. *)
Definition truthy_string (s : option string) : option string :=
  match s with
  | Some x => if String.eqb x "" then None else Some x
  | None => None
  end.

(** [s || d] on an optional string. *)
Definition string_or (s : option string) (d : string) : string :=
  default d (truthy_string s).

(** [this.events.get(id)]. *)
Definition getEvent (u : UnifiedTimeline) (eventId : string)
  : option UnifiedTimelineEvent :=
  snd <$> find (PolicyLaws.has_key eventId) (ut_events u).

Definition with_event (eventId : string) (event : UnifiedTimelineEvent)
    (u : UnifiedTimeline) : UnifiedTimeline :=
  {| ut_events := PolicyLaws.map_set eventId event (ut_events u);
     traces := traces u |}.

(** [if (!this.traces.has(t)) this.traces.set(t, []);
    this.traces.get(t)!.push(eventId)]. *)
Definition push_trace (t eventId : string) (u : UnifiedTimeline) : UnifiedTimeline :=
  {| ut_events := ut_events u;
     traces := <[t := default [] (traces u !! t) ++ [eventId]]> (traces u) |}.

Definition with_trace (t : string) (event : UnifiedTimelineEvent)
  : UnifiedTimelineEvent :=
  {| base := base event; category := category event;
     relatedEvents := relatedEvents event; traceId := Some t |}.

Definition oldest_first (a b : UnifiedTimelineEvent) : Z :=
  timestamp (base a) - timestamp (base b).

(** [getTrace]. *)
Definition getTrace (u : UnifiedTimeline) (t : string) : list UnifiedTimelineEvent :=
  let eventIds := default [] (traces u !! t) in
  sort oldest_first (omap (getEvent u) eventIds).

(** [createTrace]; [fresh] is the identifier drawn from the clock and the
    random generator. *)
Definition createTrace (fresh : string) (u : UnifiedTimeline)
  : string * UnifiedTimeline :=
  (fresh, {| ut_events := ut_events u; traces := <[fresh := []]> (traces u) |}).

(** One round of the loop of [linkEvents]. *)
Definition link_one (finalTraceId : string) (u : UnifiedTimeline) (eventId : string)
  : UnifiedTimeline :=
  match getEvent u eventId with
  | Some event =>
      push_trace finalTraceId eventId
        (with_event eventId (with_trace finalTraceId event) u)
  | None => u
  end.

(** [linkEvents]. *)
Definition linkEvents (fresh : string) (eventIds : list string)
    (t : option string) (u : UnifiedTimeline) : string * UnifiedTimeline :=
  let '(finalTraceId, u0) :=
    match truthy_string t with
    | Some x => (x, u)
    | None => createTrace fresh u
    end in
  (finalTraceId, fold_left (link_one finalTraceId) eventIds u0).

Section Log.

(** The call [timelineObservability.logEvent(...)] that ends [logEvent],
    for what it does to the unified timeline through the listeners that
    the observability engine runs. *)
Variable forward : UnifiedTimelineEvent -> UnifiedTimeline -> UnifiedTimeline.

(** [logEvent]. *)
Definition logEvent (eventId : string) (now : Z) (eventData : EventData)
    (u : UnifiedTimeline) : string * UnifiedTimeline :=
  let event :=
    {| base :=
         {| id := eventId; timestamp := now;
            type := string_or (data_type eventData) "system_event";
            source := string_or (data_source eventData) "unified_timeline";
            spanId := data_spanId eventData; userId := data_userId eventData;
            severity := default INFO (data_severity eventData);
            message := string_or (data_message eventData) "System event";
            tags := default [] (data_tags eventData) |};
       category := string_or (data_category eventData) "system";
       relatedEvents := default [] (data_relatedEvents eventData);
       traceId := data_traceId eventData |} in
  let u1 := with_event eventId event u in
  let u2 :=
    match truthy_string (traceId event) with
    | Some t => push_trace t eventId u1
    | None => u1
    end in
  (eventId, forward event u2).

End Log.

(** *** Laws *)

Definition stored (u : UnifiedTimeline) (eventId : string) : bool :=
  match getEvent u eventId with Some _ => true | None => false end.

Lemma getEvent_with_event (u : UnifiedTimeline) (eventId other : string)
    (event : UnifiedTimelineEvent) :
  getEvent (with_event eventId event u) other
  = if String.eqb other eventId then Some event else getEvent u other.
Proof.
  unfold getEvent, with_event; simpl.
  destruct (String.eqb_spec other eventId) as [->|Hne].
  - now rewrite PolicyLaws.find_map_set_eq.
  - now rewrite PolicyLaws.find_map_set_ne.
Qed.

Lemma link_one_spec (final : string) (u : UnifiedTimeline) (eventId : string) :
  let u' := link_one final u eventId in
  map fst (ut_events u') = map fst (ut_events u) /\
  (forall other,
     getEvent u' other
     = if String.eqb other eventId then with_trace final <$> getEvent u other
       else getEvent u other) /\
  traces u' !! final
  = (if stored u eventId
     then Some (default [] (traces u !! final) ++ [eventId])
     else traces u !! final) /\
  (forall t, t <> final -> traces u' !! t = traces u !! t).
Proof.
  cbv zeta. unfold link_one, stored.
  destruct (getEvent u eventId) as [event|] eqn:He.
  - split; [|split; [|split]].
    + cbn [push_trace with_event ut_events].
      rewrite PolicyLaws.map_set_keys. unfold getEvent in He.
      destruct (find (PolicyLaws.has_key eventId) (ut_events u));
        [reflexivity|discriminate].
    + intros other.
      change (getEvent (push_trace final eventId
                          (with_event eventId (with_trace final event) u)) other)
        with (getEvent (with_event eventId (with_trace final event) u) other).
      rewrite getEvent_with_event.
      destruct (String.eqb_spec other eventId) as [->|Hne]; [|reflexivity].
      now rewrite He.
    + cbn [push_trace with_event traces]. now rewrite lookup_insert_eq.
    + intros t Hne. cbn [push_trace with_event traces].
      now rewrite lookup_insert_ne by auto.
  - split; [reflexivity|]. split; [|split; auto].
    intros other. destruct (String.eqb_spec other eventId) as [->|Hne];
      [|reflexivity]. now rewrite He.
Qed.

Lemma with_trace_twice (t : string) (e : option UnifiedTimelineEvent) :
  with_trace t <$> (with_trace t <$> e) = with_trace t <$> e.
Proof. now destruct e. Qed.

(** The list of a trace after some identifiers were pushed to it. *)
Definition appended (old : option (list string)) (linked : list string)
  : option (list string) :=
  match linked with
  | [] => old
  | _ => Some (default [] old ++ linked)
  end.

Lemma appended_cons (old : option (list string)) (x : string) (l : list string) :
  appended (Some (default [] old ++ [x])) l = appended old (x :: l).
Proof.
  destruct l as [|y l]; simpl; [reflexivity|]. now rewrite <- app_assoc.
Qed.

Lemma links_spec (final : string) (eventIds : list string) :
  forall u,
    let u' := fold_left (link_one final) eventIds u in
    map fst (ut_events u') = map fst (ut_events u) /\
    (forall other,
       getEvent u' other
       = if includes eventIds other then with_trace final <$> getEvent u other
         else getEvent u other) /\
    traces u' !! final
    = appended (traces u !! final) (List.filter (stored u) eventIds) /\
    (forall t, t <> final -> traces u' !! t = traces u !! t).
Proof.
  induction eventIds as [|eventId ids IH]; intros u; cbv zeta.
  - simpl. auto.
  - cbn [fold_left].
    destruct (link_one_spec final u eventId) as (K1 & E1 & T1 & O1).
    destruct (IH (link_one final u eventId)) as (K2 & E2 & T2 & O2).
    cbv zeta in *.
    assert (Hst : forall x, stored (link_one final u eventId) x = stored u x).
    { intros x. unfold stored. rewrite E1.
      destruct (String.eqb x eventId); [|reflexivity].
      destruct (getEvent u x); reflexivity. }
    split; [congruence|]. split; [|split].
    + intros other. rewrite E2, E1. unfold includes. cbn [existsb].
      fold (includes ids other).
      destruct (String.eqb_spec other eventId) as [->|Hne].
      * rewrite bool_decide_eq_true_2 by reflexivity. cbn [orb].
        destruct (includes ids eventId); [apply with_trace_twice|reflexivity].
      * rewrite bool_decide_eq_false_2 by congruence. reflexivity.
    + rewrite T2. rewrite (List.filter_ext _ _ Hst). cbn [List.filter].
      rewrite T1.
      destruct (stored u eventId); [apply appended_cons|reflexivity].
    + intros t Hne. rewrite O2, O1 by auto. reflexivity.
Qed.

(** X30. [linkEvents] only adds. It returns the trace it was given, or the
    fresh trace when it was given none or the empty string. It stores and
    removes no event and keeps their order: an event whose identifier is
    in the list gets the trace as its [traceId], every other event is as
    before, an identifier that is not stored is skipped. The stored
    identifiers of the list are appended to the list of the trace, in
    their order and as often as they occur. The lists of all the other
    traces are as before: an event that is linked to another trace stays
    listed in its former trace. *)
Theorem linkEvents_only_adds (fresh : string) (eventIds : list string)
    (t : option string) (u : UnifiedTimeline) :
  let final := fst (linkEvents fresh eventIds t u) in
  let u' := snd (linkEvents fresh eventIds t u) in
  let before :=
    match truthy_string t with
    | Some x => default [] (traces u !! x)
    | None => []
    end in
  final = default fresh (truthy_string t) /\
  map fst (ut_events u') = map fst (ut_events u) /\
  (forall eventId,
     getEvent u' eventId
     = if includes eventIds eventId
       then with_trace final <$> getEvent u eventId
       else getEvent u eventId) /\
  (forall linked, linked = List.filter (stored u) eventIds ->
     (linked <> [] \/ truthy_string t = None) ->
     traces u' !! final = Some (before ++ linked)) /\
  (forall other, other <> final -> traces u' !! other = traces u !! other).
Proof.
  cbv zeta. unfold linkEvents.
  destruct (truthy_string t) as [x|] eqn:Ht.
  - cbn [fst snd default].
    destruct (links_spec x eventIds u) as (K & E & T & O). cbv zeta in *.
    split; [reflexivity|]. split; [exact K|]. split; [exact E|]. split; [|exact O].
    intros linked -> [Hne|Hnone]; [|discriminate].
    rewrite T. unfold appended.
    destruct (List.filter (stored u) eventIds); [congruence|reflexivity].
  - unfold createTrace. cbn [fst snd default].
    set (u0 := {| ut_events := ut_events u; traces := <[fresh:=[]]> (traces u) |}).
    destruct (links_spec fresh eventIds u0) as (K & E & T & O). cbv zeta in *.
    assert (Hst : forall x, stored u0 x = stored u x) by reflexivity.
    split; [reflexivity|]. split; [exact K|]. split; [exact E|]. split.
    + intros linked -> _. rewrite T. rewrite (List.filter_ext _ _ Hst).
      unfold u0, appended; cbn [traces]. rewrite lookup_insert_eq.
      now destruct (List.filter (stored u) eventIds).
    + intros other Hne. rewrite O by auto. unfold u0; cbn [traces].
      now rewrite lookup_insert_ne by auto.
Qed.

(** *** The law at one event *)

Definition no_forward (e : UnifiedTimelineEvent) (u : UnifiedTimeline)
  : UnifiedTimeline := u.

Definition empty_timeline : UnifiedTimeline :=
  {| ut_events := []; traces := ∅ |}.

Definition traced (t : string) : EventData :=
  {| data_type := None; data_category := None; data_message := None;
     data_source := None; data_severity := None; data_tags := None;
     data_spanId := None; data_userId := None; data_traceId := Some t;
     data_relatedEvents := None |}.

(** One event, logged at time 1 in the trace [trace_a]. *)
Definition one_event : UnifiedTimeline :=
  snd (logEvent no_forward "event_1" 1 (traced "trace_a") empty_timeline).

Lemma linkEvents_only_adds_witness :
  let u' := snd (linkEvents "trace_9" ["event_1"; "event_2"] (Some "trace_b")
                   one_event) in
  (traceId <$> getEvent u' "event_1") = Some (Some "trace_b") /\
  getEvent u' "event_2" = None /\
  traces u' !! "trace_b" = Some ["event_1"] /\
  traces u' !! "trace_a" = Some ["event_1"] /\
  map traceId (getTrace u' "trace_a") = [Some "trace_b"].
Proof.
  cbv zeta.
  destruct (linkEvents_only_adds "trace_9" ["event_1"; "event_2"] (Some "trace_b")
              one_event) as (Hf & _ & He & Ht & Ho).
  cbv zeta in Hf, He, Ht, Ho.
  assert (Hfinal : fst (linkEvents "trace_9" ["event_1"; "event_2"] (Some "trace_b")
                          one_event) = "trace_b") by exact Hf.
  rewrite Hfinal in He, Ht, Ho.
  split; [rewrite He; reflexivity|]. split; [rewrite He; reflexivity|].
  split; [|split].
  - rewrite (Ht ["event_1"]); [reflexivity|reflexivity|left; discriminate].
  - rewrite Ho by discriminate. reflexivity.
  - vm_compute. reflexivity.
Defined.

End Unified.
